(** * PageRank simulator: rule engine and constrained solver

    A shallow embedding of the graph-mutation and solver core of the
    simulator:

    - [app/core/selectors/*.py] and [app/core/rules/multi_rule.py]
      (module [Rules]);
    - [app/core/pagerank/advanced_impl.py] and
      [app/core/pagerank/networkx_impl.py] (module [Solver]);
    - [app/core/rules/base.py] and the menu and footer templates of
      [app/core/rules/templates/] (module [Templates]);
    - [combine_weights] of [app/services/semantic_service.py] (module
      [Weights]);
    - the link, weight, conversion, result and summary steps of
      [app/core/simulator.py] (module [Simulator]).

    Numeric conventions.  The solver's [float] arrays are read in exact
    arithmetic: a numpy vector is a [list Q], [np.inf] is the extra
    point [PInf] of [bound], and a division whose divisor is zero (numpy
    answers [nan]/[inf] and goes on) ends the computation with [None].
    The one place where double rounding changes an integer result,
    [int(max_targets * 0.7)] of the relevance-mix selector, is modelled
    bit-exactly on [Z] (module [Float64]).

    Strings.  A [str] is the [string] of its UTF-8 bytes, on which
    equality and containment are those of the [str].  [str.lower],
    whose result depends on Unicode's case tables, is a parameter of
    the rule engine (the class [CaseFolding] of module [Rules]); the
    examples run on its restriction to ASCII strings.

    Containers.  Python dicts and sets are [gmap]s and [gset]s; the dicts
    whose insertion order the code relies on (the url-keyed arguments of
    [calculate]) are the lists of their items.  Where the solver iterates
    over a set or dict of its own ([protected_ids], [boosted_ids],
    [outflow_caps]) the order is that of [elements] and [map_to_list];
    each round of those loops writes the entry of one page index. *)

From Stdlib Require Import ZArith QArith Qabs Lia Lqa List.
From stdpp Require Import base option list gmap sets strings sorting.

Local Open Scope Z_scope.

(** ** Pages

    A page is an ORM object or a [dict] in the Python code.  The record
    reads a page given as a [dict] with the keys below, the form of the
    repository's tests.  An ORM object goes through the same accessors
    ([page.id if hasattr(page, 'id') else page['id']],
    [getattr(page, 'id', None) or page.get('id')], ...) and gives the
    same values as long as the field read is truthy; an object with a
    falsy field (id 0, empty type or category, rank 0) makes the [or]
    fall through to [page.get] and raise, which is outside the model. *)

Record page : Type := Page {
  page_id : Z;
  page_url : string;
  page_type : string;
  page_category : string;
  page_current_pagerank : Q
}.

(** A link is a pair [(from_id, to_id)]. *)
Abbreviation link := (Z * Z)%type.

(** ** Exact rational helpers *)

Module QVec.

Local Open Scope Q_scope.

Definition Qltb (a b : Q) : bool := negb (Qle_bool b a).

Definition qmax (a b : Q) : Q := if Qle_bool a b then b else a.
Definition qmin (a b : Q) : Q := if Qle_bool a b then a else b.

(** [np.sum] *)
Definition vsum (v : list Q) : Q := foldr Qplus 0 v.
#[global] Arguments vsum : simpl never.

(** elementwise [a + b], [a - b], scalar [k * a], [a / s] *)
Definition vadd (a b : list Q) : list Q := zip_with Qplus a b.
Definition vsub (a b : list Q) : list Q := zip_with Qminus a b.
Definition vscale (k : Q) (a : list Q) : list Q := map (Qmult k) a.
Definition vdiv (a : list Q) (s : Q) : list Q := map (fun x => x / s) a.

(** [np.linalg.norm(v, ord=1)] *)
Definition norm1 (v : list Q) : Q := vsum (map Qabs v).

(** pointwise equality and order of vectors *)
Definition veq (a b : list Q) : Prop := Forall2 Qeq a b.
Definition vle (a b : list Q) : Prop := Forall2 Qle a b.

End QVec.

(** ** The constrained solver, [advanced_impl.py] and [networkx_impl.py] *)

Module Solver.

Import QVec.
Local Open Scope Q_scope.

(** *** Bounds with [np.inf] *)

Inductive bound : Type :=
| Finite (q : Q)
| PInf.

(** [np.minimum(x, c)] and the test [x < c] against a possibly infinite
    ceiling. *)
Definition cap (x : Q) (c : bound) : Q :=
  match c with Finite q => qmin x q | PInf => x end.

Definition below (x : Q) (c : bound) : bool :=
  match c with Finite q => Qltb x q | PInf => true end.

(** [c - x]; [None] stands for [inf]. *)
Definition room_above (c : bound) (x : Q) : option Q :=
  match c with Finite q => Some (q - x) | PInf => None end.

(** [x <= c] *)
Definition le_bound (x : Q) (c : bound) : Prop :=
  match c with Finite q => x <= q | PInf => True end.

(** [0 < c] *)
Definition positive_bound (c : bound) : Prop :=
  match c with Finite q => 0 < q | PInf => True end.

(** [floors[i] <= a[i] <= ceilings[i]] for every [i], on arrays of one
    length. *)
Definition within (floors a : list Q) (ceilings : list bound) : Prop :=
  Forall3 (fun f x c => f <= x /\ le_bound x c) floors a ceilings.

(** The entries of an array when all of them are finite. *)
Fixpoint all_finite (l : list (option Q)) : option (list Q) :=
  match l with
  | [] => Some []
  | Some x :: l' =>
      match all_finite l' with Some r => Some (x :: r) | None => None end
  | None :: _ => None
  end.

Definition np_maximum (p floors : list Q) : list Q := zip_with qmax p floors.
Definition np_minimum (p : list Q) (ceilings : list bound) : list Q :=
  zip_with cap p ceilings.

(** [np.clip(a, lo, hi)] is [np.minimum(hi, np.maximum(a, lo))]. *)
Definition np_clip (a floors : list Q) (ceilings : list bound) : list Q :=
  np_minimum (np_maximum a floors) ceilings.

(** Boolean masks: [a[mask]], [np.sum(mask)] and [a[mask] += adj]. *)
Fixpoint select {A : Type} (mask : list bool) (a : list A) : list A :=
  match mask, a with
  | m :: mask', x :: a' =>
      if m then x :: select mask' a' else select mask' a'
  | _, _ => []
  end.

Definition count_true (mask : list bool) : nat := length (filter Is_true mask).

Fixpoint add_at (mask : list bool) (a adj : list Q) : list Q :=
  match mask, a with
  | m :: mask', x :: a' =>
      if m then
        match adj with
        | d :: adj' => (x + d) :: add_at mask' a' adj'
        | [] => x :: add_at mask' a' []
        end
      else x :: add_at mask' a' adj
  | _, _ => a
  end.

Definition of_nat (n : nat) : Q := inject_Z (Z.of_nat n).

(** *** [_water_filling_projection] *)

Definition eps10 : Q := 1 # 10000000000.

(** [can_adjust = (p_capped > floors) & (p_capped < ceilings)] *)
Fixpoint can_adjust (p_capped floors : list Q) (ceilings : list bound)
  : list bool :=
  match p_capped, floors, ceilings with
  | x :: p', f :: fl', c :: cl' =>
      (Qltb f x && below x c) :: can_adjust p' fl' cl'
  | _, _, _ => []
  end.

(** The [adjustment] array of the branch [deficit > 0]. *)
Definition adjustment_add (p_capped : list Q) (ceilings : list bound)
    (mask : list bool) (deficit : Q) : list Q :=
  let n_adjustable := count_true mask in
  let room := zip_with room_above (select mask ceilings) (select mask p_capped) in
  match all_finite room with
  | Some room =>
      let available_capacity := vsum room in
      if Qltb available_capacity deficit then
        (* Not enough capacity - distribute proportionally *)
        map (fun r => r * (deficit / available_capacity)) room
      else
        (* Distribute evenly among adjustable pages *)
        replicate n_adjustable (deficit / of_nat n_adjustable)
  | None =>
      (* available_capacity is inf, and inf < deficit is False *)
      replicate n_adjustable (deficit / of_nat n_adjustable)
  end.

(** The [adjustment] array of the branch [deficit < 0]. *)
Definition adjustment_remove (p_capped floors : list Q)
    (mask : list bool) (deficit : Q) : list Q :=
  let n_adjustable := count_true mask in
  let room := zip_with Qminus (select mask p_capped) (select mask floors) in
  let available_capacity := vsum room in
  if Qltb available_capacity (- deficit) then
    (* Not enough to remove - take proportionally *)
    map (fun r => (- r) * ((- deficit) / available_capacity)) room
  else
    (* Remove evenly from adjustable pages *)
    replicate n_adjustable (deficit / of_nat n_adjustable).

(** The vector before the final bounds check. *)
Definition redistribute (p_capped floors : list Q) (ceilings : list bound)
    (mask : list bool) (deficit : Q) : list Q :=
  if Qltb 0 deficit then
    add_at mask p_capped (adjustment_add p_capped ceilings mask deficit)
  else
    add_at mask p_capped (adjustment_remove p_capped floors mask deficit).

(** [a / s] on an array; numpy leaves [nan]/[inf] entries when [s] is
    zero (an empty array stays empty). *)
Definition normalize (a : list Q) (s : Q) : option (list Q) :=
  match a with
  | [] => Some []
  | _ => if Qeq_bool s 0 then None else Some (vdiv a s)
  end.

Definition water_filling_projection (p floors : list Q)
    (ceilings : option (list bound)) : option (list Q) :=
  let n := length p in
  let ceilings := default (replicate n PInf) ceilings in
  (* Step 1: Apply floor constraints *)
  let p_floored := np_maximum p floors in
  (* Step 2: Check if we need ceiling constraints *)
  let p_capped := np_minimum p_floored ceilings in
  (* Step 3: Water-filling to restore sum p = 1 *)
  let current_sum := vsum p_capped in
  let deficit := 1 - current_sum in
  if Qltb (Qabs deficit) eps10 then Some p_capped
  else
    let mask := can_adjust p_capped floors ceilings in
    if (count_true mask =? 0)%nat then
      (* All pages saturated - normalize proportionally *)
      normalize p_capped current_sum
    else
      let p_capped := redistribute p_capped floors ceilings mask deficit in
      (* Final bounds check and normalization *)
      let p_final := np_clip p_capped floors ceilings in
      normalize p_final (vsum p_final).

(** *** [_prepare_page_data] *)

Record page_data : Type := PageData {
  pd_pages : list page;
  id_to_url : gmap Z string;
  url_to_id : gmap string Z;
  protected_ids : gset Z;
  boosted_ids : gset Z;
  floor_values : gmap Z Q;
  target_values : gmap Z Q;
  outflow_caps : gmap Z Q
}.

(** One round of [for url, factor in d.items(): if url in url_to_id: ...]
    for the two loops that fill a set of ids and a dict of factors. *)
Definition mark (u2i : gmap string Z) (acc : gset Z * gmap Z Q)
    (entry : string * Q) : gset Z * gmap Z Q :=
  match u2i !! entry.1 with
  | Some pid => ({[ pid ]} ∪ acc.1, <[ pid := entry.2 ]> acc.2)
  | None => acc
  end.

(** The same for [outflow_caps], which keeps no id set. *)
Definition mark_cap (u2i : gmap string Z) (acc : gmap Z Q)
    (entry : string * Q) : gmap Z Q :=
  match u2i !! entry.1 with
  | Some pid => <[ pid := entry.2 ]> acc
  | None => acc
  end.

(** The three url-keyed dicts arrive as their [items()], in insertion
    order; [None] and the empty dict are both the empty list. *)
Definition prepare_page_data (pages : list page)
    (protected_pages boosted_pages alpha_cap : list (string * Q)) : page_data :=
  let i2u := foldl (fun m pg => <[ page_id pg := page_url pg ]> m) ∅ pages in
  let u2i := foldl (fun m pg => <[ page_url pg := page_id pg ]> m) ∅ pages in
  let prot := foldl (mark u2i) (∅, ∅) protected_pages in
  let boost := foldl (mark u2i) (∅, ∅) boosted_pages in
  let caps := foldl (mark_cap u2i) ∅ alpha_cap in
  {| pd_pages := pages; id_to_url := i2u; url_to_id := u2i;
     protected_ids := prot.1; boosted_ids := boost.1;
     floor_values := prot.2; target_values := boost.2;
     outflow_caps := caps |}.

(** *** [_build_transition_matrix] *)

(** A matrix is the list of its rows; the sparse matrices of the code
    are read densely. *)
Abbreviation matrix := (list (list Q)).

Definition zeros (n : nat) : matrix := replicate n (replicate n 0).

(** [{page_id: idx for idx, page_id in enumerate(page_ids)}] *)
Definition index_of_ids (page_ids : list Z) : gmap Z nat :=
  foldl (fun m e => <[ e.2 := e.1 ]> m) ∅ (imap pair page_ids).

(** [link_weights.get((from_id, to_id), 1.0) if link_weights else 1.0] *)
Definition weight_of (link_weights : option (gmap link Q)) (l : link) : Q :=
  match link_weights with
  | Some lw => default 1 (lw !! l)
  | None => 1
  end.

(** [csr_matrix((weights, (rows, cols)), shape=(n, n))]: entries at the
    same position are summed. *)
Definition add_entry (A : matrix) (r c : nat) (w : Q) : matrix :=
  alter (alter (fun x => x + w) c) r A.

Definition adjacency (n : nat) (id_to_idx : gmap Z nat)
    (links : list link) (link_weights : option (gmap link Q)) : matrix :=
  foldl (fun A l =>
           match id_to_idx !! l.1, id_to_idx !! l.2 with
           | Some from_idx, Some to_idx =>
               add_entry A from_idx to_idx (weight_of link_weights l)
           | _, _ => A
           end) (zeros n) links.

(** One outflow cap: the row is scaled by [cap_factor] and the rest
    becomes a self-loop, when the row has positive weight. *)
Definition apply_cap (id_to_idx : gmap Z nat) (A : matrix)
    (entry : Z * Q) : matrix :=
  match id_to_idx !! entry.1 with
  | Some idx =>
      let row_data := default [] (A !! idx) in
      if Qltb 0 (vsum row_data) then
        let row_data := vscale entry.2 row_data in
        let row_data := alter (fun x => x + (1 - entry.2)) idx row_data in
        <[ idx := row_data ]> A
      else A
  | None => A
  end.

(** [M = A.T @ diags(1.0 / out_degrees)], after
    [out_degrees[out_degrees == 0] = 1]. *)
Definition out_degrees (A : matrix) : list Q :=
  map (fun s => if Qeq_bool s 0 then 1 else s) (map vsum A).

Definition column (j : nat) (A : matrix) : list Q :=
  map (fun row => nth j row 0) A.

Definition normalize_columns (A : matrix) : matrix :=
  let D_inv := map (fun d => 1 / d) (out_degrees A) in
  map (fun i => zip_with Qmult (column i A) D_inv) (seq 0 (length A)).

Definition build_transition_matrix (pd : page_data) (links : list link)
    (link_weights : option (gmap link Q)) (apply_caps : bool)
  : matrix * gmap Z nat :=
  let n_pages := length (pd_pages pd) in
  let page_ids := map page_id (pd_pages pd) in
  let id_to_idx := index_of_ids page_ids in
  let A := adjacency n_pages id_to_idx links link_weights in
  let A := if apply_caps
           then foldl (apply_cap id_to_idx) A (map_to_list (outflow_caps pd))
           else A in
  (normalize_columns A, id_to_idx).

(** [M.dot(p)] *)
Definition dot (M : matrix) (p : list Q) : list Q :=
  map (fun row => vsum (zip_with Qmult row p)) M.

(** *** [_compute_teleportation_vector] *)

(** The [(idx, need)] list of one pocket.  [ids] is the id set in
    iteration order, [factors] the dict of its factors (every id of the
    set has one, by the way [prepare_page_data] fills them). *)
Definition pocket_needs (ids : list Z) (factors : gmap Z Q)
    (id_to_idx : gmap Z nat) (baseline_vec p_current : list Q)
  : list (nat * Q) :=
  omap (fun pid =>
          match id_to_idx !! pid with
          | Some idx =>
              let factor := default 0 (factors !! pid) in
              let wanted := factor * nth idx baseline_vec 0 in
              let current := nth idx p_current 0 in
              if Qltb current wanted then Some (idx, wanted - current)
              else None
          | None => None
          end) ids.

(** Proportional distribution of one budget; returns the pocket vector
    and the budget used. *)
Definition distribute (n_pages : nat) (needs : list (nat * Q)) (eta : Q)
  : list Q * Q :=
  let v0 := replicate n_pages 0 in
  match needs with
  | [] => (v0, 0)
  | _ =>
      if Qltb 0 eta then
        let total_need := vsum (map snd needs) in
        let budget_per_unit :=
          if Qltb 0 total_need then eta / total_need else 0 in
        foldl (fun acc e =>
                 let allocation := qmin (e.2 * budget_per_unit) (eta - acc.2) in
                 (<[ e.1 := allocation ]> acc.1, acc.2 + allocation))
              (v0, 0) needs
      else (v0, 0)
  end.

Definition compute_teleportation_vector (pd : page_data)
    (p_current baseline_vec : list Q) (eta_protect eta_boost : Q)
    (id_to_idx : gmap Z nat) : option (list Q) * Q * Q :=
  let n_pages := length p_current in
  let v_base := replicate n_pages (1 / of_nat n_pages) in
  let protect_needs :=
    pocket_needs (elements (protected_ids pd)) (floor_values pd)
                 id_to_idx baseline_vec p_current in
  let '(v_protect, protect_budget_used) :=
    distribute n_pages protect_needs eta_protect in
  let boost_needs :=
    pocket_needs (elements (boosted_ids pd)) (target_values pd)
                 id_to_idx baseline_vec p_current in
  let '(v_boost, boost_budget_used) :=
    distribute n_pages boost_needs eta_boost in
  let unused_protect := eta_protect - protect_budget_used in
  let unused_boost := eta_boost - boost_budget_used in
  let base_weight := 1 - eta_protect - eta_boost + unused_protect + unused_boost in
  let v_final := vadd (vadd (vscale base_weight v_base) v_protect) v_boost in
  (normalize v_final (vsum v_final), protect_budget_used, boost_budget_used).

(** *** [_calculate_fast] and [_calculate_exact] *)

(** [{page_ids[i]: p[i] for i in range(n_pages)}]; a later entry
    replaces an earlier one with the same key. *)
Definition to_dict (keys : list Z) (values : list Q) : gmap Z Q :=
  foldl (fun m e => <[ e.1 := e.2 ]> m) ∅ (zip keys values).

(** [floors[idx] = floor_factor * baseline_vec[idx]] for the protected
    ids that are indexed. *)
Definition set_floors (pd : page_data) (id_to_idx : gmap Z nat)
    (baseline_vec : list Q) : list Q :=
  foldl (fun floors pid =>
           match id_to_idx !! pid with
           | Some idx =>
               let floor_factor := default 0 (floor_values pd !! pid) in
               <[ idx := floor_factor * nth idx baseline_vec 0 ]> floors
           | None => floors
           end)
        (replicate (length baseline_vec) 0) (elements (protected_ids pd)).

(** [ceilings[idx] = 2.0 * target_factor * baseline_vec[idx]] for the
    boosted ids that are indexed. *)
Definition set_ceilings (pd : page_data) (id_to_idx : gmap Z nat)
    (baseline_vec : list Q) : list bound :=
  foldl (fun ceilings pid =>
           match id_to_idx !! pid with
           | Some idx =>
               let target_factor := default 0 (target_values pd !! pid) in
               <[ idx := Finite (2 * target_factor * nth idx baseline_vec 0) ]>
                 ceilings
           | None => ceilings
           end)
        (replicate (length baseline_vec) PInf) (elements (boosted_ids pd)).

Section FastLoop.

Variables (pd : page_data) (M : matrix) (id_to_idx : gmap Z nat).
Variables (baseline_vec floors : list Q) (ceilings : list bound).
Variables (damping eta_protect eta_boost tolerance : Q).

(** One pass of the body of [for iteration in range(max_iter)], up to
    the projection. *)
Definition fast_step (p : list Q) : option (list Q) :=
  match compute_teleportation_vector pd p baseline_vec eta_protect eta_boost
          id_to_idx with
  | (Some v, _, _) =>
      let p_new := vadd (vscale damping (dot M p)) (vscale (1 - damping) v) in
      water_filling_projection p_new floors (Some ceilings)
  | (None, _, _) => None
  end.

(** The loop: [todo] passes are left and [iteration] is the loop
    variable.  Convergence is tested on every tenth pass. *)
Fixpoint fast_loop (todo iteration : nat) (p : list Q) : option (list Q) :=
  match todo with
  | O => Some p
  | S todo' =>
      match fast_step p with
      | Some p' =>
          if (iteration mod 10 =? 0)%nat && Qltb (norm1 (vsub p' p)) tolerance
          then Some p'
          else fast_loop todo' (S iteration) p'
      | None => None
      end
  end.

End FastLoop.

(** [np.array([baseline_pr.get(page_id, 1.0/n_pages) for page_id in
    page_ids])] *)
Definition baseline_vector (pd : page_data) (baseline_pr : gmap Z Q) : list Q :=
  let n_pages := length (pd_pages pd) in
  map (fun pid => default (1 / of_nat n_pages) (baseline_pr !! pid))
      (map page_id (pd_pages pd)).

Definition calculate_fast (pd : page_data) (links : list link)
    (baseline_pr : gmap Z Q)
    (damping eta_protect eta_boost tolerance : Q) (max_iter : Z)
  : option (gmap Z Q) :=
  let page_ids := map page_id (pd_pages pd) in
  let '(M, id_to_idx) := build_transition_matrix pd links None true in
  let p := baseline_vector pd baseline_pr in
  let baseline_vec := p in
  let floors := set_floors pd id_to_idx baseline_vec in
  let ceilings := set_ceilings pd id_to_idx baseline_vec in
  match fast_loop pd M id_to_idx baseline_vec floors ceilings
          damping eta_protect eta_boost tolerance (Z.to_nat max_iter) 0 p with
  | Some p => Some (to_dict page_ids p)
  | None => None
  end.

(** "TODO: Implement exact algorithm.  For now, delegate to fast mode" *)
Definition calculate_exact (pd : page_data) (links : list link)
    (baseline_pr : gmap Z Q)
    (damping eta_protect eta_boost tolerance : Q) (max_iter : Z)
  : option (gmap Z Q) :=
  calculate_fast pd links baseline_pr damping eta_protect eta_boost
    tolerance max_iter.

(** *** The baseline solver, [NetworkXPageRankCalculator] *)

(** [scipy.sparse.linalg.norm], the [norm] that [networkx_impl.py]
    imports, accepts sparse matrices only: on a dense array such as
    [v - v_old] it raises [TypeError("input is not sparse. use
    numpy.linalg.norm")].  [None] is that exception. *)
Definition sparse_linalg_norm (x : list Q) (ord : Z) : option Q := None.

Section SparseLoop.

Variables (M : matrix) (damping teleport tolerance : Q).

(** [for iteration in range(max_iter)] of the sparse power iteration. *)
Fixpoint sparse_loop (todo iteration : nat) (v : list Q) : option (list Q) :=
  match todo with
  | O => Some v
  | S todo' =>
      let v_old := v in
      let v := map (fun x => x + teleport) (vscale damping (dot M v)) in
      if (iteration mod 10 =? 0)%nat then
        match sparse_linalg_norm (vsub v v_old) 1 with
        | Some diff =>
            if Qltb diff tolerance then Some v
            else sparse_loop todo' (S iteration) v
        | None => None
        end
      else sparse_loop todo' (S iteration) v
  end.

End SparseLoop.

(** [_calculate_with_sparse_matrix].  [(1 - damping) / n] is a Python
    scalar division and raises [ZeroDivisionError] when there is no
    page. *)
Definition calculate_with_sparse_matrix (pages : list page)
    (links : list link) (damping : Q) (max_iter : Z) (tolerance : Q)
    (link_weights : option (gmap link Q)) : option (gmap Z Q) :=
  let page_ids := map page_id pages in
  let n := length page_ids in
  let id_to_idx := index_of_ids page_ids in
  let A := adjacency n id_to_idx links link_weights in
  let M := normalize_columns A in
  let v := replicate n (1 / of_nat n) in
  if (n =? 0)%nat then None
  else
    let teleport := (1 - damping) / of_nat n in
    match sparse_loop M damping teleport tolerance (Z.to_nat max_iter) 0 v with
    | Some v => Some (to_dict page_ids v)
    | None => None
    end.

Inductive nx_outcome : Type :=
| NxScores (pagerank_scores : gmap Z Q)
| NxError
| NxRaised.

Section Calculators.

(** [networkx.pagerank(G, alpha, max_iter, tol, weight)] on the graph
    with the given nodes and edges.  The library is not part of the
    repository: it is a parameter, and its outcome is a score dict, a
    raised [NetworkXError], or another exception (such as
    [PowerIterationFailedConvergence], which is no [NetworkXError]). *)
Variable nx_pagerank :
  list Z -> list link -> option (gmap link Q) -> Q -> Z -> Q -> nx_outcome.

(** A non-empty dict is truthy. *)
Definition truthy_weights (link_weights : option (gmap link Q))
  : option (gmap link Q) :=
  match link_weights with
  | Some lw => if decide (lw = ∅) then None else Some lw
  | None => None
  end.

Definition calculate_standard (pages : list page) (links : list link)
    (damping : Q) (max_iter : Z) (tolerance : Q)
    (link_weights : option (gmap link Q)) : option (gmap Z Q) :=
  let page_ids := map page_id pages in
  match nx_pagerank page_ids links (truthy_weights link_weights)
          damping max_iter tolerance with
  | NxScores pagerank_scores => Some pagerank_scores
  | NxError =>
      match links with
      | [] =>
          (* No links found, using uniform distribution *)
          Some (to_dict page_ids
                  (replicate (length page_ids) (1 / of_nat (length page_ids))))
      | _ => None   (* ValueError("PageRank calculation failed") *)
      end
  | NxRaised => None
  end.

(** [NetworkXPageRankCalculator.calculate] *)
Definition networkx_calculate (pages : list page) (links : list link)
    (damping : Q) (max_iter : Z) (tolerance : Q)
    (link_weights : option (gmap link Q)) : option (gmap Z Q) :=
  let num_pages := Z.of_nat (length pages) in
  let num_links := Z.of_nat (length links) in
  if ((50000 <? num_pages) || (500000 <? num_links))%Z then
    calculate_with_sparse_matrix pages links damping max_iter tolerance
      link_weights
  else
    calculate_standard pages links damping max_iter tolerance link_weights.

(** *** [AdvancedPageRankCalculator] *)

Record calculator : Type := Calculator {
  self_damping : Q;
  self_tolerance : Q;
  self_max_iter : Z;
  performance_threshold : Q   (* seconds *)
}.

(** [__init__] with its defaults written out by the caller. *)
Definition init (damping tolerance : Q) (max_iter : Z)
    (performance_threshold_minutes : Q) : calculator :=
  {| self_damping := damping; self_tolerance := tolerance;
     self_max_iter := max_iter;
     performance_threshold := performance_threshold_minutes * 60 |}.

Definition estimate_computation_time (self : calculator)
    (n_pages n_links : nat) : Q :=
  let base_time := 1 # 10 in
  let page_factor := of_nat n_pages * (1 # 100000) in
  let link_factor := of_nat n_links * (1 # 1000000) in
  let iterations := inject_Z (Z.min 100 (self_max_iter self)) in
  base_time + (page_factor + link_factor) * iterations.

(** [x or default]: [None] and zero are falsy. *)
Definition or_default (x : option Q) (dflt : Q) : Q :=
  match x with
  | Some q => if Qeq_bool q 0 then dflt else q
  | None => dflt
  end.

Definition or_default_Z (x : option Z) (dflt : Z) : Z :=
  match x with
  | Some z => if (z =? 0)%Z then dflt else z
  | None => dflt
  end.

(** [_calculate_baseline_pagerank]: the baseline calculator runs with
    its own default [max_iter=100]. *)
Definition calculate_baseline_pagerank (self : calculator) (pd : page_data)
    (links : list link) (damping : Q) (link_weights : option (gmap link Q))
  : option (gmap Z Q) :=
  networkx_calculate (pd_pages pd) links damping 100 (self_tolerance self)
    link_weights.

Definition use_fast_mode (self : calculator) (pages : list page)
    (links : list link) : bool :=
  Qltb (performance_threshold self)
       (estimate_computation_time self (length pages) (length links)).

(** The budgets after "Validate budgets". *)
Definition validate_budgets (eta_protect eta_boost : Q) : Q * Q :=
  if Qltb 1 (eta_protect + eta_boost) then
    let eta_protect := qmin eta_protect (4 # 10) in
    (eta_protect, qmin eta_boost ((6 # 10) - eta_protect))
  else (eta_protect, eta_boost).

Definition calculate (self : calculator) (pages : list page)
    (links : list link) (damping : option Q) (max_iter : option Z)
    (tolerance : option Q) (link_weights : option (gmap link Q))
    (protected_pages boosted_pages : list (string * Q))
    (eta_protect eta_boost : Q) (alpha_cap : list (string * Q))
  : option (gmap Z Q) :=
  let damping := or_default damping (self_damping self) in
  let max_iter := or_default_Z max_iter (self_max_iter self) in
  let tolerance := or_default tolerance (self_tolerance self) in
  let '(eta_protect, eta_boost) := validate_budgets eta_protect eta_boost in
  let pd := prepare_page_data pages protected_pages boosted_pages alpha_cap in
  match calculate_baseline_pagerank self pd links damping link_weights with
  | Some baseline_pr =>
      if use_fast_mode self pages links then
        calculate_fast pd links baseline_pr damping eta_protect eta_boost
          tolerance max_iter
      else
        calculate_exact pd links baseline_pr damping eta_protect eta_boost
          tolerance max_iter
  | None => None
  end.

End Calculators.

End Solver.

(** ** Double-precision [int(max_targets * 0.7)] *)

Module Float64.

Local Open Scope Z_scope.

(** Round the non-negative integer [x] to 53 significant bits, ties to
    even.  For a double with integer significand [x] (at any exponent)
    this is IEEE-754 round-to-nearest. *)
Definition round53 (x : Z) : Z :=
  let bits := Z.log2 x + 1 in
  if bits <=? 53 then x
  else
    let sh := bits - 53 in
    let q := Z.shiftr x sh in
    let r := x mod 2 ^ sh in
    let half := 2 ^ (sh - 1) in
    let q' := if r <? half then q
              else if half <? r then q + 1
              else if Z.even q then q else q + 1 in
    Z.shiftl q' sh.

(** The double nearest to 0.7 is [0x1.6666666666666p-1], that is
    [significand_07 / 2^53]. *)
Definition significand_07 : Z := 6305039478318694.

(** [int(m * 0.7)]: [m] is converted to a double, multiplied, and the
    product truncated toward zero. *)
Definition int_mul_07 (m : Z) : Z :=
  Z.sgn m * Z.shiftr (round53 (round53 (Z.abs m) * significand_07)) 53.

End Float64.

(** ** Selection strategies and the multi-rule engine *)

Module Rules.

Local Open Scope Z_scope.

(** *** The random source

    The global [random] generator is a supply of raw draws, threaded
    through every call; an exhausted supply keeps answering 0. *)
Definition rng : Type := list nat.

Definition next (g : rng) : nat * rng :=
  match g with
  | [] => (0%nat, [])
  | r :: g' => (r, g')
  end.

(** [k] draws without replacement from [pool]. *)
Fixpoint draw {A : Type} (k : nat) (pool : list A) (g : rng) : list A * rng :=
  match k with
  | O => ([], g)
  | S k' =>
      let '(r, g') := next g in
      let j := (r mod length pool)%nat in
      match pool !! j with
      | Some x =>
          let '(rest, g'') := draw k' (delete j pool) g' in
          (x :: rest, g'')
      | None => ([], g')
      end
  end.

(** [random.sample(population, k)]; [None] is its [ValueError] ("Sample
    larger than population or is negative"). *)
Definition random_sample {A : Type} (population : list A) (k : Z) (g : rng)
  : option (list A * rng) :=
  if (k <? 0) || (Z.of_nat (length population) <? k) then None
  else Some (draw (Z.to_nat k) population g).

(** [l[:k]] *)
Definition slice_to {A : Type} (l : list A) (k : Z) : list A :=
  if 0 <=? k then take (Z.to_nat k) l
  else take (Z.to_nat (Z.of_nat (length l) + k)) l.

(** [sorted(l, key=..., reverse=...)], a stable sort: [before x y] says
    that [x] may stay ahead of [y]. *)
Fixpoint insert_sorted {A : Type} (before : A -> A -> bool) (x : A)
    (l : list A) : list A :=
  match l with
  | [] => [x]
  | y :: l' => if before x y then x :: l else y :: insert_sorted before x l'
  end.

Definition sorted {A : Type} (key : A -> Q) (reverse : bool) (l : list A)
  : list A :=
  let before x y :=
    if reverse then Qle_bool (key y) (key x) else Qle_bool (key x) (key y) in
  foldr (insert_sorted before) [] l.

(** *** Selectors *)

Inductive selector : Type :=
| CategorySelector
| SemanticSelector
| RandomSelector
| PageRankSelector (prefer_high_pagerank : bool).

Definition same_category (source_page pg : page) : bool :=
  bool_decide (page_category pg = page_category source_page).

(** The two bucket sizes of [SemanticSelector.select_targets]. *)
Definition same_cat_count (n_same : nat) (max_targets : Z) : Z :=
  Z.min (Z.of_nat n_same) (Float64.int_mul_07 max_targets).

Definition other_count (n_same n_other : nat) (max_targets : Z) : Z :=
  Z.min (Z.of_nat n_other) (max_targets - same_cat_count n_same max_targets).

Definition select_targets (sel : selector) (source_page : page)
    (candidate_pages : list page) (max_targets : Z) (g : rng)
  : option (list page * rng) :=
  match sel with
  | CategorySelector =>
      let same_category_pages :=
        filter (fun pg => same_category source_page pg) candidate_pages in
      if Z.of_nat (length same_category_pages) <=? max_targets
      then Some (same_category_pages, g)
      else random_sample same_category_pages max_targets g
  | SemanticSelector =>
      let same_category_pages :=
        filter (fun pg => same_category source_page pg) candidate_pages in
      let other_pages :=
        filter (fun pg => negb (same_category source_page pg)) candidate_pages in
      let n_same := same_cat_count (length same_category_pages) max_targets in
      let n_other := other_count (length same_category_pages)
                       (length other_pages) max_targets in
      match (if 0 <? n_same
             then random_sample same_category_pages n_same g
             else Some ([], g)) with
      | Some (from_same, g') =>
          match (if 0 <? n_other
                 then random_sample other_pages n_other g'
                 else Some ([], g')) with
          | Some (from_other, g'') => Some (from_same ++ from_other, g'')
          | None => None
          end
      | None => None
      end
  | RandomSelector =>
      if Z.of_nat (length candidate_pages) <=? max_targets
      then Some (candidate_pages, g)
      else random_sample candidate_pages max_targets g
  | PageRankSelector prefer_high_pagerank =>
      let sorted_pages :=
        sorted page_current_pagerank prefer_high_pagerank candidate_pages in
      Some (slice_to sorted_pages max_targets, g)
  end.

(** *** [MultiRule] *)

Record rule_config : Type := RuleConfig {
  source_types : list string;
  source_categories : list string;
  target_types : list string;
  target_categories : list string;
  selection_method : string;
  links_per_page : Z;
  bidirectional : bool;
  avoid_self_links : bool
}.

(** [self.selectors] *)
Definition selectors : gmap string selector :=
  list_to_map
    [ ("category", CategorySelector);
      ("semantic", SemanticSelector);
      ("random", RandomSelector);
      ("pagerank_high", PageRankSelector true);
      ("pagerank_low", PageRankSelector false) ].

(** [self.selectors.get(selection_method, self.selectors['category'])] *)
Definition get_selector (selection_method : string) : selector :=
  default CategorySelector (selectors !! selection_method).

(** [str.lower] is Python's own: it lowers every cased letter of
    Unicode, by tables that are no part of the repository.  It is a
    parameter of the model, the method of the class [CaseFolding], so
    that what is proved of the filters holds whatever [str.lower] makes
    of a string. *)
Class CaseFolding := lower : string -> string.

(** [str.lower] on strings of ASCII characters, where it lowers the
    letters A to Z and leaves the rest: the case folding on which the
    examples run. *)
Definition lower_ascii (c : Ascii.ascii) : Ascii.ascii :=
  let n := Ascii.N_of_ascii c in
  if ((65 <=? n) && (n <=? 90))%N then Ascii.ascii_of_N (n + 32) else c.

Fixpoint ascii_lower (s : string) : string :=
  match s with
  | EmptyString => EmptyString
  | String c s' => String (lower_ascii c) (ascii_lower s')
  end.

Definition filter_pages_by_criteria {fold : CaseFolding} (pages : list page)
    (types_filter categories_filter : list string) : list page :=
  let filtered := pages in
  let filtered :=
    match types_filter with
    | [] => filtered
    | _ =>
        let types_filter_lower := map lower types_filter in
        filter (fun pg => lower (page_type pg) ∈ types_filter_lower) filtered
    end in
  match categories_filter with
  | [] => filtered
  | _ =>
      let categories_filter_lower := map lower categories_filter in
      filter (fun pg => lower (page_category pg) ∈ categories_filter_lower)
             filtered
  end.

(** The links appended for the selected targets of one source page. *)
Definition create_links (existing_links_set : gset link) (bidirectional : bool)
    (source_id : Z) (selected_targets : list page) : list link :=
  flat_map
    (fun target_page =>
       let target_id := page_id target_page in
       let lnk := (source_id, target_id) in
       if decide (lnk ∈ existing_links_set) then []
       else
         lnk ::
           (if bidirectional then
              let reverse_link := (target_id, source_id) in
              if decide (reverse_link ∈ existing_links_set) then []
              else [reverse_link]
            else []))
    selected_targets.

Section SingleRule.

Variables (existing_links_set : gset link) (target_pages : list page).
Variables (sel : selector) (links_per_page : Z).
Variables (bidirectional avoid_self_links : bool).

(** [for source_page in source_pages: ...] *)
Fixpoint for_sources (source_pages : list page) (g : rng)
  : option (list link * rng) :=
  match source_pages with
  | [] => Some ([], g)
  | source_page :: rest =>
      let source_id := page_id source_page in
      let available_targets :=
        if avoid_self_links
        then filter (fun pg => page_id pg ≠ source_id) target_pages
        else target_pages in
      match select_targets sel source_page available_targets links_per_page g with
      | Some (selected_targets, g') =>
          match for_sources rest g' with
          | Some (more, g'') =>
              Some (create_links existing_links_set bidirectional source_id
                      selected_targets ++ more, g'')
          | None => None
          end
      | None => None
      end
  end.

End SingleRule.

Definition apply_single_rule {fold : CaseFolding} (pages : list page)
    (existing_links_set : gset link) (cfg : rule_config) (g : rng)
  : option (list link * rng) :=
  let source_pages :=
    filter_pages_by_criteria pages (source_types cfg) (source_categories cfg) in
  let target_pages :=
    filter_pages_by_criteria pages (target_types cfg) (target_categories cfg) in
  let sel := get_selector (selection_method cfg) in
  for_sources existing_links_set target_pages sel (links_per_page cfg)
    (bidirectional cfg) (avoid_self_links cfg) source_pages g.

(** [for link in rule_links: if link not in existing_links_set: ...] *)
Definition add_new_links (acc : list link * gset link) (rule_links : list link)
  : list link * gset link :=
  foldl (fun acc lnk =>
           if decide (lnk ∈ acc.2) then acc
           else (acc.1 ++ [lnk], {[ lnk ]} ∪ acc.2))
        acc rule_links.

Fixpoint for_rules {fold : CaseFolding}
    (pages : list page) (rules_config : list rule_config)
    (acc : list link * gset link) (g : rng) : option (list link * rng) :=
  match rules_config with
  | [] => Some (acc.1, g)
  | cfg :: rest =>
      match apply_single_rule pages acc.2 cfg g with
      | Some (rule_links, g') =>
          for_rules pages rest (add_new_links acc rule_links) g'
      | None => None
      end
  end.

(** [MultiRule(rules_config).generate_links(pages, existing_links)] *)
Definition generate_links {fold : CaseFolding} (rules_config : list rule_config)
    (pages : list page) (existing_links : list link) (g : rng)
  : option (list link * rng) :=
  for_rules pages rules_config ([], list_to_set existing_links) g.

End Rules.

(** ** Single-rule templates, [rules/base.py] and [rules/templates/] *)

Module Templates.

Import QVec.
Local Open Scope Z_scope.

(** The keys of [source_filter] that the menu and footer templates
    read; [None] is an absent key. *)
Record source_filter_dict : Type := SourceFilter {
  sf_action : option string;
  sf_target_urls : option (list string);
  sf_source_types : option (list string)
}.

(** [RuleConfig] of [rules/base.py] (the two weight options of the
    simulator apart). *)
Record rule_config : Type := RuleConfig {
  source_filter : source_filter_dict;
  target_selector : string;
  links_count : Z;
  bidirectional : bool;
  exclude_existing : bool;
  link_position : string
}.

(** [BaseRule.get_link_weight_multiplier] *)
Definition position_weights : gmap string Q :=
  list_to_map
    [ ("header", 1%Q);
      ("content_top", 95 # 100);
      ("content", 8 # 10);
      ("content_bottom", 6 # 10);
      ("sidebar", 4 # 10);
      ("footer", 2 # 10) ].

Definition get_link_weight_multiplier (config : rule_config) : Q :=
  let rule_name := target_selector config in
  if String.eqb rule_name "menu_modification" then
    default 1%Q (position_weights !! "header")
  else if String.eqb rule_name "footer_modification" then
    default (2 # 10) (position_weights !! "footer")
  else default (8 # 10) (position_weights !! link_position config).

(** [needle in hay] on strings. *)
Fixpoint contains (needle hay : string) : bool :=
  String.prefix needle hay
  || match hay with
     | EmptyString => false
     | String _ hay' => contains needle hay'
     end.

(** The pages whose url equals or contains one of the target urls, in
    page order. *)
Definition matches (target_urls : list string) (page_url : string) : bool :=
  existsb (fun target_url =>
             String.eqb target_url page_url || contains target_url page_url)
          target_urls.

Definition find_target_page_ids (target_urls : list string)
    (pages : list page) : list Z :=
  map page_id (filter (fun pg => matches target_urls (page_url pg)) pages).

(** [for page in source_pages: for target_id in target_page_ids: if
    source_id != target_id: new_links.append((source_id, target_id))] *)
Definition link_to_targets (source_pages : list page)
    (target_page_ids : list Z) : list link :=
  flat_map
    (fun pg =>
       let source_id := page_id pg in
       flat_map (fun target_id =>
                   if decide (source_id ≠ target_id)
                   then [(source_id, target_id)] else [])
                target_page_ids)
    source_pages.

(** [MenuModificationRule.generate_links] *)
Definition menu_generate_links (config : rule_config) (pages : list page)
    (existing_links : list link) : list link :=
  let action := default "add" (sf_action (source_filter config)) in
  let target_urls := default [] (sf_target_urls (source_filter config)) in
  match target_urls with
  | [] => []
  | _ =>
      let target_page_ids := find_target_page_ids target_urls pages in
      match target_page_ids with
      | [] => []
      | _ =>
          if String.eqb action "add" then
            link_to_targets pages target_page_ids
          else if String.eqb action "remove" then
            link_to_targets pages target_page_ids
          else []
      end
  end.

(** [FooterModificationRule.generate_links] *)
Definition footer_generate_links {fold : Rules.CaseFolding}
    (config : rule_config) (pages : list page)
    (existing_links : list link) : list link :=
  let action := default "add" (sf_action (source_filter config)) in
  let target_urls := default [] (sf_target_urls (source_filter config)) in
  let source_page_types :=
    default ["product"; "category"] (sf_source_types (source_filter config)) in
  match target_urls with
  | [] => []
  | _ =>
      let target_page_ids := find_target_page_ids target_urls pages in
      match target_page_ids with
      | [] => []
      | _ =>
          let source_page_types_lower := map Rules.lower source_page_types in
          let source_pages :=
            filter (fun pg => Rules.lower (page_type pg)
                              ∈ source_page_types_lower) pages in
          if String.eqb action "add" then
            link_to_targets source_pages target_page_ids
          else if String.eqb action "remove" then
            link_to_targets source_pages target_page_ids
          else []
      end
  end.

(** [is_removal_rule] of both templates *)
Definition is_removal_rule (config : rule_config) : bool :=
  String.eqb (default "add" (sf_action (source_filter config))) "remove".

End Templates.

(** ** Link weights, [services/semantic_service.py] *)

Module Weights.

Import QVec.
Local Open Scope Q_scope.

(** [SemanticService.combine_weights]: the mean of the position weight
    (1.0 when absent) and the semantic score (0.0 when absent), for
    every link that has one of the two. *)
Definition combine_weights (position_weights semantic_weights : gmap link Q)
  : gmap link Q :=
  merge (fun pos sem =>
           match pos, sem with
           | None, None => None
           | _, _ => Some ((default 1 pos + default 0 sem) / 2)
           end)
        position_weights semantic_weights.

End Weights.

(** ** The orchestrator, [core/simulator.py] *)

Module Simulator.

Import QVec.
Local Open Scope Q_scope.

(** [run_simulation], "Handle link removal for menu/footer
    modifications": the pair [(all_links, new_links)]. *)
Definition apply_rule_links (is_removal : bool)
    (existing_links new_links : list link) : list link * list link :=
  if is_removal then
    let links_to_remove : gset link := list_to_set new_links in
    (filter (fun lnk => lnk ∉ links_to_remove) existing_links, [])
  else (existing_links ++ new_links, new_links).

(** [run_simulation], "Create link weights based on position", for a
    rule with a weight multiplier. *)
Definition create_position_weights (position_weight : Q)
    (existing_links new_links : list link) : gmap link Q :=
  let position_weights :=
    foldl (fun m lnk => <[ lnk := position_weight ]> m) ∅ new_links in
  foldl (fun m lnk => <[ lnk := 1 ]> m) position_weights existing_links.

(** [d[k] = v] on a dict given by the list of its items: a known key
    keeps its place. *)
Fixpoint dict_set (d : list (string * Q)) (k : string) (v : Q)
  : list (string * Q) :=
  match d with
  | [] => [(k, v)]
  | (k', v') :: d' =>
      if String.eqb k' k then (k', v) :: d' else (k', v') :: dict_set d' k v
  end.

(** An entry of [page_boosts] and of [protected_pages]: its url and
    its factor, [None] when the key is absent. *)
Record page_boost : Type := PageBoost {
  boost_url : string;
  boost_factor : option Q
}.

Record protected_page : Type := ProtectedPage {
  protect_url : string;
  protection_factor : option Q
}.

(** [run_multi_rule_simulation], "Convert page_boosts to the new
    format". *)
Definition convert_page_boosts (page_boosts : list page_boost)
  : list (string * Q) :=
  foldl (fun boosted_pages boost =>
           dict_set boosted_pages (boost_url boost)
             (default 1 (boost_factor boost)))
        [] page_boosts.

(** [run_multi_rule_simulation], "Convert protected_pages to the format
    expected by AdvancedPageRankCalculator". *)
Definition convert_protected_pages (pages : list page)
    (protected_pages : list protected_page) : list (string * Q) :=
  let url_to_page : gmap string page :=
    foldl (fun m pg => <[ page_url pg := pg ]> m) ∅ pages in
  foldl (fun protected_pages_dict protect =>
           let url := protect_url protect in
           let protection_factor :=
             default (5 # 100) (protection_factor protect) in
           if Qltb protection_factor 0 then
             (* automatic protection: a limit on the relative loss *)
             let loss_limit := Qabs protection_factor in
             match url_to_page !! url with
             | Some pg =>
                 if Qltb 0 (page_current_pagerank pg) then
                   let min_threshold :=
                     page_current_pagerank pg * (1 - loss_limit) in
                   dict_set protected_pages_dict url min_threshold
                 else protected_pages_dict
             | None => protected_pages_dict
             end
           else
             (* manual protection *)
             dict_set protected_pages_dict url protection_factor)
        [] protected_pages.

(** One row of the results: [(page_id, new_pagerank, pagerank_delta)]. *)
Definition prepare_results (pages : list page) (new_pagerank : gmap Z Q)
  : list (Z * Q * Q) :=
  map (fun pg =>
         let page_id := page_id pg in
         let current_pr := page_current_pagerank pg in
         let new_pr := default current_pr (new_pagerank !! page_id) in
         let delta := new_pr - current_pr in
         (page_id, new_pr, delta))
      pages.

(** [max] and [min] of a non-empty list; Python keeps the first of
    equal elements. *)
Definition py_max (x : Q) (l : list Q) : Q :=
  foldl (fun m y => if Qltb m y then y else m) x l.

Definition py_min (x : Q) (l : list Q) : Q :=
  foldl (fun m y => if Qltb y m then y else m) x l.

(** [_create_simulation_summary], the description string apart. *)
Record summary : Type := Summary {
  total_pages : nat;
  new_links_added : nat;
  pages_with_positive_change : nat;
  pages_with_negative_change : nat;
  pages_unchanged : nat;
  average_delta : Q;
  max_positive_delta : Q;
  max_negative_delta : Q;
  total_pagerank_redistribution : Q
}.

Definition create_simulation_summary (pages : list page)
    (results : list (Z * Q * Q)) (new_links : list link) : summary :=
  let deltas := map snd results in
  let positive_changes := filter (fun d => Qltb 0 d) deltas in
  let negative_changes := filter (fun d => Qltb d 0) deltas in
  {| total_pages := length pages;
     new_links_added := length new_links;
     pages_with_positive_change := length positive_changes;
     pages_with_negative_change := length negative_changes;
     pages_unchanged :=
       length deltas - length positive_changes - length negative_changes;
     average_delta :=
       match deltas with
       | [] => 0
       | _ => vsum deltas / Solver.of_nat (length deltas)
       end;
     max_positive_delta :=
       match positive_changes with
       | [] => 0
       | d :: rest => py_max d rest
       end;
     max_negative_delta :=
       match negative_changes with
       | [] => 0
       | d :: rest => py_min d rest
       end;
     total_pagerank_redistribution := vsum (map Qabs deltas) |}.

End Simulator.

(** ** The specification's reading of two operations *)

Module Spec.

Import QVec Solver.
Local Open Scope Q_scope.

(** The clamped vector [clip(p, floor, ceiling)] and the mass deficit
    [1 - sum(p_clamped)] of the projection. *)
Definition clamped (p floors : list Q) (ceilings : list bound) : list Q :=
  np_minimum (np_maximum p floors) ceilings.

Definition mass_deficit (p floors : list Q) (ceilings : list bound) : Q :=
  1 - vsum (clamped p floors ceilings).

(** "If the deficit is positive: distribute across adjustable entries
    proportional to each entry's remaining capacity (ceiling - value),
    or evenly if total capacity < deficit", for finite capacities
    [room]. *)
Definition spec_adjustment_add (room : list Q) (deficit : Q) : list Q :=
  let total_capacity := vsum room in
  if Qltb total_capacity deficit
  then replicate (length room) (deficit / of_nat (length room))
  else map (fun r => r * (deficit / total_capacity)) room.


(** "Split max_targets as 70% same-category / 30% other-category
    (rounded down)". *)
Definition spec_same_count (max_targets : Z) : Z := (7 * max_targets / 10)%Z.
Definition spec_other_count (max_targets : Z) : Z := (3 * max_targets / 10)%Z.

(** "The same configuration with selection_method set to ..." *)
Definition with_selection_method (m : string) (cfg : Rules.rule_config)
  : Rules.rule_config :=
  {| Rules.source_types := Rules.source_types cfg;
     Rules.source_categories := Rules.source_categories cfg;
     Rules.target_types := Rules.target_types cfg;
     Rules.target_categories := Rules.target_categories cfg;
     Rules.selection_method := m;
     Rules.links_per_page := Rules.links_per_page cfg;
     Rules.bidirectional := Rules.bidirectional cfg;
     Rules.avoid_self_links := Rules.avoid_self_links cfg |}.

(** How many of the returned targets share the source's category. *)
Definition count_same (source_page : page) (targets : list page) : Z :=
  Z.of_nat (length (filter (fun pg => Rules.same_category source_page pg) targets)).

Definition count_other (source_page : page) (targets : list page) : Z :=
  Z.of_nat
    (length (filter (fun pg => negb (Rules.same_category source_page pg)) targets)).

(** The relevance-mix split as the specification words it. *)
Definition relevance_mix_contract (source_page : page)
    (candidate_pages : list page) (m : Z) (g : Rules.rng) : Prop :=
  (m <= count_same source_page candidate_pages)%Z ->
  (m <= count_other source_page candidate_pages)%Z ->
  exists targets g',
    Rules.select_targets Rules.SemanticSelector source_page candidate_pages m g
      = Some (targets, g')
    /\ count_same source_page targets = spec_same_count m
    /\ count_other source_page targets = spec_other_count m
    /\ (Z.of_nat (length targets) <= spec_same_count m + spec_other_count m)%Z.

(** The sum of a score dict, [sum(result.values())]. *)
Definition scores_sum (scores : gmap Z Q) : Q :=
  vsum (map_to_list scores).*2.

(** "The column of the column-stochastic matrix corresponding to a
    dangling node assigns probability 1/n to every page." *)
Definition uniform_column (n : nat) : list Q := replicate n (1 / of_nat n).

End Spec.

(** * Facts *)

(** ** Rational vectors *)

Module QVecFacts.

Import QVec.
Local Open Scope Q_scope.

Lemma Qltb_lt a b : Qltb a b = true <-> a < b.
Proof.
  unfold Qltb. rewrite negb_true_iff.
  destruct (Qle_bool b a) eqn:E.
  - apply Qle_bool_iff in E. split; [discriminate | intros H; lra].
  - split; [intros _ | reflexivity].
    apply Qnot_le_lt. intros H. apply Qle_bool_iff in H. congruence.
Qed.

Lemma Qltb_ge a b : Qltb a b = false <-> b <= a.
Proof.
  unfold Qltb. rewrite negb_false_iff. apply Qle_bool_iff.
Qed.

Lemma qmax_spec a b : (a <= b /\ qmax a b = b) \/ (b < a /\ qmax a b = a).
Proof.
  unfold qmax. destruct (Qle_bool a b) eqn:E.
  - left. split; [now apply Qle_bool_iff | reflexivity].
  - right. split; [| reflexivity].
    apply Qnot_le_lt. intros H. apply Qle_bool_iff in H. congruence.
Qed.

Lemma qmin_spec a b : (a <= b /\ qmin a b = a) \/ (b < a /\ qmin a b = b).
Proof.
  unfold qmin. destruct (Qle_bool a b) eqn:E.
  - left. split; [now apply Qle_bool_iff | reflexivity].
  - right. split; [| reflexivity].
    apply Qnot_le_lt. intros H. apply Qle_bool_iff in H. congruence.
Qed.

Lemma Qeq_bool_false a b : Qeq_bool a b = false -> ~ a == b.
Proof. intros H E. apply Qeq_bool_iff in E. congruence. Qed.

Lemma vsum_nil : vsum [] = 0.
Proof. reflexivity. Qed.

Lemma vsum_cons x v : vsum (x :: v) = x + vsum v.
Proof. reflexivity. Qed.

Lemma vsum_app a b : vsum (a ++ b) == vsum a + vsum b.
Proof.
  induction a as [|x a IH]; simpl.
  - rewrite vsum_nil. lra.
  - rewrite !vsum_cons, IH. lra.
Qed.

Lemma vsum_le a b : vle a b -> vsum a <= vsum b.
Proof.
  induction 1 as [|x y a b Hxy _ IH].
  - lra.
  - rewrite !vsum_cons. lra.
Qed.

Lemma vsum_eq a b : veq a b -> vsum a == vsum b.
Proof.
  induction 1 as [|x y a b Hxy _ IH].
  - reflexivity.
  - rewrite !vsum_cons, Hxy, IH. reflexivity.
Qed.

Lemma veq_map (f g : Q -> Q) l :
  (forall x, f x == g x) -> veq (map f l) (map g l).
Proof.
  intros H. induction l as [|x l IH]; simpl; constructor; auto.
Qed.

Lemma vsum_replicate c n : vsum (replicate n c) == c * inject_Z (Z.of_nat n).
Proof.
  induction n as [|n IH].
  - simpl replicate. rewrite vsum_nil. change (inject_Z (Z.of_nat 0)) with 0. ring.
  - change (replicate (S n) c) with (c :: replicate n c).
    rewrite vsum_cons, IH, Nat2Z.inj_succ. unfold Z.succ.
    rewrite inject_Z_plus. change (inject_Z 1) with 1. ring.
Qed.

Lemma vsum_map_mult_r k v : vsum (map (fun x => x * k) v) == vsum v * k.
Proof.
  induction v as [|x v IH]; simpl.
  - rewrite vsum_nil. lra.
  - rewrite !vsum_cons, IH. lra.
Qed.

Lemma vsum_vdiv v s : ~ s == 0 -> vsum (vdiv v s) == vsum v / s.
Proof.
  intros Hs. unfold vdiv. induction v as [|x v IH]; simpl.
  - rewrite vsum_nil. field. exact Hs.
  - rewrite !vsum_cons, IH. field. exact Hs.
Qed.

Lemma vsum_pos_lower v : Forall (fun x => 0 < x) v -> v <> [] -> 0 < vsum v.
Proof.
  induction 1 as [|x v Hx Hv IH]; [congruence|].
  intros _. rewrite vsum_cons. destruct v as [|y v].
  - rewrite vsum_nil. lra.
  - assert (0 < vsum (y :: v)) by (apply IH; discriminate). lra.
Qed.

End QVecFacts.

(** ** The solver *)

Module SolverFacts.

Import QVec QVecFacts Solver Spec.
Local Open Scope Q_scope.

(** *** Masks *)

Lemma count_true_cons_true m : count_true (true :: m) = S (count_true m).
Proof. reflexivity. Qed.

Lemma count_true_cons_false m : count_true (false :: m) = count_true m.
Proof. reflexivity. Qed.

Lemma count_true_nil : count_true [] = 0%nat.
Proof. reflexivity. Qed.

#[global] Opaque count_true.

Lemma select_length_can_adjust p floors ceilings :
  length (select (can_adjust p floors ceilings) p)
  = count_true (can_adjust p floors ceilings)
  /\ length (select (can_adjust p floors ceilings) ceilings)
     = count_true (can_adjust p floors ceilings)
  /\ length (select (can_adjust p floors ceilings) floors)
     = count_true (can_adjust p floors ceilings).
Proof.
  revert floors ceilings.
  induction p as [|x p IH]; intros [|f fl] [|c cl]; simpl;
    try (rewrite count_true_nil; auto).
  destruct (IH fl cl) as (H1 & H2 & H3).
  destruct (Qltb f x && below x c).
  - rewrite count_true_cons_true. simpl. auto.
  - rewrite count_true_cons_false. auto.
Qed.

(** Every adjustable entry has room above it and room below it. *)
Lemma room_above_positive p floors ceilings r :
  all_finite (zip_with room_above
                (select (can_adjust p floors ceilings) ceilings)
                (select (can_adjust p floors ceilings) p)) = Some r ->
  Forall (fun x => 0 < x) r
  /\ length r = count_true (can_adjust p floors ceilings).
Proof.
  revert floors ceilings r.
  induction p as [|x p IH]; intros [|f fl] [|c cl] r; simpl;
    try (intros [= <-]; rewrite ?count_true_nil; auto).
  destruct (Qltb f x && below x c) eqn:E.
  - rewrite count_true_cons_true. apply andb_true_iff in E as [_ Hb].
    simpl. destruct c as [q|]; simpl; [|discriminate].
    destruct (all_finite _) as [r'|] eqn:Er; [|discriminate].
    intros [= <-]. destruct (IH fl cl r' Er) as [Hpos Hlen].
    simpl in Hb. apply Qltb_lt in Hb.
    split; [constructor; [lra | exact Hpos] | simpl; congruence].
  - rewrite count_true_cons_false. apply IH.
Qed.

Lemma room_below_positive p floors ceilings :
  let mask := can_adjust p floors ceilings in
  Forall (fun x => 0 < x) (zip_with Qminus (select mask p) (select mask floors))
  /\ length (zip_with Qminus (select mask p) (select mask floors))
     = count_true mask.
Proof.
  revert floors ceilings.
  induction p as [|x p IH]; intros [|f fl] [|c cl]; simpl;
    rewrite ?count_true_nil; auto.
  destruct (Qltb f x && below x c) eqn:E.
  - rewrite count_true_cons_true. apply andb_true_iff in E as [Hf _].
    apply Qltb_lt in Hf. destruct (IH fl cl) as [Hpos Hlen].
    simpl. split; [constructor; [lra | exact Hpos] | congruence].
  - rewrite count_true_cons_false. apply IH.
Qed.

Lemma of_nat_pos n : (0 < n)%nat -> 0 < of_nat n.
Proof.
  intros H. unfold of_nat. change 0 with (inject_Z 0).
  rewrite <- Zlt_Qlt. lia.
Qed.

Lemma vsum_even_share deficit k :
  (0 < k)%nat -> vsum (replicate k (deficit / of_nat k)) == deficit.
Proof.
  intros Hk. rewrite vsum_replicate. fold (of_nat k).
  pose proof (of_nat_pos k Hk). field. lra.
Qed.

Lemma vsum_proportional r deficit :
  0 < vsum r -> vsum (map (fun x => x * (deficit / vsum r)) r) == deficit.
Proof.
  intros H. rewrite vsum_map_mult_r. field. lra.
Qed.

(** The adjustments of either branch add up to the deficit. *)
Lemma adjustment_add_sum p floors ceilings deficit :
  let mask := can_adjust p floors ceilings in
  (0 < count_true mask)%nat ->
  vsum (adjustment_add p ceilings mask deficit) == deficit
  /\ length (adjustment_add p ceilings mask deficit) = count_true mask.
Proof.
  intros mask Hk. unfold adjustment_add. fold mask.
  destruct (all_finite _) as [r|] eqn:Er.
  - destruct (room_above_positive _ _ _ _ Er) as [Hpos Hlen]. fold mask in Hlen.
    destruct (Qltb (vsum r) deficit).
    + split; [|now rewrite length_map].
      apply vsum_proportional, vsum_pos_lower; [exact Hpos|].
      intros ->. simpl in Hlen. lia.
    + split; [now apply vsum_even_share | now rewrite length_replicate].
  - split; [now apply vsum_even_share | now rewrite length_replicate].
Qed.

Lemma adjustment_remove_sum p floors ceilings deficit :
  let mask := can_adjust p floors ceilings in
  (0 < count_true mask)%nat ->
  vsum (adjustment_remove p floors mask deficit) == deficit
  /\ length (adjustment_remove p floors mask deficit) = count_true mask.
Proof.
  intros mask Hk. unfold adjustment_remove.
  destruct (room_below_positive p floors ceilings) as [Hpos Hlen].
  fold mask in Hpos, Hlen.
  set (room := zip_with Qminus (select mask p) (select mask floors)) in *.
  destruct (Qltb (vsum room) (- deficit)).
  - split; [|now rewrite length_map].
    assert (0 < vsum room) as Hs.
    { apply vsum_pos_lower; [exact Hpos|]. intros E. rewrite E in Hlen.
      simpl in Hlen. lia. }
    transitivity (vsum (map (fun x => x * (- (- deficit / vsum room))) room)).
    + apply vsum_eq, veq_map. intros x. ring.
    + rewrite vsum_map_mult_r. field. lra.
  - split; [now apply vsum_even_share | now rewrite length_replicate].
Qed.

(** *** The exact branch (C5) *)

(** C5: [_calculate_exact] returns what [_calculate_fast] returns on the
    same arguments, and the time threshold that picks the branch in
    [calculate] has no effect on the result. *)
Theorem exact_branch_is_fast_branch :
  (forall pd links baseline_pr damping eta_protect eta_boost tolerance max_iter,
     calculate_exact pd links baseline_pr damping eta_protect eta_boost
       tolerance max_iter
     = calculate_fast pd links baseline_pr damping eta_protect eta_boost
         tolerance max_iter)
  /\ (forall nx_pagerank d0 t0 mi0 threshold threshold' pages links damping
        max_iter tolerance link_weights protected_pages boosted_pages
        eta_protect eta_boost alpha_cap,
        calculate nx_pagerank (Calculator d0 t0 mi0 threshold) pages links
          damping max_iter tolerance link_weights protected_pages
          boosted_pages eta_protect eta_boost alpha_cap
        = calculate nx_pagerank (Calculator d0 t0 mi0 threshold') pages links
            damping max_iter tolerance link_weights protected_pages
            boosted_pages eta_protect eta_boost alpha_cap).
Proof.
  split; [reflexivity|].
  intros. unfold calculate, calculate_baseline_pagerank. simpl.
  destruct (validate_budgets eta_protect eta_boost) as [ep eb].
  destruct (networkx_calculate _ _ _ _ _ _ _) as [baseline_pr|]; [|reflexivity].
  unfold calculate_exact.
  now destruct (use_fast_mode _ _ _), (use_fast_mode _ _ _).
Qed.

(** *** Entries for unknown URLs (C10) *)

Lemma url_to_id_unknown (pages : list page) (url : string) (m : gmap string Z) :
  url ∉ map page_url pages -> m !! url = None ->
  foldl (fun m pg => <[ page_url pg := page_id pg ]> m) m pages !! url = None.
Proof.
  revert m. induction pages as [|pg pages IH]; intros m Hnot Hm; simpl.
  - exact Hm.
  - apply IH.
    + intros H. apply Hnot. simpl. now apply elem_of_cons; right.
    + rewrite lookup_insert_ne; [exact Hm|].
      intros E. apply Hnot. simpl. apply elem_of_cons. now left.
Qed.

(** Every protected or boosted id has its factor, so the lookups
    [page_data['floor_values'][page_id]] of the solver never miss. *)
Lemma prepare_page_data_factors pages protected_pages boosted_pages alpha_cap :
  let pd := prepare_page_data pages protected_pages boosted_pages alpha_cap in
  (forall pid, pid ∈ protected_ids pd -> is_Some (floor_values pd !! pid))
  /\ (forall pid, pid ∈ boosted_ids pd -> is_Some (target_values pd !! pid)).
Proof.
  assert (forall u2i entries (acc : gset Z * gmap Z Q),
             (forall pid, pid ∈ acc.1 -> is_Some (acc.2 !! pid)) ->
             forall pid, pid ∈ (foldl (mark u2i) acc entries).1 ->
                         is_Some ((foldl (mark u2i) acc entries).2 !! pid))
    as Hmark.
  { intros u2i entries. induction entries as [|e entries IH]; intros acc Hacc;
      simpl; [exact Hacc|].
    apply IH. unfold mark. destruct (u2i !! e.1) as [pid'|]; [|exact Hacc].
    simpl. intros pid Hpid. apply lookup_insert_is_Some.
    destruct (decide (pid' = pid)) as [->|Hne]; [now left|].
    right. split; [exact Hne|]. apply Hacc.
    apply elem_of_union in Hpid as [Hpid|Hpid]; [|exact Hpid].
    apply elem_of_singleton in Hpid. congruence. }
  simpl. split; apply Hmark; simpl; intros pid Hpid;
    now apply elem_of_empty in Hpid.
Qed.

Lemma prepare_unknown_url (pages : list page) (url : string) (factor : Q)
    (before after l1 l2 : list (string * Q)) :
  url ∉ map page_url pages ->
  prepare_page_data pages (before ++ (url, factor) :: after) l1 l2
  = prepare_page_data pages (before ++ after) l1 l2
  /\ prepare_page_data pages l1 (before ++ (url, factor) :: after) l2
     = prepare_page_data pages l1 (before ++ after) l2
  /\ prepare_page_data pages l1 l2 (before ++ (url, factor) :: after)
     = prepare_page_data pages l1 l2 (before ++ after).
Proof.
  intros Hnot.
  pose proof (url_to_id_unknown pages url ∅ Hnot (lookup_empty _)) as Hu.
  unfold prepare_page_data.
  set (u2i := foldl (fun m pg => <[ page_url pg := page_id pg ]> m) ∅ pages) in *.
  assert (forall acc, foldl (mark u2i) acc (before ++ (url, factor) :: after)
                      = foldl (mark u2i) acc (before ++ after)) as Hmark.
  { intros acc. rewrite !foldl_app. simpl. unfold mark at 2. simpl.
    now rewrite Hu. }
  assert (forall acc, foldl (mark_cap u2i) acc (before ++ (url, factor) :: after)
                      = foldl (mark_cap u2i) acc (before ++ after)) as Hcap.
  { intros acc. rewrite !foldl_app. simpl. unfold mark_cap at 2. simpl.
    now rewrite Hu. }
  now rewrite !Hmark, !Hcap.
Qed.

(** C10: an entry of the protected, boosted or outflow-cap map whose URL
    is the URL of no page changes nothing: [calculate] has the same
    outcome, error or scores, as without the entry. *)
Theorem unknown_url_entry_ignored nx_pagerank self (pages : list page)
    links damping max_iter tolerance link_weights eta_protect eta_boost
    (url : string) (factor : Q) (before after l1 l2 : list (string * Q)) :
  url ∉ map page_url pages ->
  calculate nx_pagerank self pages links damping max_iter tolerance
    link_weights (before ++ (url, factor) :: after) l1 eta_protect eta_boost l2
  = calculate nx_pagerank self pages links damping max_iter tolerance
      link_weights (before ++ after) l1 eta_protect eta_boost l2
  /\ calculate nx_pagerank self pages links damping max_iter tolerance
       link_weights l1 (before ++ (url, factor) :: after) eta_protect eta_boost l2
     = calculate nx_pagerank self pages links damping max_iter tolerance
         link_weights l1 (before ++ after) eta_protect eta_boost l2
  /\ calculate nx_pagerank self pages links damping max_iter tolerance
       link_weights l1 l2 eta_protect eta_boost (before ++ (url, factor) :: after)
     = calculate nx_pagerank self pages links damping max_iter tolerance
         link_weights l1 l2 eta_protect eta_boost (before ++ after).
Proof.
  intros Hnot.
  destruct (prepare_unknown_url pages url factor before after l1 l2 Hnot)
    as (H1 & H2 & H3).
  unfold calculate. now rewrite H1, H2, H3.
Qed.

Lemma unknown_url_entry_ignored_witness :
  let nx := fun _ _ _ _ _ _ => NxScores {[ 1%Z := 1 # 3; 2%Z := 2 # 3 ]} in
  let self := init (85 # 100) (1 # 100000000) 1000 15 in
  let pages := [Page 1 "/a" "product" "shoes" 0; Page 2 "/b" "product" "hats" 0] in
  exists scores,
    calculate nx self pages [(1, 2)%Z] None (Some 1%Z) None None
      ([("/a", 1 # 2)] ++ ("/gone", 3 # 4) :: []) [] (5 # 100) (3 # 100) []
    = Some scores
    /\ calculate nx self pages [(1, 2)%Z] None (Some 1%Z) None None
         ([("/a", 1 # 2)] ++ []) [] (5 # 100) (3 # 100) []
       = Some scores.
Proof.
  cbv zeta.
  assert ("/gone" ∉ map page_url
            [Page 1 "/a" "product" "shoes" 0; Page 2 "/b" "product" "hats" 0])
    as Hnot.
  { simpl. intros H.
    repeat (apply elem_of_cons in H as [H|H]; [discriminate H|]).
    now apply elem_of_nil in H. }
  rewrite (proj1 (unknown_url_entry_ignored
                    (fun _ _ _ _ _ _ => NxScores {[ 1%Z := 1 # 3; 2%Z := 2 # 3 ]})
                    (init (85 # 100) (1 # 100000000) 1000 15)
                    [Page 1 "/a" "product" "shoes" 0; Page 2 "/b" "product" "hats" 0]
                    [(1, 2)%Z] None (Some 1%Z) None None (5 # 100) (3 # 100)
                    "/gone" (3 # 4) [("/a", 1 # 2)] [] [] [] Hnot)).
  match goal with |- exists s, ?c = Some s /\ _ =>
    let c' := eval vm_compute in c in
    lazymatch c' with Some ?s => exists s end end.
  split; vm_compute; reflexivity.
Defined.

(** *** Dangling nodes in the transition matrix (C4) *)

Lemma foldl_invariant_elem {X Y : Type} (P : X -> Prop) (step : X -> Y -> X)
    (ys : list Y) (x : X) :
  P x -> (forall a y, y ∈ ys -> P a -> P (step a y)) -> P (foldl step x ys).
Proof.
  revert x. induction ys as [|y ys IH]; intros x Hx Hstep; simpl; [exact Hx|].
  apply IH.
  - apply Hstep; [now left | exact Hx].
  - intros a y' Hy'. apply Hstep. now right.
Qed.

(** The row of a page without outgoing link stays zero through the
    adjacency matrix and the outflow caps. *)
Lemma adjacency_dangling_row n id_to_idx links link_weights j :
  (j < n)%nat -> (forall l : link, l ∈ links -> id_to_idx !! l.1 ≠ Some j) ->
  adjacency n id_to_idx links link_weights !! j = Some (replicate n 0).
Proof.
  intros Hj Hout. unfold adjacency.
  apply (foldl_invariant_elem (fun A => A !! j = Some (replicate n 0))).
  - unfold zeros. now apply lookup_replicate_2.
  - intros A l Hl HA. specialize (Hout l Hl).
    destruct (id_to_idx !! l.1) as [from_idx|]; [|exact HA].
    destruct (id_to_idx !! l.2) as [to_idx|]; [|exact HA].
    unfold add_entry. rewrite list_lookup_alter_ne; [exact HA|congruence].
Qed.

Lemma caps_keep_dangling_row n id_to_idx A caps j :
  A !! j = Some (replicate n 0) ->
  foldl (apply_cap id_to_idx) A caps !! j = Some (replicate n 0).
Proof.
  intros HA.
  apply (foldl_invariant_elem (fun A => A !! j = Some (replicate n 0)));
    [exact HA|].
  clear A HA. intros A e _ HA. unfold apply_cap.
  destruct (id_to_idx !! e.1) as [idx|]; [|exact HA].
  destruct (decide (idx = j)) as [->|Hne].
  - rewrite HA. simpl.
    destruct (Qltb 0 (vsum (replicate n 0))) eqn:E; [|exact HA].
    apply Qltb_lt in E. rewrite vsum_replicate in E. lra.
  - destruct (Qltb 0 _); [|exact HA].
    now rewrite list_lookup_insert_ne.
Qed.

Lemma normalize_dangling_column A n j :
  A !! j = Some (replicate n 0) ->
  Forall (fun x => x == 0) (column j (normalize_columns A)).
Proof.
  intros HA. unfold column at 1, normalize_columns.
  rewrite map_map. apply Forall_map, Forall_forall. intros i _. simpl.
  rewrite nth_lookup, lookup_zip_with.
  unfold column. change (map ?f A) with (f <$> A).
  rewrite (list_lookup_fmap (fun row : list Q => nth i row 0) A j), HA. simpl.
  assert (nth i (replicate n 0) 0 = 0) as ->.
  { rewrite nth_lookup. destruct (replicate n 0 !! i) as [x|] eqn:E;
      [|reflexivity].
    apply lookup_replicate in E as [-> _]. reflexivity. }
  destruct (map _ (out_degrees A) !! j) as [d|]; simpl; [ring | reflexivity].
Qed.

(** In the solver's matrix the column of every page without outgoing
    link is zero. *)
Lemma dangling_columns_are_zero pd links link_weights apply_caps j :
  let id_to_idx := index_of_ids (map page_id (pd_pages pd)) in
  (j < length (pd_pages pd))%nat ->
  (forall l : link, l ∈ links -> id_to_idx !! l.1 ≠ Some j) ->
  Forall (fun x => x == 0)
    (column j (build_transition_matrix pd links link_weights apply_caps).1).
Proof.
  intros i2i Hj Hout. unfold build_transition_matrix. simpl.
  pose proof (adjacency_dangling_row _ i2i links link_weights j Hj Hout) as HA.
  apply (normalize_dangling_column _ (length (pd_pages pd))).
  destruct apply_caps; [|exact HA]. now apply caps_keep_dangling_row.
Qed.

(** C4 at two pages with the single link 1 -> 2: page 2 is dangling, and
    its column of the matrix built by [_build_transition_matrix] (and of
    the matrix of the sparse baseline) is zero; it is not the uniform
    column and does not sum to 1. *)
Theorem dangling_column_is_zero :
  let pages := [Page 1 "/a" "" "" 0; Page 2 "/b" "" "" 0] in
  let pd := prepare_page_data pages [] [] [] in
  let M := (build_transition_matrix pd [(1, 2)%Z] None true).1 in
  let M' := normalize_columns
              (adjacency 2 (index_of_ids [1; 2]%Z) [(1, 2)%Z] None) in
  M = [[0; 0]; [1; 0]]
  /\ M' = M
  /\ column 1 M = [0; 0]
  /\ vsum (column 1 M) == 0
  /\ ~ veq (column 1 M) (uniform_column 2).
Proof.
  cbv zeta. repeat split; try (vm_compute; reflexivity).
  vm_compute. intros H. inversion H as [|? ? ? ? Hq _]; subst.
  vm_compute in Hq. discriminate.
Qed.

(** *** The water-filling projection (C2) *)

Lemma normalize_Some a s out :
  normalize a s = Some out ->
  (a = [] /\ out = []) \/ (~ s == 0 /\ out = vdiv a s).
Proof.
  unfold normalize. destruct a as [|x a]; [intros [= <-]; now left|].
  destruct (Qeq_bool s 0) eqn:E; [discriminate|].
  intros [= <-]. right. split; [now apply Qeq_bool_false | reflexivity].
Qed.

Lemma normalize_total a s : ~ s == 0 -> normalize a s = Some (vdiv a s).
Proof.
  intros Hs. unfold normalize. destruct a as [|x a]; [reflexivity|].
  destruct (Qeq_bool s 0) eqn:E; [|reflexivity].
  apply Qeq_bool_iff in E. contradiction.
Qed.

Lemma normalize_sum a out :
  normalize a (vsum a) = Some out -> out <> [] -> vsum out == 1.
Proof.
  intros H Hne. apply normalize_Some in H as [[_ ->]|[Hs ->]]; [congruence|].
  rewrite vsum_vdiv by exact Hs. field. exact Hs.
Qed.

Lemma eps10_small : eps10 < 1 # 1000000000.
Proof. reflexivity. Qed.


Lemma qmax_ge_r a b : b <= qmax a b.
Proof. destruct (qmax_spec a b) as [[? ->]|[? ->]]; lra. Qed.

Lemma qmax_ge_l a b : a <= qmax a b.
Proof. destruct (qmax_spec a b) as [[? ->]|[? ->]]; lra. Qed.

Lemma cap_le x c : le_bound (cap x c) c.
Proof.
  destruct c as [q|]; simpl; [|exact I].
  destruct (qmin_spec x q) as [[? ->]|[? ->]]; lra.
Qed.

Lemma cap_ge f x c : le_bound f c -> f <= x -> f <= cap x c.
Proof.
  destruct c as [q|]; simpl; [|auto].
  intros Hf Hx. destruct (qmin_spec x q) as [[? ->]|[? ->]]; lra.
Qed.

(** Clipping keeps what is within the bounds and never moves a value
    away from them. *)
Lemma clip_within f x c : f <= x -> le_bound x c -> cap (qmax x f) c == x.
Proof.
  intros Hf Hc.
  assert (qmax x f == x) as Hm.
  { destruct (qmax_spec x f) as [[? ->]|[? ->]]; lra. }
  destruct c as [q|]; simpl in *; [|exact Hm].
  destruct (qmin_spec (qmax x f) q) as [[? ->]|[? ->]]; lra.
Qed.

Lemma clip_ge_below x y f c :
  x <= y -> le_bound x c -> x <= cap (qmax y f) c.
Proof.
  intros Hxy Hc. pose proof (qmax_ge_l y f).
  destruct c as [q|]; simpl in *; [|lra].
  destruct (qmin_spec (qmax y f) q) as [[? ->]|[? ->]]; lra.
Qed.

Lemma clamped_within p floors ceilings :
  length p = length floors -> Forall2 le_bound floors ceilings ->
  within floors (clamped p floors ceilings) ceilings.
Proof.
  intros Hlen H. revert p Hlen.
  induction H as [|f c fl cl Hfc _ IH]; intros [|x p] Hlen;
    try discriminate; simpl.
  - constructor.
  - constructor; [|apply IH; simpl in Hlen; congruence].
    split; [apply cap_ge; [exact Hfc | apply qmax_ge_r] | apply cap_le].
Qed.

(** The sum after [a[mask] += adj]. *)
Lemma vsum_add_at mask a adj :
  length mask = length a -> length adj = count_true mask ->
  vsum (add_at mask a adj) == vsum a + vsum adj.
Proof.
  revert a adj. induction mask as [|m mask IH]; intros [|x a] adj Hl Ha;
    try discriminate; simpl.
  - destruct adj; [|discriminate]. rewrite vsum_nil. ring.
  - injection Hl as Hl. destruct m.
    + rewrite count_true_cons_true in Ha. destruct adj as [|d adj];
        [discriminate|]. injection Ha as Ha.
      rewrite !vsum_cons, (IH a adj Hl Ha). ring.
    + rewrite count_true_cons_false in Ha.
      rewrite !vsum_cons, (IH a adj Hl Ha). ring.
Qed.

Lemma add_at_length mask a adj : length (add_at mask a adj) = length a.
Proof.
  revert a adj. induction mask as [|m mask IH]; intros [|x a] adj; simpl;
    try reflexivity.
  destruct m; [destruct adj|]; simpl; now rewrite IH.
Qed.

Lemma can_adjust_length p floors ceilings :
  length floors = length p -> length ceilings = length p ->
  length (can_adjust p floors ceilings) = length p.
Proof.
  revert floors ceilings.
  induction p as [|x p IH]; intros [|f fl] [|c cl] Hf Hc;
    try discriminate; simpl; [reflexivity|].
  f_equal. apply IH; simpl in *; congruence.
Qed.

(** Raising entries and clipping leaves every entry at least where it
    was; lowering entries and clipping leaves it at least where the
    lowering put it. *)
Lemma clip_after_raise floors a ceilings mask adj :
  within floors a ceilings -> Forall (fun d => 0 <= d) adj ->
  vle a (np_clip (add_at mask a adj) floors ceilings).
Proof.
  intros H. revert mask adj.
  induction H as [|f x c fl a cl [Hf Hc] _ IH]; intros mask adj Hadj.
  - destruct mask; constructor.
  - destruct mask as [|m mask]; simpl.
    + constructor; [apply clip_ge_below; [lra | exact Hc]|].
      specialize (IH [] adj Hadj). destruct a; exact IH.
    + destruct m; [destruct adj as [|d adj]|]; simpl.
      * constructor; [apply clip_ge_below; [lra | exact Hc]|].
        apply IH. constructor.
      * inversion Hadj; subst.
        constructor; [apply clip_ge_below; [lra | exact Hc]|].
        now apply IH.
      * constructor; [apply clip_ge_below; [lra | exact Hc]|].
        now apply IH.
Qed.

Lemma clip_after_lower floors a ceilings mask adj :
  within floors a ceilings -> Forall (fun d => d <= 0) adj ->
  vle (add_at mask a adj) (np_clip (add_at mask a adj) floors ceilings).
Proof.
  intros H. revert mask adj.
  induction H as [|f x c fl a cl [Hf Hc] _ IH]; intros mask adj Hadj.
  - destruct mask; constructor.
  - assert (forall y, y <= x -> y <= cap (qmax y f) c) as Hy.
    { intros y Hyx. apply clip_ge_below; [lra|].
      destruct c; simpl in *; [lra | exact I]. }
    destruct mask as [|m mask]; simpl.
    + constructor; [apply Hy; lra|].
      specialize (IH [] adj Hadj). destruct a; exact IH.
    + destruct m; [destruct adj as [|d adj]|]; simpl.
      * constructor; [apply Hy; lra|]. apply IH. constructor.
      * inversion Hadj; subst. constructor; [apply Hy; lra|]. now apply IH.
      * constructor; [apply Hy; lra|]. now apply IH.
Qed.

Lemma clip_of_within floors a ceilings :
  within floors a ceilings -> veq (np_clip a floors ceilings) a.
Proof.
  induction 1 as [|f x c fl a cl [Hf Hc] _ IH]; simpl; constructor.
  - now apply clip_within.
  - exact IH.
Qed.

Lemma Qdiv_nonneg a b : 0 <= a -> 0 < b -> 0 <= a / b.
Proof.
  intros Ha Hb. apply Qle_shift_div_l; [exact Hb|]. lra.
Qed.

Lemma adjustment_add_nonneg p floors ceilings deficit :
  0 < deficit ->
  Forall (fun d => 0 <= d)
    (adjustment_add p ceilings (can_adjust p floors ceilings) deficit).
Proof.
  intros Hd. unfold adjustment_add.
  set (mask := can_adjust p floors ceilings).
  assert (Forall (fun d => 0 <= d)
            (replicate (count_true mask) (deficit / of_nat (count_true mask))))
    as Heven.
  { destruct (count_true mask) as [|k] eqn:Ek; [constructor|].
    apply Forall_replicate, Qdiv_nonneg; [lra | apply of_nat_pos; lia]. }
  destruct (all_finite _) as [r|] eqn:Er; [|exact Heven].
  destruct (Qltb (vsum r) deficit); [|exact Heven].
  destruct (room_above_positive _ _ _ _ Er) as [Hpos _].
  destruct r as [|x r]; [constructor|].
  assert (0 < vsum (x :: r)) as Hs by (apply vsum_pos_lower; [exact Hpos|discriminate]).
  apply Forall_map. eapply Forall_impl; [exact Hpos|].
  intros y Hy. simpl in Hy |- *. apply Qmult_le_0_compat; [lra|].
  apply Qdiv_nonneg; lra.
Qed.

Lemma adjustment_remove_nonpos p floors ceilings deficit :
  deficit <= 0 ->
  Forall (fun d => d <= 0)
    (adjustment_remove p floors (can_adjust p floors ceilings) deficit).
Proof.
  intros Hd. unfold adjustment_remove.
  set (mask := can_adjust p floors ceilings).
  destruct (room_below_positive p floors ceilings) as [Hpos _].
  fold mask in Hpos.
  set (room := zip_with Qminus (select mask p) (select mask floors)) in *.
  destruct (Qltb (vsum room) (- deficit)).
  - destruct room as [|x r]; [constructor|].
    assert (0 < vsum (x :: r)) as Hs
        by (apply vsum_pos_lower; [exact Hpos|discriminate]).
    apply Forall_map. eapply Forall_impl; [exact Hpos|].
    intros y Hy. simpl in Hy |- *.
    assert (0 <= y * (- deficit / vsum (x :: r))) as H0.
    { apply Qmult_le_0_compat; [lra|]. apply Qdiv_nonneg; lra. }
    setoid_replace (- y * (- deficit / vsum (x :: r)))
      with (- (y * (- deficit / vsum (x :: r)))) using relation Qeq by ring.
    revert H0. generalize (y * (- deficit / vsum (x :: r))). intros t Ht. lra.
  - destruct (count_true mask) as [|k] eqn:Ek; [constructor|].
    apply Forall_replicate.
    assert (0 <= (- deficit) / of_nat (S k)) as H0
        by (apply Qdiv_nonneg; [lra | apply of_nat_pos; lia]).
    setoid_replace (deficit / of_nat (S k))
      with (- ((- deficit) / of_nat (S k))) using relation Qeq.
    + revert H0. generalize (- deficit / of_nat (S k)). intros t Ht. lra.
    + field. pose proof (of_nat_pos (S k) ltac:(lia)). lra.
Qed.

Lemma within_veq floors a b ceilings :
  within floors a ceilings -> veq b a -> within floors b ceilings.
Proof.
  intros H. revert b.
  induction H as [|f x c fl a cl [Hf Hc] _ IH]; intros b Hb;
    inversion Hb as [|y ? b' ? Hy Hb']; subst; constructor.
  - split; [lra|]. destruct c; simpl in *; [lra | exact I].
  - now apply IH.
Qed.

Lemma vdiv_by_one a s : s == 1 -> veq (vdiv a s) a.
Proof.
  intros Hs. unfold vdiv. induction a as [|x a IH]; simpl; constructor.
  - rewrite Hs. field.
  - exact IH.
Qed.

Lemma veq_trans a b c : veq a b -> veq b c -> veq a c.
Proof.
  intros H. revert c. induction H as [|x y a b Hxy _ IH]; intros c Hc;
    inversion Hc; subst; constructor.
  - lra.
  - now apply IH.
Qed.

(** The redistributed vector has mass one. *)
Lemma redistribute_sum p floors ceilings :
  let pc := clamped p floors ceilings in
  let mask := can_adjust pc floors ceilings in
  length floors = length p -> Forall2 le_bound floors ceilings ->
  (0 < count_true mask)%nat ->
  vsum (redistribute pc floors ceilings mask (1 - vsum pc)) == 1.
Proof.
  intros pc mask Hlen Hfc Hk.
  pose proof (clamped_within p floors ceilings (eq_sym Hlen) Hfc) as Hw.
  fold pc in Hw.
  assert (length mask = length pc) as Hm.
  { pose proof (Forall3_length_lm _ _ _ _ Hw) as L1.
    pose proof (Forall3_length_lr _ _ _ _ Hw) as L2.
    apply can_adjust_length; congruence. }
  unfold redistribute. destruct (Qltb 0 (1 - vsum pc)).
  - destruct (adjustment_add_sum pc floors ceilings (1 - vsum pc) Hk)
      as [Hs Hl].
    rewrite vsum_add_at by assumption. fold mask in Hs. rewrite Hs. ring.
  - destruct (adjustment_remove_sum pc floors ceilings (1 - vsum pc) Hk)
      as [Hs Hl].
    rewrite vsum_add_at by assumption. fold mask in Hs. rewrite Hs. ring.
Qed.

(** The mass after the final bounds check is positive. *)
Lemma final_sum_positive p floors ceilings :
  let pc := clamped p floors ceilings in
  let mask := can_adjust pc floors ceilings in
  length floors = length p -> Forall2 le_bound floors ceilings ->
  0 < vsum pc -> (0 < count_true mask)%nat ->
  0 < vsum (np_clip (redistribute pc floors ceilings mask (1 - vsum pc))
              floors ceilings).
Proof.
  intros pc mask Hlen Hfc Hpos Hk.
  pose proof (clamped_within p floors ceilings (eq_sym Hlen) Hfc) as Hw.
  fold pc in Hw.
  pose proof (redistribute_sum p floors ceilings Hlen Hfc Hk) as Hone.
  fold pc mask in Hone. revert Hone. unfold redistribute.
  destruct (Qltb 0 (1 - vsum pc)) eqn:Ed; intros Hone.
  - apply Qltb_lt in Ed.
    apply Qlt_le_trans with (vsum pc); [exact Hpos|].
    apply vsum_le, clip_after_raise; [exact Hw|].
    now apply adjustment_add_nonneg.
  - apply Qltb_ge in Ed.
    assert (vsum (add_at mask pc
                    (adjustment_remove pc floors mask (1 - vsum pc)))
            <= vsum (np_clip
                       (add_at mask pc
                          (adjustment_remove pc floors mask (1 - vsum pc)))
                       floors ceilings)) as Hle.
    { apply vsum_le, clip_after_lower; [exact Hw|].
      now apply adjustment_remove_nonpos. }
    revert Hone Hle. generalize (vsum (np_clip
                       (add_at mask pc
                          (adjustment_remove pc floors mask (1 - vsum pc)))
                       floors ceilings)).
    generalize (vsum (add_at mask pc
                    (adjustment_remove pc floors mask (1 - vsum pc)))).
    intros a b Ha Hb. lra.
Qed.

Lemma np_clip_ge_floors a floors ceilings :
  Forall2 le_bound floors ceilings -> length a = length floors ->
  vle floors (np_clip a floors ceilings).
Proof.
  intros H. revert a. induction H as [|f c fl cl Hfc _ IH]; intros [|x a] Hl;
    try discriminate; simpl; constructor.
  - apply cap_ge; [exact Hfc | apply qmax_ge_r].
  - apply IH. simpl in Hl. congruence.
Qed.

Lemma vle_nonneg a b : vle a b -> Forall (fun x => 0 <= x) a ->
  Forall (fun x => 0 <= x) b.
Proof.
  induction 1 as [|x y a b Hxy _ IH]; intros Ha; [constructor|].
  inversion Ha; subst. constructor; [lra | auto].
Qed.

Lemma vdiv_nonneg a s : Forall (fun x => 0 <= x) a -> 0 < s ->
  Forall (fun x => 0 <= x) (vdiv a s).
Proof.
  intros Ha Hs. unfold vdiv. apply Forall_map.
  eapply Forall_impl; [exact Ha|]. intros x Hx. simpl in *.
  now apply Qdiv_nonneg.
Qed.

(** With non-negative floors the projection returns non-negative
    entries. *)
Lemma water_filling_nonneg p floors ceilings out :
  length floors = length p -> Forall2 le_bound floors ceilings ->
  Forall (fun x => 0 <= x) floors ->
  0 < vsum (clamped p floors ceilings) ->
  water_filling_projection p floors (Some ceilings) = Some out ->
  Forall (fun x => 0 <= x) out.
Proof.
  intros Hlen Hfc Hf0 Hpos.
  pose proof (clamped_within p floors ceilings (eq_sym Hlen) Hfc) as Hw.
  assert (Forall (fun x => 0 <= x) (clamped p floors ceilings)) as Hpc.
  { apply (vle_nonneg floors); [|exact Hf0].
    clear -Hw. induction Hw as [|f x c fl a cl [Hf _] _ IH]; constructor; auto. }
  unfold water_filling_projection. simpl default.
  change (np_minimum (np_maximum p floors) ceilings)
    with (clamped p floors ceilings).
  set (pc := clamped p floors ceilings) in *.
  destruct (Qltb _ eps10); [now intros [= <-]|].
  destruct (count_true _ =? 0)%nat eqn:K.
  - intros H. apply normalize_Some in H as [[_ ->]|[_ ->]]; [constructor|].
    now apply vdiv_nonneg.
  - apply Nat.eqb_neq in K.
    pose proof (final_sum_positive p floors ceilings Hlen Hfc Hpos
                  ltac:(fold pc; lia)) as Hfin.
    fold pc in Hfin.
    intros H. apply normalize_Some in H as [[_ ->]|[_ ->]]; [constructor|].
    apply vdiv_nonneg; [|exact Hfin].
    apply (vle_nonneg floors); [|exact Hf0].
    apply np_clip_ge_floors; [exact Hfc|].
    unfold redistribute. destruct (Qltb 0 _); rewrite add_at_length;
      symmetry; exact (Forall3_length_lm _ _ _ _ Hw).
Qed.

Lemma near_one s : s == 1 -> Qabs (s - 1) < 1 # 1000000000.
Proof.
  intros H. apply Qabs_Qlt_condition. rewrite H. split; reflexivity.
Qed.

Lemma vsum_normalized a : ~ vsum a == 0 -> vsum (vdiv a (vsum a)) == 1.
Proof.
  intros H. rewrite vsum_vdiv by exact H. field. exact H.
Qed.

Lemma normalize_length a s out :
  normalize a s = Some out -> length out = length a.
Proof.
  intros H. apply normalize_Some in H as [[-> ->]|[_ ->]]; [reflexivity|].
  unfold vdiv. apply length_map.
Qed.

Lemma np_clip_length a floors ceilings n :
  length a = n -> length floors = n -> length ceilings = n ->
  length (np_clip a floors ceilings) = n.
Proof.
  intros. unfold np_clip, np_minimum, np_maximum.
  rewrite !length_zip_with. lia.
Qed.

Lemma water_filling_length p floors ceilings out n :
  length p = n -> length floors = n -> length ceilings = n ->
  water_filling_projection p floors (Some ceilings) = Some out ->
  length out = n.
Proof.
  intros Hp Hf Hc. unfold water_filling_projection. simpl default.
  set (pc := np_minimum (np_maximum p floors) ceilings).
  assert (length pc = n) as Hpc.
  { unfold pc, np_minimum, np_maximum. rewrite !length_zip_with. lia. }
  destruct (Qltb _ eps10); [now intros [= <-]|].
  destruct (count_true _ =? 0)%nat; intros H; apply normalize_length in H.
  - congruence.
  - rewrite H. apply np_clip_length; [|assumption..].
    unfold redistribute. destruct (Qltb 0 _); now rewrite add_at_length.
Qed.

(** For floors below ceilings and a clamped vector of positive mass the
    projection returns a vector of mass one. *)
Lemma water_filling_returns (p floors : list Q) (ceilings : list bound) :
  length floors = length p -> Forall2 le_bound floors ceilings ->
  0 < vsum (clamped p floors ceilings) ->
  exists out,
    water_filling_projection p floors (Some ceilings) = Some out
    /\ Qabs (vsum out - 1) < 1 # 1000000000.
Proof.
  intros Hlen Hfc Hpos.
  unfold water_filling_projection. simpl default.
  change (np_minimum (np_maximum p floors) ceilings)
    with (clamped p floors ceilings).
  set (pc := clamped p floors ceilings) in *.
  destruct (Qltb (Qabs (1 - vsum pc)) eps10) eqn:E.
  - apply Qltb_lt in E. exists pc. split; [reflexivity|].
    apply Qabs_Qlt_condition in E. apply Qabs_Qlt_condition.
    unfold eps10 in E. lra.
  - destruct (count_true _ =? 0)%nat eqn:K.
    + assert (~ vsum pc == 0) as Hnz by lra.
      rewrite normalize_total by exact Hnz.
      eexists. split; [reflexivity|]. apply near_one, vsum_normalized, Hnz.
    + apply Nat.eqb_neq in K.
      pose proof (final_sum_positive p floors ceilings Hlen Hfc Hpos
                    ltac:(fold pc; lia)) as Hfin.
      fold pc in Hfin.
      match type of Hfin with 0 < vsum ?a =>
        assert (~ vsum a == 0) as Hnz by lra end.
      rewrite normalize_total by exact Hnz.
      eexists. split; [reflexivity|]. apply near_one, vsum_normalized, Hnz.
Qed.




(** With adjustable entries too the result can leave its bounds: at
    p = [0.1, 0.3, 0.6], floors 0, ceilings [1, 0.5, 0.05] the even
    share 0.275 lifts the second entry over its ceiling, the clip cuts
    it back, and the final division by 0.925 gives [15/37, 20/37,
    2/37]. *)
Lemma water_filling_overshoot :
  exists out,
    water_filling_projection [1 # 10; 3 # 10; 6 # 10] [0; 0; 0]
      (Some [Finite 1; Finite (1 # 2); Finite (5 # 100)]) = Some out
    /\ veq out [15 # 37; 20 # 37; 2 # 37]
    /\ ~ within [0; 0; 0] out [Finite 1; Finite (1 # 2); Finite (5 # 100)].
Proof.
  eexists. split; [vm_compute; reflexivity|]. split.
  - repeat constructor.
  - intros H. inversion H as [|? ? ? ? ? ? _ H2]; subst.
    inversion H2 as [|? ? ? ? ? ? [_ Hc] _]; subst.
    simpl in Hc. vm_compute in Hc. now apply Hc.
Qed.

(** *** Distribution of a positive deficit (C3) *)

(** Adding one share [d] to the masked entries keeps the vector within
    its bounds when each masked entry has room for it. *)
Lemma add_share_within floors a ceilings mask d :
  within floors a ceilings -> 0 <= d ->
  Forall2 (fun c x => le_bound (x + d) c) (select mask ceilings) (select mask a) ->
  within floors (add_at mask a (replicate (count_true mask) d)) ceilings.
Proof.
  intros H Hd. revert mask.
  induction H as [|f x c fl a cl [Hf Hc] Hw IH]; intros mask Hfit.
  - destruct mask; constructor.
  - destruct mask as [|m mask]; simpl.
    + constructor; [auto | exact Hw].
    + destruct m.
      * rewrite count_true_cons_true. simpl in Hfit |- *.
        apply Forall2_cons in Hfit as [Hx Hfit].
        constructor; [split; [lra | exact Hx] | now apply IH].
      * rewrite count_true_cons_false. simpl in Hfit.
        constructor; [auto | now apply IH].
Qed.

(** Rooms that each hold one share hold the shares together. *)
Lemma rooms_hold_shares cs xs r d :
  all_finite (zip_with room_above cs xs) = Some r ->
  Forall2 (fun c x => le_bound (x + d) c) cs xs ->
  of_nat (length r) * d <= vsum r.
Proof.
  intros Hr Hfit. revert r Hr.
  induction Hfit as [|c x cs xs Hx _ IH]; intros r Hr; simpl in Hr.
  - injection Hr as <-. rewrite vsum_nil. change (of_nat (length [])) with 0. lra.
  - destruct c as [q|]; simpl in Hr; [|discriminate].
    destruct (all_finite _) as [r'|] eqn:Er; [|discriminate].
    injection Hr as <-. specialize (IH r' eq_refl).
    rewrite vsum_cons. simpl in Hx. simpl length.
    unfold of_nat in *. rewrite Nat2Z.inj_succ, <- Z.add_1_r, inject_Z_plus.
    change (inject_Z 1) with 1. lra.
Qed.

Lemma even_shares_sum deficit k :
  (0 < k)%nat -> of_nat k * (deficit / of_nat k) == deficit.
Proof.
  intros Hk. pose proof (of_nat_pos k Hk). field. lra.
Qed.

(** When every adjustable entry has room for an even share, the even
    branch is the one taken. *)
Lemma adjustment_add_even p floors ceilings deficit :
  let mask := can_adjust p floors ceilings in
  let k := count_true mask in
  (0 < k)%nat ->
  Forall2 (fun c x => le_bound (x + deficit / of_nat k) c)
    (select mask ceilings) (select mask p) ->
  adjustment_add p ceilings mask deficit = replicate k (deficit / of_nat k).
Proof.
  intros mask k Hk Hfit. unfold adjustment_add. fold mask k.
  destruct (all_finite _) as [r|] eqn:Er; [|reflexivity].
  destruct (Qltb (vsum r) deficit) eqn:E; [|reflexivity].
  apply Qltb_lt in E.
  pose proof (rooms_hold_shares _ _ _ _ Er Hfit) as Hr.
  destruct (room_above_positive _ _ _ _ Er) as [_ Hlen].
  fold mask k in Hlen. rewrite Hlen, (even_shares_sum deficit k Hk) in Hr. lra.
Qed.

(** C3, as the code has it: with a deficit of at least 1e-10 and
    adjustable entries, the projection returns the clip of the clamped
    vector plus an adjustment on the adjustable entries, divided by its
    sum.  The adjustment is an even share (deficit / number of
    adjustable entries) for each of them, except that it is in
    proportion to each entry's remaining capacity when the total
    capacity is below the deficit; an infinite ceiling among them gives
    the even shares.  The adjustments add up to the deficit, and when
    every adjustable entry has room for its even share the result is
    the clamped vector with that share added to each of them. *)
Theorem added_mass_by_capacity (p floors : list Q) (ceilings : list bound) :
  let pc := clamped p floors ceilings in
  let deficit := mass_deficit p floors ceilings in
  let mask := can_adjust pc floors ceilings in
  let k := count_true mask in
  let room :=
    zip_with room_above (select mask ceilings) (select mask pc) in
  let even := replicate k (deficit / of_nat k) in
  length floors = length p -> Forall2 le_bound floors ceilings ->
  eps10 <= deficit -> (0 < k)%nat ->
  exists adjustment,
    water_filling_projection p floors (Some ceilings)
    = normalize (np_clip (add_at mask pc adjustment) floors ceilings)
        (vsum (np_clip (add_at mask pc adjustment) floors ceilings))
    /\ length adjustment = k
    /\ vsum adjustment == deficit
    /\ (forall r, all_finite room = Some r -> vsum r < deficit ->
          adjustment = map (fun x => x * (deficit / vsum r)) r)
    /\ (forall r, all_finite room = Some r -> deficit <= vsum r ->
          adjustment = even)
    /\ (all_finite room = None -> adjustment = even)
    /\ (Forall2 (fun c x => le_bound (x + deficit / of_nat k) c)
          (select mask ceilings) (select mask pc) ->
        adjustment = even
        /\ exists out,
             water_filling_projection p floors (Some ceilings) = Some out
             /\ veq out (add_at mask pc even)).
Proof.
  intros pc deficit mask k room even Hlen Hfc Hd Hk.
  assert (0 < deficit) as Hd0 by (unfold eps10 in Hd; lra).
  exists (adjustment_add pc ceilings mask deficit).
  assert (water_filling_projection p floors (Some ceilings)
          = normalize
              (np_clip (add_at mask pc (adjustment_add pc ceilings mask deficit))
                 floors ceilings)
              (vsum (np_clip
                       (add_at mask pc (adjustment_add pc ceilings mask deficit))
                       floors ceilings))) as Hout.
  { unfold water_filling_projection. simpl default.
    change (np_minimum (np_maximum p floors) ceilings) with pc.
    change (1 - vsum pc) with deficit. fold mask. fold k.
    assert (Qltb (Qabs deficit) eps10 = false) as ->.
    { apply Qltb_ge. rewrite Qabs_pos by lra. exact Hd. }
    assert ((k =? 0)%nat = false) as -> by (apply Nat.eqb_neq; lia).
    unfold redistribute.
    assert (Qltb 0 deficit = true) as -> by now apply Qltb_lt.
    reflexivity. }
  destruct (adjustment_add_sum pc floors ceilings deficit Hk) as [Hsum Hl].
  fold mask in Hsum, Hl.
  split; [exact Hout|]. split; [exact Hl|]. split; [exact Hsum|].
  split; [|split; [|split]].
  - intros r Hr Hlt. unfold adjustment_add. fold mask room. rewrite Hr.
    apply Qltb_lt in Hlt. now rewrite Hlt.
  - intros r Hr Hge. unfold adjustment_add. fold mask room k. rewrite Hr.
    apply Qltb_ge in Hge. now rewrite Hge.
  - intros Hr. unfold adjustment_add. fold mask room. now rewrite Hr.
  - intros Hfit.
    pose proof (adjustment_add_even pc floors ceilings deficit Hk Hfit) as He.
    fold mask k even in He. split; [exact He|].
    rewrite Hout, He.
    pose proof (clamped_within p floors ceilings (eq_sym Hlen) Hfc) as Hw.
    fold pc in Hw.
    assert (0 <= deficit / of_nat k) as Hshare
        by (apply Qdiv_nonneg; [lra | now apply of_nat_pos]).
    pose proof (add_share_within floors pc ceilings mask _ Hw Hshare Hfit)
      as Hin.
    fold k even in Hin.
    pose proof (clip_of_within _ _ _ Hin) as Hclip.
    assert (vsum (add_at mask pc even) == 1) as Hone.
    { rewrite vsum_add_at.
      - unfold even. rewrite (vsum_even_share deficit k Hk).
        unfold deficit, mass_deficit. fold pc. ring.
      - pose proof (Forall3_length_lm _ _ _ _ Hw) as L1.
        pose proof (Forall3_length_lr _ _ _ _ Hw) as L2.
        apply can_adjust_length; congruence.
      - unfold even. now rewrite length_replicate. }
    assert (vsum (np_clip (add_at mask pc even) floors ceilings) == 1) as Hs
        by (rewrite (vsum_eq _ _ Hclip); exact Hone).
    rewrite normalize_total by lra.
    eexists. split; [reflexivity|].
    apply veq_trans with (np_clip (add_at mask pc even) floors ceilings);
      [|exact Hclip].
    apply vdiv_by_one, Hs.
Qed.

Lemma added_mass_by_capacity_witness :
  exists out,
    water_filling_projection [1 # 10; 3 # 10] [0; 0]
      (Some [Finite 1; Finite 1]) = Some out
    /\ veq out [(1 # 10) + (3 # 10); (3 # 10) + (3 # 10)].
Proof.
  destruct (added_mass_by_capacity [1 # 10; 3 # 10] [0; 0] [Finite 1; Finite 1])
    as (adj & _ & _ & _ & _ & _ & _ & Heven).
  - reflexivity.
  - repeat constructor; discriminate.
  - vm_compute. discriminate.
  - vm_compute. lia.
  - destruct Heven as (_ & out & Hout & Hveq).
    + vm_compute. repeat constructor; discriminate.
    + exists out. split; [exact Hout|].
      eapply veq_trans; [exact Hveq|].
      vm_compute. repeat constructor.
Defined.

(** The specification's rule gives another result: at p = [0.1, 0.3],
    floors 0, ceilings [1, 1] the deficit 0.6 is below the capacity 1.6;
    the code adds 0.3 to each entry and returns [0.4, 0.6], where the
    specification's reading adds 27/80 and 21/80. *)
Lemma added_mass_not_proportional :
  let p := [1 # 10; 3 # 10] in
  let floors := [0; 0] in
  let ceilings := [Finite 1; Finite 1] in
  let pc := clamped p floors ceilings in
  let mask := can_adjust pc floors ceilings in
  let deficit := mass_deficit p floors ceilings in
  0 < deficit /\ (0 < count_true mask)%nat
  /\ exists room out,
       all_finite (zip_with room_above (select mask ceilings)
                     (select mask pc)) = Some room
       /\ water_filling_projection p floors (Some ceilings) = Some out
       /\ ~ veq (adjustment_add pc ceilings mask deficit)
                (spec_adjustment_add room deficit)
       /\ ~ veq out (add_at mask pc (spec_adjustment_add room deficit)).
Proof.
  cbv zeta. split; [reflexivity|]. split; [vm_compute; lia|].
  eexists _, _. split; [reflexivity|]. split; [vm_compute; reflexivity|].
  split; vm_compute; intros H; inversion H as [|? ? ? ? Hq _]; subst;
    vm_compute in Hq; discriminate.
Qed.

(** *** Lengths of the solver's arrays *)

Lemma foldl_length {X Y : Type} (step : list X -> Y -> list X) ys l :
  (forall l y, length (step l y) = length l) ->
  length (foldl step l ys) = length l.
Proof.
  intros H. revert l. induction ys as [|y ys IH]; intros l; simpl.
  - reflexivity.
  - now rewrite IH, H.
Qed.

Lemma set_floors_length pd id_to_idx baseline_vec :
  length (set_floors pd id_to_idx baseline_vec) = length baseline_vec.
Proof.
  unfold set_floors. rewrite foldl_length; [apply length_replicate|].
  intros l y. destruct (id_to_idx !! y); [apply length_insert | reflexivity].
Qed.

Lemma set_ceilings_length pd id_to_idx baseline_vec :
  length (set_ceilings pd id_to_idx baseline_vec) = length baseline_vec.
Proof.
  unfold set_ceilings. rewrite foldl_length; [apply length_replicate|].
  intros l y. destruct (id_to_idx !! y); [apply length_insert | reflexivity].
Qed.

Lemma distribute_length n needs eta : length (distribute n needs eta).1 = n.
Proof.
  unfold distribute. destruct needs as [|e needs]; simpl;
    [apply length_replicate|].
  destruct (Qltb 0 eta); simpl; [|apply length_replicate].
  set (step := fun (acc : list Q * Q) (e : nat * Q) => _).
  assert (forall l acc, length (foldl step acc l).1 = length acc.1) as H.
  { induction l as [|y l IH]; intros acc; simpl; [reflexivity|].
    rewrite IH. unfold step. simpl. apply length_insert. }
  rewrite (H needs). unfold step. simpl.
  rewrite length_insert. apply length_replicate.
Qed.

Lemma teleportation_length pd p baseline_vec eta_protect eta_boost id_to_idx
    v used_p used_b :
  compute_teleportation_vector pd p baseline_vec eta_protect eta_boost id_to_idx
  = (Some v, used_p, used_b) ->
  length v = length p.
Proof.
  unfold compute_teleportation_vector.
  pose proof (distribute_length (length p)
                (pocket_needs (elements (protected_ids pd)) (floor_values pd)
                   id_to_idx baseline_vec p) eta_protect) as H1.
  pose proof (distribute_length (length p)
                (pocket_needs (elements (boosted_ids pd)) (target_values pd)
                   id_to_idx baseline_vec p) eta_boost) as H2.
  destruct (distribute _ _ eta_protect) as [v_protect up].
  destruct (distribute _ _ eta_boost) as [v_boost ub].
  simpl in H1, H2. intros [= H _ _].
  apply normalize_length in H. rewrite H.
  unfold vadd, vscale. rewrite !length_zip_with, length_map, length_replicate.
  lia.
Qed.

Lemma adjacency_length n id_to_idx links link_weights :
  length (adjacency n id_to_idx links link_weights) = n.
Proof.
  unfold adjacency. rewrite foldl_length.
  - unfold zeros. apply length_replicate.
  - intros A l. destruct (id_to_idx !! l.1), (id_to_idx !! l.2);
      try reflexivity.
    unfold add_entry. apply length_alter.
Qed.

Lemma normalize_columns_length A : length (normalize_columns A) = length A.
Proof.
  unfold normalize_columns. now rewrite length_map, length_seq.
Qed.

Lemma transition_matrix_length pd links link_weights apply_caps :
  length (build_transition_matrix pd links link_weights apply_caps).1
  = length (pd_pages pd).
Proof.
  unfold build_transition_matrix. simpl.
  rewrite normalize_columns_length.
  destruct apply_caps; [|apply adjacency_length].
  rewrite foldl_length; [apply adjacency_length|].
  intros A e. unfold apply_cap. destruct (_ !! e.1); [|reflexivity].
  destruct (Qltb 0 _); [apply length_insert | reflexivity].
Qed.

Section FastLoopFacts.

Variables (pd : page_data) (M : matrix) (id_to_idx : gmap Z nat).
Variables (baseline_vec floors : list Q) (ceilings : list bound).
Variables (damping eta_protect eta_boost tolerance : Q).
Variable n : nat.
Hypothesis n_pos : (0 < n)%nat.
Hypothesis M_length : length M = n.
Hypothesis floors_length : length floors = n.
Hypothesis ceilings_length : length ceilings = n.



End FastLoopFacts.

(** *** Signs of the solver's arrays *)

Lemma vsum_nonneg v : Forall (fun x => 0 <= x) v -> 0 <= vsum v.
Proof.
  induction 1 as [|x v Hx _ IH]; [rewrite vsum_nil; lra|].
  rewrite vsum_cons. lra.
Qed.

Lemma zip_with_Forall {A B C : Type} (f : A -> B -> C) (P : A -> Prop)
    (R : B -> Prop) (S : C -> Prop) (a : list A) (b : list B) :
  (forall x y, P x -> R y -> S (f x y)) ->
  Forall P a -> Forall R b -> Forall S (zip_with f a b).
Proof.
  intros Hf Ha. revert b. induction Ha as [|x a Hx _ IH]; intros b Hb; simpl;
    [constructor|].
  destruct Hb as [|y b Hy Hb]; constructor; auto.
Qed.

Lemma vscale_nonneg k v :
  0 <= k -> Forall (fun x => 0 <= x) v -> Forall (fun x => 0 <= x) (vscale k v).
Proof.
  intros Hk Hv. unfold vscale. apply Forall_map.
  eapply Forall_impl; [exact Hv|]. intros x Hx. simpl in *.
  now apply Qmult_le_0_compat.
Qed.

Lemma vscale_pos k v :
  0 < k -> Forall (fun x => 0 < x) v -> Forall (fun x => 0 < x) (vscale k v).
Proof.
  intros Hk Hv. unfold vscale. apply Forall_map.
  eapply Forall_impl; [exact Hv|]. intros x Hx. simpl in *.
  now apply Qmult_lt_0_compat.
Qed.

Lemma adjacency_nonneg n id_to_idx links :
  Forall (Forall (fun x => 0 <= x)) (adjacency n id_to_idx links None).
Proof.
  unfold adjacency. apply foldl_invariant_elem.
  - unfold zeros. apply Forall_replicate, Forall_replicate. lra.
  - intros A l _ HA. destruct (id_to_idx !! l.1), (id_to_idx !! l.2); auto.
    unfold add_entry. apply Forall_alter; [exact HA|].
    intros row _ Hrow. apply Forall_alter; [exact Hrow|].
    intros x _ Hx. simpl. lra.
Qed.

Lemma apply_cap_nonneg id_to_idx A (entry : Z * Q) :
  0 <= entry.2 <= 1 -> Forall (Forall (fun x => 0 <= x)) A ->
  Forall (Forall (fun x => 0 <= x)) (apply_cap id_to_idx A entry).
Proof.
  intros Hc HA. unfold apply_cap.
  destruct (id_to_idx !! entry.1) as [idx|]; [|exact HA].
  destruct (Qltb 0 _); [|exact HA].
  apply Forall_insert; [exact HA|].
  apply Forall_alter.
  - apply vscale_nonneg; [lra|].
    destruct (A !! idx) as [row|] eqn:Er; simpl; [|constructor].
    exact (Forall_lookup_1 _ _ _ _ HA Er).
  - intros x _ Hx. simpl in *. lra.
Qed.

Lemma out_degrees_positive A :
  Forall (Forall (fun x => 0 <= x)) A -> Forall (fun d => 0 < d) (out_degrees A).
Proof.
  intros HA. unfold out_degrees. rewrite map_map. apply Forall_map.
  eapply Forall_impl; [exact HA|]. intros row Hrow. simpl.
  destruct (Qeq_bool (vsum row) 0) eqn:E; [reflexivity|].
  apply Qeq_bool_false in E. pose proof (vsum_nonneg row Hrow). lra.
Qed.

Lemma normalize_columns_nonneg A :
  Forall (Forall (fun x => 0 <= x)) A ->
  Forall (Forall (fun x => 0 <= x)) (normalize_columns A).
Proof.
  intros HA. unfold normalize_columns. apply Forall_map, Forall_forall.
  intros i _. simpl.
  apply (zip_with_Forall Qmult (fun x => 0 <= x) (fun x => 0 <= x)).
  - intros x y Hx Hy. now apply Qmult_le_0_compat.
  - unfold column. apply Forall_map.
    eapply Forall_impl; [exact HA|]. intros row Hrow. simpl.
    rewrite nth_lookup. destruct (row !! i) as [x|] eqn:Ex; simpl; [|lra].
    exact (Forall_lookup_1 _ _ _ _ Hrow Ex).
  - apply Forall_map.
    eapply Forall_impl; [exact (out_degrees_positive A HA)|].
    intros d Hd. simpl in *. apply Qdiv_nonneg; lra.
Qed.

Lemma transition_matrix_nonneg pd links :
  (forall pid c, outflow_caps pd !! pid = Some c -> 0 <= c <= 1) ->
  Forall (Forall (fun x => 0 <= x))
    (build_transition_matrix pd links None true).1.
Proof.
  intros Hcaps. unfold build_transition_matrix. simpl.
  apply normalize_columns_nonneg, foldl_invariant_elem.
  - apply adjacency_nonneg.
  - intros A [pid c] Hin HA. apply apply_cap_nonneg; [|exact HA].
    apply elem_of_map_to_list in Hin. simpl. eauto.
Qed.

Lemma dot_nonneg M p :
  Forall (Forall (fun x => 0 <= x)) M -> Forall (fun x => 0 <= x) p ->
  Forall (fun x => 0 <= x) (dot M p).
Proof.
  intros HM Hp. unfold dot. apply Forall_map.
  eapply Forall_impl; [exact HM|]. intros row Hrow. simpl.
  apply vsum_nonneg.
  apply (zip_with_Forall Qmult (fun x => 0 <= x) (fun x => 0 <= x));
    [|assumption..].
  intros x y Hx Hy. now apply Qmult_le_0_compat.
Qed.

Lemma pocket_needs_positive ids factors id_to_idx baseline_vec p :
  Forall (fun e : nat * Q => 0 < e.2)
    (pocket_needs ids factors id_to_idx baseline_vec p).
Proof.
  unfold pocket_needs. apply Forall_forall. intros e He.
  apply list_elem_of_omap in He as (pid & _ & He).
  destruct (id_to_idx !! pid) as [idx|]; [|discriminate].
  destruct (Qltb _ _) eqn:E; [|discriminate].
  injection He as <-. simpl. apply Qltb_lt in E. lra.
Qed.

(** A pocket holds non-negative allocations and uses at most its
    budget. *)
Lemma distribute_nonneg n needs eta :
  0 <= eta -> Forall (fun e : nat * Q => 0 < e.2) needs ->
  Forall (fun x => 0 <= x) (distribute n needs eta).1
  /\ 0 <= (distribute n needs eta).2 <= eta.
Proof.
  intros Heta Hneeds. unfold distribute.
  assert (Forall (fun x => 0 <= x) (replicate n 0)) as H0
      by (apply Forall_replicate; lra).
  destruct needs as [|e needs]; [simpl; split; [exact H0 | lra]|].
  destruct (Qltb 0 eta); [|simpl; split; [exact H0 | lra]].
  set (total := vsum (map snd (e :: needs))).
  set (bpu := if Qltb 0 total then eta / total else 0).
  assert (0 <= bpu) as Hbpu.
  { unfold bpu. destruct (Qltb 0 total) eqn:E; [|lra].
    apply Qltb_lt in E. now apply Qdiv_nonneg. }
  apply (foldl_invariant_elem
           (fun acc : list Q * Q =>
              Forall (fun x => 0 <= x) acc.1 /\ 0 <= acc.2 <= eta)).
  - simpl. split; [exact H0 | lra].
  - intros [v used] y Hy [Hv Hu]. simpl in *.
    assert (0 < y.2) as Hy2
        by exact (proj1 (Forall_forall _ _) Hneeds y Hy).
    assert (0 <= y.2 * bpu) as Hprod by (apply Qmult_le_0_compat; lra).
    revert Hprod. generalize (y.2 * bpu). intros t Ht.
    destruct (qmin_spec t (eta - used)) as [[Hle ->]|[Hlt ->]].
    + split; [apply Forall_insert; [exact Hv | exact Ht] | lra].
    + split; [apply Forall_insert; [exact Hv | lra] | lra].
Qed.

Lemma vadd_pos_nonneg a b :
  Forall (fun x => 0 < x) a -> Forall (fun x => 0 <= x) b ->
  Forall (fun x => 0 < x) (vadd a b).
Proof.
  apply (zip_with_Forall Qplus). intros x y Hx Hy. lra.
Qed.

Lemma vadd_nonneg_pos a b :
  Forall (fun x => 0 <= x) a -> Forall (fun x => 0 < x) b ->
  Forall (fun x => 0 < x) (vadd a b).
Proof.
  apply (zip_with_Forall Qplus). intros x y Hx Hy. lra.
Qed.

Lemma vdiv_pos a s : Forall (fun x => 0 < x) a -> 0 < s ->
  Forall (fun x => 0 < x) (vdiv a s).
Proof.
  intros Ha Hs. unfold vdiv. apply Forall_map.
  eapply Forall_impl; [exact Ha|]. intros x Hx. simpl in *.
  apply Qlt_shift_div_l; [exact Hs | lra].
Qed.

(** With budgets that leave room for the uniform part, the
    teleportation vector exists and is positive. *)
Lemma teleportation_positive pd p baseline_vec eta_protect eta_boost id_to_idx :
  p <> [] -> 0 <= eta_protect -> 0 <= eta_boost ->
  eta_protect + eta_boost < 1 ->
  exists v used_p used_b,
    compute_teleportation_vector pd p baseline_vec eta_protect eta_boost
      id_to_idx = (Some v, used_p, used_b)
    /\ Forall (fun x => 0 < x) v.
Proof.
  intros Hp Hep Heb Hsum. unfold compute_teleportation_vector.
  pose proof (distribute_nonneg (length p) _ eta_protect Hep
                (pocket_needs_positive (elements (protected_ids pd))
                   (floor_values pd) id_to_idx baseline_vec p)) as [Hvp Hup].
  pose proof (distribute_nonneg (length p) _ eta_boost Heb
                (pocket_needs_positive (elements (boosted_ids pd))
                   (target_values pd) id_to_idx baseline_vec p)) as [Hvb Hub].
  pose proof (distribute_length (length p)
                (pocket_needs (elements (protected_ids pd)) (floor_values pd)
                   id_to_idx baseline_vec p) eta_protect) as Lp.
  pose proof (distribute_length (length p)
                (pocket_needs (elements (boosted_ids pd)) (target_values pd)
                   id_to_idx baseline_vec p) eta_boost) as Lb.
  destruct (distribute _ _ eta_protect) as [v_protect up].
  destruct (distribute _ _ eta_boost) as [v_boost ub].
  simpl in *.
  set (bw := 1 - eta_protect - eta_boost + (eta_protect - up) + (eta_boost - ub)).
  assert (0 < bw) as Hbw by (unfold bw; lra).
  assert (0 < length p)%nat as Hn by (destruct p; [congruence | simpl; lia]).
  set (v_final := vadd (vadd (vscale bw (replicate (length p)
                                           (1 / of_nat (length p))))
                          v_protect) v_boost).
  assert (Forall (fun x => 0 < x) v_final) as Hpos.
  { unfold v_final. apply vadd_pos_nonneg; [|exact Hvb].
    apply vadd_pos_nonneg; [|exact Hvp].
    apply vscale_pos; [exact Hbw|]. apply Forall_replicate.
    apply Qlt_shift_div_l; [now apply of_nat_pos | lra]. }
  assert (v_final <> []) as Hne.
  { intros E. apply (f_equal length) in E. unfold v_final, vadd, vscale in E.
    rewrite !length_zip_with, length_map, length_replicate in E.
    simpl in E. lia. }
  pose proof (vsum_pos_lower v_final Hpos Hne) as Hs.
  rewrite normalize_total by lra.
  eexists _, _, _. split; [reflexivity|]. now apply vdiv_pos.
Qed.

Lemma clamped_positive p floors ceilings :
  Forall (fun x => 0 < x) p -> Forall positive_bound ceilings ->
  Forall (fun x => 0 < x) (clamped p floors ceilings).
Proof.
  intros Hp Hc. unfold clamped, np_minimum, np_maximum.
  apply (zip_with_Forall cap (fun x => 0 < x) positive_bound);
    [| |exact Hc].
  - intros x c Hx Hpc. destruct c as [q|]; simpl in *; [|exact Hx].
    destruct (qmin_spec x q) as [[_ ->]|[_ ->]]; assumption.
  - clear Hc. revert floors. induction Hp as [|x p Hx _ IH]; intros [|f fl];
      simpl; constructor; auto.
    pose proof (qmax_ge_l x f). lra.
Qed.

Section FastLoopReturns.

Variables (pd : page_data) (M : matrix) (id_to_idx : gmap Z nat).
Variables (baseline_vec floors : list Q) (ceilings : list bound).
Variables (damping eta_protect eta_boost tolerance : Q).
Variable n : nat.
Hypothesis n_pos : (0 < n)%nat.
Hypothesis M_length : length M = n.
Hypothesis floors_length : length floors = n.
Hypothesis M_nonneg : Forall (Forall (fun x => 0 <= x)) M.
Hypothesis floors_nonneg : Forall (fun x => 0 <= x) floors.
Hypothesis floors_below : Forall2 le_bound floors ceilings.
Hypothesis ceilings_positive : Forall positive_bound ceilings.
Hypothesis damping_range : 0 <= damping < 1.
Hypothesis budgets : 0 <= eta_protect /\ 0 <= eta_boost
                     /\ eta_protect + eta_boost < 1.

Lemma fast_step_returns p :
  length p = n -> Forall (fun x => 0 <= x) p ->
  exists out,
    fast_step pd M id_to_idx baseline_vec floors ceilings
      damping eta_protect eta_boost p = Some out
    /\ length out = n /\ Forall (fun x => 0 <= x) out.
Proof using All.
  intros Hp Hp0. destruct budgets as (Hep & Heb & Hsum).
  assert (p <> []) as Hne by (intros ->; simpl in Hp; lia).
  destruct (teleportation_positive pd p baseline_vec eta_protect eta_boost
              id_to_idx Hne Hep Heb Hsum) as (v & up & ub & Ev & Hv).
  unfold fast_step. rewrite Ev.
  pose proof (teleportation_length _ _ _ _ _ _ _ _ _ Ev) as Lv.
  set (p_new := vadd (vscale damping (dot M p)) (vscale (1 - damping) v)).
  assert (Forall (fun x => 0 < x) p_new) as Hnew.
  { apply vadd_nonneg_pos.
    - apply vscale_nonneg; [lra | now apply dot_nonneg].
    - apply vscale_pos; [lra | exact Hv]. }
  assert (length p_new = n) as Lnew.
  { unfold p_new, vadd, vscale, dot. rewrite length_zip_with, !length_map. lia. }
  assert (length floors = length p_new) as Lf by congruence.
  pose proof (clamped_within p_new floors ceilings (eq_sym Lf) floors_below)
    as Hw.
  assert (0 < vsum (clamped p_new floors ceilings)) as Hpos.
  { apply vsum_pos_lower.
    - now apply clamped_positive.
    - intros E. rewrite E in Hw.
      apply Forall3_length_lm in Hw. simpl in Hw. lia. }
  destruct (water_filling_returns p_new floors ceilings Lf
              floors_below Hpos) as (out & Eout & _).
  exists out. split; [exact Eout|]. split.
  - eapply water_filling_length; [exact Lnew | exact floors_length | | exact Eout].
    rewrite <- (Forall2_length _ _ _ floors_below). exact floors_length.
  - eapply water_filling_nonneg; [exact Lf | exact floors_below
                                  | exact floors_nonneg | exact Hpos | exact Eout].
Qed.


End FastLoopReturns.


(** *** The mass of the returned scores (C1) *)

Lemma vsum_Permutation (a b : list Q) : a ≡ₚ b -> vsum a == vsum b.
Proof.
  induction 1 as [|x a b _ IH|x y a|a b c _ IH1 _ IH2].
  - reflexivity.
  - rewrite !vsum_cons, IH. reflexivity.
  - rewrite !vsum_cons. ring.
  - now rewrite IH1.
Qed.



Lemma foldl_insert_lookup (l : list (Z * Q)) (m : gmap Z Q) (k : Z) (v : Q) :
  foldl (fun m e => <[ e.1 := e.2 ]> m) m l !! k = Some v ->
  (k, v) ∈ l \/ m !! k = Some v.
Proof.
  revert m. induction l as [|[k' v'] l IH]; intros m H; simpl in H; [now right|].
  apply IH in H as [H|H]; [left; now right|].
  simpl in H. apply lookup_insert_Some in H as [[<- <-]|[_ H]];
    [left; now left | now right].
Qed.

Lemma foldl_insert_is_Some (l : list (Z * Q)) (m : gmap Z Q) (k : Z) :
  is_Some (foldl (fun m e => <[ e.1 := e.2 ]> m) m l !! k)
  <-> k ∈ l.*1 \/ is_Some (m !! k).
Proof.
  revert m. induction l as [|[k' v'] l IH]; intros m; simpl.
  - split; [now right | intros [H|H]; [now apply elem_of_nil in H | exact H]].
  - rewrite IH, elem_of_cons, lookup_insert_is_Some. simpl.
    destruct (decide (k' = k)) as [->|Hne]; [tauto|].
    split; [intros [H|[H|[_ H]]]; auto; congruence|].
    intros [[H|H]|H]; auto; congruence.
Qed.

Lemma to_dict_keys (keys : list Z) (values : list Q) (k : Z) :
  length values = length keys ->
  is_Some (to_dict keys values !! k) <-> k ∈ keys.
Proof.
  intros Hlen. unfold to_dict. rewrite foldl_insert_is_Some.
  rewrite fst_zip by lia. rewrite lookup_empty.
  split; [intros [H|[? H]]; [exact H | discriminate] | now left].
Qed.

Lemma to_dict_values (keys : list Z) (values : list Q) (k : Z) (v : Q) :
  to_dict keys values !! k = Some v -> v ∈ values.
Proof.
  intros H. unfold to_dict in H. apply foldl_insert_lookup in H as [H|H];
    [|now rewrite lookup_empty in H].
  apply elem_of_zip_r in H. exact H.
Qed.







End SolverFacts.

(** ** Double rounding *)

Module Float64Facts.

Import Float64.
Local Open Scope Z_scope.

(** Rounding to 53 bits moves a value by at most one part in 2^53. *)
Lemma round53_bounds (x : Z) :
  0 <= x ->
  0 <= round53 x /\ 9007199254740992 * round53 x <= 9007199254740993 * x.
Proof.
  intros Hx. unfold round53.
  destruct (Z.log2 x + 1 <=? 53) eqn:Eb; [lia|].
  apply Z.leb_gt in Eb.
  assert (0 < x) as Hpos.
  { destruct (Z.eq_dec x 0) as [->|]; [simpl in Eb; lia | lia]. }
  set (sh := Z.log2 x + 1 - 53) in *.
  assert (1 <= sh) as Hsh by lia.
  rewrite Z.shiftr_div_pow2 by lia.
  set (P := 2 ^ sh). set (h := 2 ^ (sh - 1)).
  assert (P = 2 * h) as HP.
  { unfold P, h. replace sh with (Z.succ (sh - 1)) at 1 by lia.
    apply Z.pow_succ_r. lia. }
  assert (0 < h) as Hh by (apply Z.pow_pos_nonneg; lia).
  pose proof (Z.div_mod x P ltac:(lia)) as Hdm.
  pose proof (Z.mod_pos_bound x P ltac:(lia)) as Hr.
  set (q := x / P) in *. set (r := x mod P) in *.
  assert (4503599627370496 <= q) as Hq.
  { unfold q. apply Z.div_le_lower_bound; [lia|].
    destruct (Z.log2_spec x Hpos) as [Hlo _].
    replace (Z.log2 x) with (sh + 52) in Hlo by lia.
    rewrite Z.pow_add_r in Hlo by lia. fold P in Hlo.
    change (2 ^ 52) with 4503599627370496 in Hlo. lia. }
  assert (forall q', 0 <= q' -> Z.shiftl q' sh = q' * P) as Hshl.
  { intros q' _. apply Z.shiftl_mul_pow2. lia. }
  assert (4503599627370496 * P <= P * q) as HPq by nia.
  destruct (r <? h) eqn:E1; [rewrite Hshl by lia; nia|].
  apply Z.ltb_ge in E1.
  destruct (h <? r) eqn:E2; [rewrite Hshl by lia; nia|].
  destruct (Z.even q); rewrite Hshl by lia; nia.
Qed.

(** [int(m * 0.7)] lies between 0 and [m]. *)
Lemma int_mul_07_bounds (m : Z) : 0 <= m -> 0 <= int_mul_07 m <= m.
Proof.
  intros Hm. unfold int_mul_07.
  destruct (Z.eq_dec m 0) as [->|Hne]; [simpl; lia|].
  rewrite Z.sgn_pos, Z.abs_eq, Z.mul_1_l by lia.
  destruct (round53_bounds m Hm) as [Ha0 Ha].
  set (a := round53 m) in *.
  assert (0 <= a * significand_07) as Hprod by (unfold significand_07; lia).
  destruct (round53_bounds _ Hprod) as [Hb0 Hb].
  set (b := round53 (a * significand_07)) in *.
  rewrite Z.shiftr_div_pow2 by lia.
  change (2 ^ 53) with 9007199254740992.
  unfold significand_07 in Hb.
  split; [apply Z.div_pos; lia|].
  apply Z.div_le_upper_bound; lia.
Qed.

(** Below 90 the double product truncates to the exact floor of 0.7 m;
    at 90 it is one less. *)
Lemma int_mul_07_small (m : Z) : 0 <= m < 90 -> int_mul_07 m = 7 * m / 10.
Proof.
  intros Hm.
  assert (forallb (fun i => int_mul_07 i =? 7 * i / 10) (seqZ 0 90) = true)
    as Hall by (vm_compute; reflexivity).
  rewrite forallb_forall in Hall.
  apply Z.eqb_eq, Hall, list_elem_of_In, elem_of_seqZ. lia.
Qed.

Lemma int_mul_07_at_90 : int_mul_07 90 = 62 /\ 7 * 90 / 10 = 63.
Proof. split; reflexivity. Qed.

End Float64Facts.

(** ** Selection strategies and the rule engine *)

Module RulesFacts.

Import Rules Spec.
Local Open Scope Z_scope.

(** *** Sampling *)

Lemma draw_elem {A : Type} (k : nat) (pool : list A) (g : rng) (x : A) :
  x ∈ (draw k pool g).1 -> x ∈ pool.
Proof.
  revert pool g. induction k as [|k IH]; intros pool g; simpl.
  - intros H. now apply elem_of_nil in H.
  - destruct (next g) as [r g'].
    destruct (pool !! (r mod length pool)%nat) as [y|] eqn:Ey; simpl.
    + destruct (draw k (delete (r mod length pool)%nat pool) g')
        as [rest g''] eqn:Ed.
      simpl. intros H. apply elem_of_cons in H as [->|H].
      * eapply list_elem_of_lookup_2; exact Ey.
      * pose proof (IH (delete (r mod length pool)%nat pool) g') as IH'.
        rewrite Ed in IH'. specialize (IH' H).
        eapply sublist_subseteq; [apply sublist_delete | exact IH'].
    + intros H. now apply elem_of_nil in H.
Qed.

Lemma draw_length {A : Type} (k : nat) (pool : list A) (g : rng) :
  (k <= length pool)%nat -> length (draw k pool g).1 = k.
Proof.
  revert pool g. induction k as [|k IH]; intros pool g Hk; simpl.
  - reflexivity.
  - destruct (next g) as [r g'].
    assert (r mod length pool < length pool)%nat as Hj
        by (apply Nat.mod_upper_bound; lia).
    destruct (lookup_lt_is_Some_2 pool _ Hj) as [y Ey]. rewrite Ey.
    pose proof (IH (delete (r mod length pool)%nat pool) g') as IH'.
    destruct (draw k (delete (r mod length pool)%nat pool) g')
      as [rest g''].
    simpl in *. rewrite IH'; [reflexivity|].
    rewrite length_delete by (exists y; exact Ey). lia.
Qed.

Lemma random_sample_Some {A : Type} (population : list A) (k : Z) (g : rng) :
  0 <= k <= Z.of_nat (length population) ->
  random_sample population k g = Some (draw (Z.to_nat k) population g).
Proof.
  intros Hk. unfold random_sample.
  destruct (k <? 0) eqn:E1; [lia|].
  destruct (Z.of_nat (length population) <? k) eqn:E2; [lia|]. reflexivity.
Qed.

Lemma random_sample_elem {A : Type} (population : list A) (k : Z) (g g' : rng)
    (l : list A) (x : A) :
  random_sample population k g = Some (l, g') -> x ∈ l -> x ∈ population.
Proof.
  unfold random_sample. destruct (_ || _); [discriminate|].
  intros [= E] Hx. apply (draw_elem (Z.to_nat k) population g).
  now rewrite E.
Qed.

Lemma random_sample_length {A : Type} (population : list A) (k : Z)
    (g g' : rng) (l : list A) :
  random_sample population k g = Some (l, g') -> Z.of_nat (length l) = k.
Proof.
  unfold random_sample.
  destruct (k <? 0) eqn:E1; [discriminate|].
  destruct (Z.of_nat (length population) <? k) eqn:E2; [discriminate|].
  simpl. intros [= E].
  pose proof (draw_length (Z.to_nat k) population g ltac:(lia)) as H.
  rewrite E in H. simpl in H. lia.
Qed.

(** *** Sorting and slicing *)

Lemma insert_sorted_perm {A : Type} (before : A -> A -> bool) x l :
  insert_sorted before x l ≡ₚ x :: l.
Proof.
  induction l as [|y l IH]; simpl; [reflexivity|].
  destruct (before x y); [reflexivity|].
  rewrite IH. apply Permutation_swap.
Qed.

Lemma sorted_perm {A : Type} (key : A -> Q) reverse l :
  sorted key reverse l ≡ₚ l.
Proof.
  unfold sorted. induction l as [|x l IH]; simpl; [reflexivity|].
  now rewrite insert_sorted_perm, IH.
Qed.

Lemma slice_to_elem {A : Type} (l : list A) (k : Z) (x : A) :
  x ∈ slice_to l k -> x ∈ l.
Proof.
  unfold slice_to. destruct (0 <=? k); intros H;
    (eapply sublist_subseteq; [apply sublist_take | exact H]).
Qed.

(** *** Selectors *)

(** Every selector returns pages of its candidate list. *)
Lemma select_targets_elem sel source_page candidates m g targets g' t :
  select_targets sel source_page candidates m g = Some (targets, g') ->
  t ∈ targets -> t ∈ candidates.
Proof.
  destruct sel as [| | |high]; simpl.
  - destruct (_ <=? m).
    + intros [= <- _] H. now apply list_elem_of_filter in H as [_ H].
    + intros E H. eapply random_sample_elem in E; [|exact H].
      now apply list_elem_of_filter in E as [_ E].
  - set (same := filter _ candidates). set (other := filter _ candidates).
    destruct (if 0 <? same_cat_count _ m then _ else _) as [[fs g1]|] eqn:E1;
      [|discriminate].
    destruct (if 0 <? other_count _ _ m then _ else _) as [[fo g2]|] eqn:E2;
      [|discriminate].
    intros [= <- _] H. apply elem_of_app in H as [H|H].
    + destruct (0 <? same_cat_count _ m).
      * eapply random_sample_elem in E1; [|exact H].
        now apply list_elem_of_filter in E1 as [_ E1].
      * injection E1 as <- _. now apply elem_of_nil in H.
    + destruct (0 <? other_count _ _ m).
      * eapply random_sample_elem in E2; [|exact H].
        now apply list_elem_of_filter in E2 as [_ E2].
      * injection E2 as <- _. now apply elem_of_nil in H.
  - destruct (_ <=? m).
    + now intros [= <- _] H.
    + intros E H. eapply random_sample_elem in E; [exact E | exact H].
  - intros [= <- _] H. apply slice_to_elem in H.
    now rewrite sorted_perm in H.
Qed.

(** With a non-negative [max_targets] no selector raises. *)
Lemma select_targets_total sel source_page candidates m g :
  0 <= m -> is_Some (select_targets sel source_page candidates m g).
Proof.
  intros Hm. destruct sel as [| | |high]; simpl.
  - destruct (_ <=? m) eqn:E; [eauto|].
    rewrite random_sample_Some by lia. eauto.
  - set (same := filter _ candidates). set (other := filter _ candidates).
    assert (exists r, (if 0 <? same_cat_count (length same) m
                       then random_sample same (same_cat_count (length same) m) g
                       else Some ([], g)) = Some r) as [[fs g1] ->].
    { destruct (0 <? _) eqn:E; [|eauto].
      rewrite random_sample_Some; [eauto|]. unfold same_cat_count in *. lia. }
    assert (exists r, (if 0 <? other_count (length same) (length other) m
                       then random_sample other
                              (other_count (length same) (length other) m) g1
                       else Some ([], g1)) = Some r) as [[fo g2] ->].
    { destruct (0 <? _) eqn:E; [|eauto].
      rewrite random_sample_Some; [eauto|]. unfold other_count in *. lia. }
    eauto.
  - destruct (_ <=? m) eqn:E; [eauto|].
    rewrite random_sample_Some by lia. eauto.
  - eauto.
Qed.

(** *** One rule *)

Lemma create_links_elem existing bidir source_id targets (l : link) :
  l ∈ create_links existing bidir source_id targets ->
  exists t, t ∈ targets
            /\ (l = (source_id, page_id t) \/ l = (page_id t, source_id)).
Proof.
  unfold create_links. rewrite list_elem_of_In, in_flat_map.
  intros (t & Ht & Hl). exists t. split; [now apply list_elem_of_In|].
  destruct (decide _); [destruct Hl|].
  destruct Hl as [<-|Hl]; [now left|].
  destruct bidir; [|destruct Hl].
  destruct (decide _); [destruct Hl|].
  destruct Hl as [<-|[]]. now right.
Qed.

Section SingleRuleFacts.

Variables (existing : gset link) (target_pages : list page).
Variables (sel : selector) (per_page : Z) (bidir : bool).

Lemma for_sources_no_self_link source_pages g links g' :
  for_sources existing target_pages sel per_page bidir true source_pages g
  = Some (links, g') ->
  forall x, (x, x) ∉ links.
Proof.
  revert g links g'. induction source_pages as [|src rest IH];
    intros g links g'; simpl.
  - intros [= <- _] x H. now apply elem_of_nil in H.
  - destruct (select_targets _ _ _ _ _) as [[selected g1]|] eqn:Es;
      [|discriminate].
    destruct (for_sources _ _ _ _ _ _ rest g1) as [[more g2]|] eqn:Er;
      [|discriminate].
    intros [= <- _] x H. apply elem_of_app in H as [H|H].
    + apply create_links_elem in H as (t & Ht & Hl).
      eapply select_targets_elem in Es; [|exact Ht].
      apply list_elem_of_filter in Es as [Hne _].
      destruct Hl as [[= -> E]|[= E ->]]; now apply Hne.
    + exact (IH _ _ _ Er x H).
Qed.

Lemma for_sources_total avoid source_pages g :
  0 <= per_page ->
  is_Some (for_sources existing target_pages sel per_page bidir avoid
             source_pages g).
Proof.
  intros Hm. revert g. induction source_pages as [|src rest IH]; intros g;
    simpl; [eauto|].
  destruct (select_targets_total sel src
              (if avoid then filter (fun pg => page_id pg ≠ page_id src)
                                    target_pages
               else target_pages) per_page g Hm) as [[selected g1] ->].
  destruct (IH g1) as [[more g2] ->]. eauto.
Qed.

End SingleRuleFacts.

(** *** The cumulative loop *)

Lemma add_new_links_inv (acc : list link * gset link) (rule_links : list link) :
  NoDup acc.1 -> (forall l, l ∈ acc.1 -> l ∈ acc.2) ->
  NoDup (add_new_links acc rule_links).1
  /\ (forall l, l ∈ (add_new_links acc rule_links).1 ->
                l ∈ (add_new_links acc rule_links).2)
  /\ acc.2 ⊆ (add_new_links acc rule_links).2
  /\ (forall l, l ∈ (add_new_links acc rule_links).1 ->
                l ∈ acc.1 \/ (l ∈ rule_links /\ l ∉ acc.2)).
Proof.
  unfold add_new_links. revert acc.
  induction rule_links as [|lnk rl IH]; intros acc Hnd Hin; simpl.
  - repeat split; auto.
  - destruct (decide (lnk ∈ acc.2)) as [Hl|Hl].
    + destruct (IH acc Hnd Hin) as (H1 & H2 & H3 & H4).
      repeat split; auto.
      intros l Hlin. destruct (H4 l Hlin) as [?|[? ?]]; [now left|].
      right. split; [now right | assumption].
    + destruct (IH (acc.1 ++ [lnk], {[ lnk ]} ∪ acc.2)) as (H1 & H2 & H3 & H4).
      * simpl. apply NoDup_app. repeat split; [exact Hnd| |apply NoDup_singleton].
        intros x Hx Hx'. apply list_elem_of_singleton in Hx'. subst x.
        apply Hl, Hin, Hx.
      * simpl. intros l Hlin. apply elem_of_app in Hlin as [Hlin|Hlin].
        -- apply elem_of_union_r, Hin, Hlin.
        -- apply list_elem_of_singleton in Hlin. subst l.
           apply elem_of_union_l, elem_of_singleton. reflexivity.
      * simpl in *. repeat split; auto.
        -- intros x Hx. apply H3. now apply elem_of_union_r.
        -- intros l Hlin. destruct (H4 l Hlin) as [Ha|[Ha Hb]].
           ++ apply elem_of_app in Ha as [Ha|Ha]; [now left|].
              apply list_elem_of_singleton in Ha. subst l.
              right. split; [now left | exact Hl].
           ++ right. split; [now right|].
              intros Hc. apply Hb. now apply elem_of_union_r.
Qed.

Lemma for_rules_inv {fold : CaseFolding}
    (pages : list page) (rules : list rule_config)
    (acc : list link * gset link) (g : rng) (links : list link) (g' : rng) :
  NoDup acc.1 -> (forall l, l ∈ acc.1 -> l ∈ acc.2) ->
  for_rules pages rules acc g = Some (links, g') ->
  NoDup links /\ (forall l, l ∈ links -> l ∈ acc.1 \/ l ∉ acc.2).
Proof.
  revert acc g. induction rules as [|cfg rest IH]; intros acc g Hnd Hin; simpl.
  - intros [= <- _]. split; [exact Hnd | now left].
  - destruct (apply_single_rule pages acc.2 cfg g) as [[rl g1]|];
      [|discriminate].
    destruct (add_new_links_inv acc rl Hnd Hin) as (H1 & H2 & H3 & H4).
    intros E. destruct (IH _ _ H1 H2 E) as [Hnd' Hor].
    split; [exact Hnd'|].
    intros l Hl. destruct (Hor l Hl) as [Ha|Ha].
    + destruct (H4 l Ha) as [?|[_ ?]]; [now left | now right].
    + right. intros Hc. apply Ha, H3, Hc.
Qed.

Lemma for_rules_origin {fold : CaseFolding}
    (P : link -> Prop) (pages : list page)
    (rules : list rule_config) (acc : list link * gset link) (g : rng)
    (links : list link) (g' : rng) :
  Forall (fun cfg => forall set g rl g1,
              apply_single_rule pages set cfg g = Some (rl, g1) ->
              forall l, l ∈ rl -> P l) rules ->
  (forall l, l ∈ acc.1 -> P l) ->
  for_rules pages rules acc g = Some (links, g') ->
  forall l, l ∈ links -> P l.
Proof.
  intros Hrules. revert acc g.
  induction Hrules as [|cfg rest Hcfg _ IH]; intros acc g Hacc; simpl.
  - now intros [= <- _].
  - destruct (apply_single_rule pages acc.2 cfg g) as [[rl g1]|] eqn:Ea;
      [|discriminate].
    apply IH. intros l Hl.
    assert (forall a, (forall l, l ∈ a.1 -> P l) ->
                      forall l, l ∈ (add_new_links a rl).1 -> P l) as Hadd.
    { unfold add_new_links. generalize (Hcfg _ _ _ _ Ea). clear.
      induction rl as [|x rl IHrl]; intros Hrl a Ha; simpl; [exact Ha|].
      destruct (decide _).
      - apply IHrl; [|exact Ha]. intros l Hl. apply Hrl. now right.
      - apply IHrl; [intros l Hl; apply Hrl; now right|].
        simpl. intros l Hl. apply elem_of_app in Hl as [Hl|Hl]; [now apply Ha|].
        apply list_elem_of_singleton in Hl. subst l. apply Hrl. now left. }
    exact (Hadd acc Hacc l Hl).
Qed.

Lemma for_rules_total {fold : CaseFolding}
    (pages : list page) (rules : list rule_config)
    (acc : list link * gset link) (g : rng) :
  Forall (fun cfg => 0 <= links_per_page cfg) rules ->
  is_Some (for_rules pages rules acc g).
Proof.
  intros H. revert acc g. induction H as [|cfg rest Hcfg _ IH]; intros acc g;
    simpl; [eauto|].
  destruct (for_sources_total acc.2
              (filter_pages_by_criteria pages (target_types cfg)
                 (target_categories cfg))
              (get_selector (selection_method cfg)) (links_per_page cfg)
              (bidirectional cfg) (avoid_self_links cfg)
              (filter_pages_by_criteria pages (source_types cfg)
                 (source_categories cfg)) g Hcfg) as [[rl g1] E].
  unfold apply_single_rule. rewrite E. apply IH.
Qed.

Lemma for_rules_congruence {fold : CaseFolding}
    (pages : list page) (cfg cfg' : rule_config)
    (before after : list rule_config) (acc : list link * gset link) (g : rng) :
  (forall set g, apply_single_rule pages set cfg g
                 = apply_single_rule pages set cfg' g) ->
  for_rules pages (before ++ cfg :: after) acc g
  = for_rules pages (before ++ cfg' :: after) acc g.
Proof.
  intros H. revert acc g. induction before as [|c before IH]; intros acc g;
    simpl.
  - now rewrite H.
  - destruct (apply_single_rule pages acc.2 c g) as [[rl g1]|]; auto.
Qed.

(** *** No duplicate and no existing link (C6) *)

(** C6: the list returned by [generate_links] has no duplicate and
    contains no link of [existing_links], whatever the rules and the
    random draws; with non-negative [links_per_page] a list is
    returned. *)
Theorem generated_links_are_new {fold : CaseFolding}
    (rules_config : list rule_config)
    (pages : list page) (existing_links : list link) (g : rng) :
  (Forall (fun cfg => 0 <= links_per_page cfg) rules_config ->
   is_Some (generate_links rules_config pages existing_links g))
  /\ (forall links g',
        generate_links rules_config pages existing_links g = Some (links, g') ->
        NoDup links /\ (forall l, l ∈ links -> l ∉ existing_links)).
Proof.
  unfold generate_links. split.
  - apply for_rules_total.
  - intros links g' E.
    apply for_rules_inv in E as [Hnd Hor]; simpl.
    + split; [exact Hnd|]. intros l Hl Hex.
      destruct (Hor l Hl) as [H|H]; simpl in H.
      * now apply elem_of_nil in H.
      * apply H. now apply elem_of_list_to_set.
    + apply NoDup_nil_2.
    + intros l H. now apply elem_of_nil in H.
Qed.

Lemma generated_links_are_new_witness :
  let pg i c := Page i "" "product" c 0%Q in
  let pages := [pg 1 "a"; pg 2 "a"; pg 3 "a"; pg 4 "b"; pg 5 "b"] in
  let cfg m := RuleConfig ["product"] [] [] [] m 2 true true in
  exists links g',
    generate_links (fold := ascii_lower)
        [cfg "category"; cfg "random"] pages [(1, 2)] [3; 1; 4]%nat
    = Some (links, g')
    /\ NoDup links /\ (forall l, l ∈ links -> l ∉ [(1, 2)]).
Proof.
  cbv zeta.
  destruct (generated_links_are_new (fold := ascii_lower)
              [RuleConfig ["product"] [] [] [] "category" 2 true true;
               RuleConfig ["product"] [] [] [] "random" 2 true true]
              [Page 1 "" "product" "a" 0%Q; Page 2 "" "product" "a" 0%Q;
               Page 3 "" "product" "a" 0%Q; Page 4 "" "product" "b" 0%Q;
               Page 5 "" "product" "b" 0%Q]
              [(1, 2)] [3; 1; 4]%nat) as [Htotal Hnew].
  destruct Htotal as [[links g'] E].
  - repeat (apply Forall_cons_2; [simpl; lia|]). apply Forall_nil_2.
  - exists links, g'. split; [exact E|]. exact (Hnew links g' E).
Defined.

(** *** Unknown selection methods (C8) *)

Lemma selectors_keys (m : string) :
  is_Some (selectors !! m)
  <-> m ∈ ["category"; "semantic"; "random"; "pagerank_high"; "pagerank_low"]%string.
Proof.
  unfold selectors. simpl.
  rewrite !lookup_insert_is_Some, lookup_empty, is_Some_alt.
  rewrite !elem_of_cons, elem_of_nil. intuition congruence.
Qed.

(** C8: a rule whose [selection_method] is not a key of the selector
    table is applied as the same rule with the method ["category"]:
    same links, same error if any, alone or inside a list of rules; and
    with a non-negative [links_per_page] it raises no error. *)
Theorem unknown_selection_method_falls_back {fold : CaseFolding}
    (cfg : rule_config) :
  selectors !! selection_method cfg = None ->
  (forall pages set g,
      apply_single_rule pages set cfg g
      = apply_single_rule pages set (with_selection_method "category" cfg) g)
  /\ (forall before after pages existing_links g,
        generate_links (before ++ cfg :: after) pages existing_links g
        = generate_links (before ++ with_selection_method "category" cfg :: after)
            pages existing_links g)
  /\ (0 <= links_per_page cfg ->
      forall pages set g, is_Some (apply_single_rule pages set cfg g)).
Proof.
  intros Hnone.
  assert (forall pages set g,
             apply_single_rule pages set cfg g
             = apply_single_rule pages set
                 (with_selection_method "category" cfg) g) as Hsame.
  { intros. unfold apply_single_rule, get_selector. simpl.
    now rewrite Hnone. }
  split; [exact Hsame|]. split.
  - intros. unfold generate_links. now apply for_rules_congruence.
  - intros Hm pages set g. unfold apply_single_rule.
    now apply for_sources_total.
Qed.

Lemma unknown_selection_method_falls_back_witness :
  let pg i c := Page i "" "product" c 0%Q in
  let pages := [pg 1 "a"; pg 2 "a"; pg 3 "b"] in
  let cfg := RuleConfig [] [] [] [] "tf-idf" 1 false true in
  apply_single_rule (fold := ascii_lower) pages ∅ cfg [2; 5]%nat
  = apply_single_rule (fold := ascii_lower)
      pages ∅ (with_selection_method "category" cfg) [2; 5]%nat
  /\ is_Some (apply_single_rule (fold := ascii_lower) pages ∅ cfg [2; 5]%nat).
Proof.
  cbv zeta.
  destruct (unknown_selection_method_falls_back (fold := ascii_lower)
              (RuleConfig [] [] [] [] "tf-idf" 1 false true))
    as (Hsame & _ & Htotal).
  - reflexivity.
  - split; [apply Hsame | apply Htotal; simpl; lia].
Defined.

(** *** Self-links (C9) *)

(** C9: with [avoid_self_links] set, a rule emits no link from a page to
    itself, in either direction of a bidirectional rule; and a rule list
    in which every rule has the flag set generates none. *)
Theorem no_self_links {fold : CaseFolding} :
  (forall pages set cfg g links g',
      avoid_self_links cfg = true ->
      apply_single_rule pages set cfg g = Some (links, g') ->
      forall x, (x, x) ∉ links)
  /\ (forall rules_config pages existing_links g links g',
        Forall (fun cfg => avoid_self_links cfg = true) rules_config ->
        generate_links rules_config pages existing_links g = Some (links, g') ->
        forall x, (x, x) ∉ links).
Proof.
  assert (forall pages set cfg g links g',
             avoid_self_links cfg = true ->
             apply_single_rule pages set cfg g = Some (links, g') ->
             forall x, (x, x) ∉ links) as Hone.
  { intros pages set cfg g links g' Hav. unfold apply_single_rule.
    rewrite Hav. apply for_sources_no_self_link. }
  split; [exact Hone|].
  intros rules_config pages existing_links g links g' Hall E x Hx.
  unfold generate_links in E.
  refine (for_rules_origin (fun l => l.1 ≠ l.2) pages rules_config _ g links g'
            _ _ E (x, x) Hx eq_refl).
  - eapply Forall_impl; [exact Hall|].
    intros cfg Hav set g0 rl g1 Ea [a b] Hl. simpl. intros ->.
    exact (Hone _ _ _ _ _ _ Hav Ea b Hl).
  - simpl. intros l H. now apply elem_of_nil in H.
Qed.

Lemma no_self_links_witness :
  let pg i c := Page i "" "product" c 0%Q in
  let pages := [pg 1 "a"; pg 2 "a"; pg 3 "a"] in
  let cfg := RuleConfig [] [] [] [] "random" 3 true true in
  exists links g',
    apply_single_rule (fold := ascii_lower) pages ∅ cfg [] = Some (links, g')
    /\ forall x, (x, x) ∉ links.
Proof.
  cbv zeta.
  destruct (apply_single_rule (fold := ascii_lower)
              [Page 1 "" "product" "a" 0%Q; Page 2 "" "product" "a" 0%Q;
               Page 3 "" "product" "a" 0%Q] ∅
              (RuleConfig [] [] [] [] "random" 3 true true) [])
    as [[links g']|] eqn:E; [|vm_compute in E; discriminate E].
  exists links, g'. split; [reflexivity|].
  exact (proj1 (no_self_links (fold := ascii_lower)) _ _
           (RuleConfig [] [] [] [] "random" 3 true true) _ _ _ eq_refl E).
Defined.

(** *** The relevance-mix split (C7) *)

Lemma filter_length_all {A : Type} (P : A -> Prop) `{Hdec : !forall x, Decision (P x)}
    (l : list A) :
  Forall P l -> length (filter P l) = length l.
Proof.
  induction 1 as [|x l Hx _ IH]; [reflexivity|].
  rewrite filter_cons_True by exact Hx. simpl. now rewrite IH.
Qed.

Lemma filter_length_none {A : Type} (P : A -> Prop) `{Hdec : !forall x, Decision (P x)}
    (l : list A) :
  Forall (fun x => ~ P x) l -> length (filter P l) = 0%nat.
Proof.
  induction 1 as [|x l Hx _ IH]; [reflexivity|].
  now rewrite filter_cons_False by exact Hx.
Qed.

(** What is drawn from a bucket stays in the bucket and has the
    requested size. *)
Lemma bucket_draw (P : page -> Prop) `{Hdec : !forall x, Decision (P x)}
    (candidates : list page) (k : Z) (g : rng) :
  0 <= k <= Z.of_nat (length (filter P candidates)) ->
  exists l g',
    (if 0 <? k then random_sample (filter P candidates) k g else Some ([], g))
    = Some (l, g')
    /\ Z.of_nat (length l) = k /\ Forall P l.
Proof.
  intros Hk. destruct (0 <? k) eqn:E.
  - rewrite random_sample_Some by lia.
    destruct (draw (Z.to_nat k) (filter P candidates) g) as [l g'] eqn:Ed.
    exists l, g'. split; [reflexivity|]. split.
    + pose proof (draw_length (Z.to_nat k) (filter P candidates) g ltac:(lia))
        as H. rewrite Ed in H. simpl in H. lia.
    + apply Forall_forall. intros x Hx.
      pose proof (draw_elem (Z.to_nat k) (filter P candidates) g x) as H.
      rewrite Ed in H. specialize (H Hx).
      now apply list_elem_of_filter in H as [H _].
  - apply Z.ltb_ge in E. exists [], g. split; [reflexivity|].
    split; [simpl; lia | constructor].
Qed.

(** C7, as the code has it: when each bucket holds at least
    [max_targets = m] candidates, the selector draws [int(m * 0.7)]
    pages from the same-category bucket and the remaining
    [m - int(m * 0.7)] pages from the other bucket, [m] pages in all. *)
Theorem relevance_mix_split (source_page : page) (candidate_pages : list page)
    (m : Z) (g : rng) :
  0 <= m ->
  m <= count_same source_page candidate_pages ->
  m <= count_other source_page candidate_pages ->
  exists targets g',
    select_targets SemanticSelector source_page candidate_pages m g
    = Some (targets, g')
    /\ count_same source_page targets = Float64.int_mul_07 m
    /\ count_other source_page targets = m - Float64.int_mul_07 m
    /\ Z.of_nat (length targets) = m.
Proof.
  unfold count_same, count_other. intros Hm Hsame Hother. simpl.
  set (same := filter (fun pg => same_category source_page pg) candidate_pages)
    in *.
  set (other := filter (fun pg => negb (same_category source_page pg))
                  candidate_pages) in *.
  pose proof (Float64Facts.int_mul_07_bounds m Hm) as Hb.
  assert (same_cat_count (length same) m = Float64.int_mul_07 m) as ->
      by (unfold same_cat_count; lia).
  assert (other_count (length same) (length other) m
          = m - Float64.int_mul_07 m) as ->.
  { unfold other_count, same_cat_count. lia. }
  assert (0 <= Float64.int_mul_07 m <= Z.of_nat (length same)) as Hk1 by lia.
  assert (0 <= m - Float64.int_mul_07 m <= Z.of_nat (length other)) as Hk2
      by lia.
  subst same other.
  destruct (bucket_draw (fun pg => same_category source_page pg)
              candidate_pages (Float64.int_mul_07 m) g Hk1)
    as (fs & g1 & -> & Hlen1 & Hall1).
  destruct (bucket_draw (fun pg => negb (same_category source_page pg))
              candidate_pages (m - Float64.int_mul_07 m) g1 Hk2)
    as (fo & g2 & -> & Hlen2 & Hall2).
  exists (fs ++ fo), g2. split; [reflexivity|].
  rewrite !filter_app, !length_app.
  rewrite (filter_length_all _ fs Hall1), (filter_length_all _ fo Hall2).
  rewrite (filter_length_none (fun pg => same_category source_page pg) fo),
          (filter_length_none (fun pg => negb (same_category source_page pg)) fs).
  - lia.
  - eapply Forall_impl; [exact Hall1|]. intros x Hx. simpl in *.
    destruct (same_category source_page x); simpl in *; tauto.
  - eapply Forall_impl; [exact Hall2|]. intros x Hx. simpl in *.
    destruct (same_category source_page x); simpl in *; tauto.
Qed.

Lemma relevance_mix_split_witness :
  let pg i c := Page i "" "product" c 0%Q in
  let candidates :=
    [pg 2 "a"; pg 3 "a"; pg 4 "a"; pg 5 "b"; pg 6 "b"; pg 7 "b"] in
  exists targets g',
    select_targets SemanticSelector (pg 1 "a") candidates 3 [4; 0; 7]%nat
    = Some (targets, g')
    /\ count_same (pg 1 "a") targets = 2
    /\ count_other (pg 1 "a") targets = 1
    /\ Z.of_nat (length targets) = 3.
Proof.
  cbv zeta.
  refine (relevance_mix_split (Page 1 "" "product" "a" 0%Q) _ 3 _ _ _ _).
  - lia.
  - vm_compute. discriminate.
  - vm_compute. discriminate.
Defined.

(** The specification's 70/30 split fails at [m = 3] with three
    candidates in each bucket: two pages come from the same category
    and one, not [floor(0.9) = 0], from the other, three pages in all. *)
Lemma relevance_mix_contract_fails :
  let pg i c := Page i "" "product" c 0%Q in
  ~ relevance_mix_contract (pg 1 "a")
      [pg 2 "a"; pg 3 "a"; pg 4 "a"; pg 5 "b"; pg 6 "b"; pg 7 "b"] 3 [].
Proof.
  cbv zeta. intros H. destruct H as (targets & g' & E & _ & Hother & _).
  - vm_compute. discriminate.
  - vm_compute. discriminate.
  - vm_compute in E. injection E as <- _.
    vm_compute in Hother. discriminate Hother.
Qed.

End RulesFacts.

(** ** Index maps and stray links *)

Module SolverShapeFacts.
Import QVec QVecFacts Solver Spec SolverFacts.
Local Open Scope Q_scope.

Lemma index_of_ids_snoc (ids : list Z) (x : Z) :
  index_of_ids (ids ++ [x]) = <[ x := length ids ]> (index_of_ids ids).
Proof.
  unfold index_of_ids. rewrite imap_app, foldl_app. simpl.
  rewrite Nat.add_0_r. reflexivity.
Qed.

Lemma index_of_ids_None (ids : list Z) (pid : Z) :
  index_of_ids ids !! pid = None <-> pid ∉ ids.
Proof.
  induction ids as [|x ids IH] using rev_ind.
  - split; [intros _; apply not_elem_of_nil | reflexivity].
  - rewrite index_of_ids_snoc, not_elem_of_app, <- IH.
    destruct (decide (x = pid)) as [->|Hne].
    + rewrite lookup_insert_eq. split; [discriminate|].
      intros [_ H]. exfalso. apply H. now left.
    + rewrite lookup_insert_ne by exact Hne. split.
      * intros H. split; [exact H|]. intros Hin.
        apply list_elem_of_singleton in Hin. congruence.
      * tauto.
Qed.

Lemma index_of_ids_Some (ids : list Z) (pid : Z) (i : nat) :
  index_of_ids ids !! pid = Some i
  <-> ids !! i = Some pid /\ forall k, (i < k)%nat -> ids !! k <> Some pid.
Proof.
  revert i. induction ids as [|x ids IH] using rev_ind; intros i.
  - split; [discriminate | intros [H _]; discriminate].
  - rewrite index_of_ids_snoc.
    destruct (decide (x = pid)) as [->|Hne].
    + rewrite lookup_insert_eq. split.
      * intros [= <-]. split.
        { rewrite lookup_app_r by lia. now rewrite Nat.sub_diag. }
        intros k Hk. rewrite lookup_ge_None_2; [discriminate|].
        rewrite length_app. simpl. lia.
      * intros [Hi Hlast]. f_equal.
        pose proof (lookup_lt_Some _ _ _ Hi) as Hlt.
        rewrite length_app in Hlt. simpl in Hlt.
        destruct (decide (i = length ids)) as [|Hd]; [congruence|].
        exfalso. apply (Hlast (length ids)); [lia|].
        rewrite lookup_app_r by lia. now rewrite Nat.sub_diag.
    + rewrite lookup_insert_ne by exact Hne. rewrite IH. split.
      * intros [Hi Hlast]. split.
        { rewrite lookup_app_l; [exact Hi|]. eapply lookup_lt_Some, Hi. }
        intros k Hk. destruct (decide (k < length ids)%nat) as [Hlt|Hge].
        { rewrite lookup_app_l by exact Hlt. now apply Hlast. }
        rewrite lookup_app_r by lia.
        destruct (k - length ids)%nat as [|k']; simpl; [intros [= ?]; congruence|].
        rewrite lookup_nil. discriminate.
      * intros [Hi Hlast].
        assert (i < length ids)%nat as Hlt.
        { pose proof (lookup_lt_Some _ _ _ Hi) as Hl.
          rewrite length_app in Hl. simpl in Hl.
          destruct (decide (i = length ids)) as [->|]; [|lia].
          rewrite lookup_app_r in Hi by lia.
          rewrite Nat.sub_diag in Hi. simpl in Hi. congruence. }
        rewrite lookup_app_l in Hi by exact Hlt. split; [exact Hi|].
        intros k Hk Hkk. apply (Hlast k Hk).
        rewrite lookup_app_l; [exact Hkk|]. eapply lookup_lt_Some, Hkk.
Qed.

Lemma index_of_ids_bound (ids : list Z) (pid : Z) (i : nat) :
  index_of_ids ids !! pid = Some i -> (i < length ids)%nat.
Proof. intros H. apply index_of_ids_Some in H as [H _]. eapply lookup_lt_Some, H. Qed.


(** X1: the id-to-index map that [_build_transition_matrix] returns sends an
    id to the last position that holds it in the page list. *)
Theorem id_to_idx_last_position pd links link_weights apply_caps pid i :
  (build_transition_matrix pd links link_weights apply_caps).2 !! pid = Some i
  <-> map page_id (pd_pages pd) !! i = Some pid
      /\ forall k, (i < k)%nat -> map page_id (pd_pages pd) !! k <> Some pid.
Proof. unfold build_transition_matrix. simpl. apply index_of_ids_Some. Qed.

Lemma adjacency_skip n (idx : gmap Z nat) (before after : list link) (l : link) lw :
  idx !! l.1 = None \/ idx !! l.2 = None ->
  adjacency n idx (before ++ l :: after) lw = adjacency n idx (before ++ after) lw.
Proof.
  intros H. unfold adjacency. rewrite !foldl_app. simpl.
  destruct H as [-> | H]; [reflexivity|].
  rewrite H. destruct (idx !! l.1); reflexivity.
Qed.

(** X2: a link with an endpoint that is the id of no page changes neither
    the transition matrix nor the result of the constrained solver. *)
Theorem stray_link_ignored pd (l : link) (before after : list link) :
  l.1 ∉ map page_id (pd_pages pd) \/ l.2 ∉ map page_id (pd_pages pd) ->
  (forall link_weights apply_caps,
      build_transition_matrix pd (before ++ l :: after) link_weights apply_caps
      = build_transition_matrix pd (before ++ after) link_weights apply_caps)
  /\ (forall baseline_pr damping eta_protect eta_boost tolerance max_iter,
        calculate_fast pd (before ++ l :: after) baseline_pr damping
          eta_protect eta_boost tolerance max_iter
        = calculate_fast pd (before ++ after) baseline_pr damping
            eta_protect eta_boost tolerance max_iter).
Proof.
  intros H.
  assert (forall link_weights apply_caps,
      build_transition_matrix pd (before ++ l :: after) link_weights apply_caps
      = build_transition_matrix pd (before ++ after) link_weights apply_caps)
    as Hm.
  { intros lw caps. unfold build_transition_matrix.
    rewrite adjacency_skip; [reflexivity|].
    destruct H as [H|H]; [left|right]; now apply index_of_ids_None. }
  split; [exact Hm|]. intros. unfold calculate_fast. now rewrite Hm.
Qed.

Lemma stray_link_ignored_witness :
  let pages := [Page 1 "/a" "" "" 0; Page 2 "/b" "" "" 0] in
  let pd := prepare_page_data pages [] [] [] in
  calculate_fast pd ([(1, 2)%Z] ++ (2, 7)%Z :: []) ∅ (85 # 100) (5 # 100)
    (3 # 100) (1 # 100000000) 1
  = calculate_fast pd ([(1, 2)%Z] ++ []) ∅ (85 # 100) (5 # 100)
      (3 # 100) (1 # 100000000) 1.
Proof.
  intros pages pd.
  apply (stray_link_ignored pd (2, 7)%Z [(1, 2)%Z] []).
  right. simpl. intros H. 
  repeat (apply elem_of_cons in H as [H|H]; [discriminate|]).
  now apply elem_of_nil in H.
Defined.

End SolverShapeFacts.

(** ** Columns of the transition matrix *)

Module TransitionFacts.
Import QVec QVecFacts Solver Spec SolverFacts SolverShapeFacts.
Local Open Scope Q_scope.

Lemma vsum_alter_add (w : Q) (c : nat) (row : list Q) :
  (c < length row)%nat ->
  vsum (alter (fun x => x + w) c row) == vsum row + w.
Proof.
  revert c. induction row as [|x row IH]; intros c Hc; simpl in Hc; [lia|].
  destruct c as [|c]; simpl.
  - rewrite !vsum_cons. ring.
  - rewrite !vsum_cons. rewrite (IH c) by lia. ring.
Qed.

Lemma alter_out_of_range {A : Type} (f : A -> A) (i : nat) (l : list A) :
  (length l <= i)%nat -> alter f i l = l.
Proof.
  revert i. induction l as [|x l IH]; intros i Hi; [reflexivity|].
  destruct i as [|i]; simpl in *; [lia|]. f_equal. apply IH. lia.
Qed.

Lemma add_entry_rows n A r c w :
  Forall (fun row : list Q => length row = n) A ->
  Forall (fun row : list Q => length row = n) (add_entry A r c w).
Proof.
  intros HA. unfold add_entry. apply Forall_alter; [exact HA|].
  intros row _ Hrow. now rewrite length_alter.
Qed.

Lemma adjacency_rows n id_to_idx links link_weights :
  Forall (fun row : list Q => length row = n)
    (adjacency n id_to_idx links link_weights).
Proof.
  unfold adjacency. apply foldl_invariant_elem.
  - unfold zeros. apply Forall_replicate, length_replicate.
  - intros A l _ HA. destruct (id_to_idx !! l.1), (id_to_idx !! l.2); auto.
    now apply add_entry_rows.
Qed.

Lemma adjacency_app n id_to_idx l1 l2 lw :
  adjacency n id_to_idx (l1 ++ l2) lw
  = foldl (fun A l =>
           match id_to_idx !! l.1, id_to_idx !! l.2 with
           | Some from_idx, Some to_idx =>
               add_entry A from_idx to_idx (weight_of lw l)
           | _, _ => A
           end) (adjacency n id_to_idx l1 lw) l2.
Proof. unfold adjacency. apply foldl_app. Qed.

Lemma adjacency_linked_row n (id_to_idx : gmap Z nat) (links : list link)
    (l : link) (j t : nat) :
  l ∈ links -> id_to_idx !! l.1 = Some j -> id_to_idx !! l.2 = Some t ->
  (j < n)%nat -> (t < n)%nat ->
  let A := adjacency n id_to_idx links None in
  Forall (fun row => length row = n) A
  /\ exists row, A !! j = Some row /\ 0 < vsum row.
Proof.
  intros Hl Hj Ht Hjn Htn A. split; [apply adjacency_rows|]. subst A.
  apply list_elem_of_split in Hl as (before & after & ->).
  rewrite adjacency_app. simpl. rewrite Hj, Ht.
  pose proof (adjacency_rows n id_to_idx before None) as Hrows.
  pose proof (adjacency_nonneg n id_to_idx before) as Hnn.
  pose proof (adjacency_length n id_to_idx before None) as Hlen.
  set (A0 := adjacency n id_to_idx before None) in *.
  destruct (lookup_lt_is_Some_2 A0 j) as [row0 Hrow0]; [lia|].
  apply (foldl_invariant_elem
           (fun A => Forall (Forall (fun x => 0 <= x)) A
                     /\ Forall (fun row => length row = n) A
                     /\ exists row, A !! j = Some row /\ 0 < vsum row)).
  - pose proof (Forall_lookup_1 _ _ _ _ Hrows Hrow0) as Hl0. simpl in Hl0.
    pose proof (Forall_lookup_1 _ _ _ _ Hnn Hrow0) as Hn0. simpl in Hn0.
    split; [|split].
    + unfold add_entry. apply Forall_alter; [exact Hnn|].
      intros row _ Hrow. apply Forall_alter; [exact Hrow|].
      intros x _ Hx. simpl in *. lra.
    + now apply add_entry_rows.
    + exists (alter (fun x => x + 1) t row0). split.
      * unfold add_entry. rewrite list_lookup_alter_eq, Hrow0. reflexivity.
      * rewrite vsum_alter_add by lia.
        pose proof (vsum_nonneg row0 Hn0). lra.
  - intros A l' _ (Hn & Hr & row & Hrow & Hpos).
    destruct (id_to_idx !! l'.1) as [r|]; [|now repeat split; eauto].
    destruct (id_to_idx !! l'.2) as [c|]; [|now repeat split; eauto].
    split; [|split].
    + unfold add_entry. apply Forall_alter; [exact Hn|].
      intros row' _ Hrow'. apply Forall_alter; [exact Hrow'|].
      intros x _ Hx. simpl in *. lra.
    + now apply add_entry_rows.
    + destruct (decide (r = j)) as [->|Hne].
      * exists (alter (fun x => x + 1) c row). split.
        { unfold add_entry. rewrite list_lookup_alter_eq, Hrow. reflexivity. }
        pose proof (Forall_lookup_1 _ _ _ _ Hn Hrow) as Hnr. simpl in Hnr.
        destruct (decide (c < length row)%nat) as [Hc|Hc].
        { rewrite vsum_alter_add by exact Hc. lra. }
        rewrite alter_out_of_range by lia. exact Hpos.
      * exists row. split; [|exact Hpos].
        unfold add_entry. now rewrite list_lookup_alter_ne.
Qed.


Lemma caps_keep_linked_row n (id_to_idx : gmap Z nat) (A : matrix)
    (caps : list (Z * Q)) (j : nat) :
  (forall pid i, id_to_idx !! pid = Some i -> (i < n)%nat) ->
  Forall (fun e : Z * Q => 0 <= e.2 <= 1) caps ->
  Forall (fun row => length row = n) A ->
  (exists row, A !! j = Some row /\ 0 < vsum row) ->
  let A' := foldl (apply_cap id_to_idx) A caps in
  Forall (fun row => length row = n) A'
  /\ exists row, A' !! j = Some row /\ 0 < vsum row.
Proof.
  intros Hidx Hcaps Hrows Hj A'. subst A'.
  apply (foldl_invariant_elem
           (fun A => Forall (fun row => length row = n) A
                     /\ exists row, A !! j = Some row /\ 0 < vsum row));
    [now split|].
  clear A Hrows Hj. intros A e He (Hrows & row & Hrow & Hpos).
  pose proof (proj1 (Forall_forall _ _) Hcaps e He) as Hc. simpl in Hc.
  unfold apply_cap.
  destruct (id_to_idx !! e.1) as [idx|] eqn:Ei; [|now split; eauto].
  specialize (Hidx _ _ Ei).
  destruct (A !! idx) as [r|] eqn:Er; simpl;
    [|change (Qltb 0 (vsum [])) with false; now split; eauto].
  pose proof (Forall_lookup_1 _ _ _ _ Hrows Er) as Hlr. simpl in Hlr.
  destruct (Qltb 0 (vsum r)) eqn:E; [|now split; eauto].
  apply Qltb_lt in E.
  assert (length (alter (fun x => x + (1 - e.2)) idx (vscale e.2 r)) = n)
    as Hlen.
  { rewrite length_alter. unfold vscale. now rewrite length_map. }
  split.
  - apply Forall_insert; [exact Hrows | exact Hlen].
  - destruct (decide (idx = j)) as [->|Hne].
    + eexists. split.
      { apply list_lookup_insert_eq. eapply lookup_lt_Some, Er. }
      rewrite vsum_alter_add
        by (unfold vscale; rewrite length_map; lia).
      assert (vsum (vscale e.2 r) == e.2 * vsum r) as ->.
      { unfold vscale. clear. induction r as [|x r IH]; simpl.
        - rewrite vsum_nil. ring.
        - rewrite !vsum_cons, IH. ring. }
      assert (0 <= e.2 * vsum r) by (apply Qmult_le_0_compat; lra).
      destruct (Qeq_dec e.2 0) as [Hz|Hz].
      * rewrite Hz. lra.
      * assert (0 < e.2 * vsum r) by (apply Qmult_lt_0_compat; lra). lra.
    + exists row. split; [|exact Hpos]. now rewrite list_lookup_insert_ne.
Qed.

Lemma column_sum_normalized (A : matrix) (n j : nat) (row : list Q) :
  length A = n -> Forall (fun row => length row = n) A ->
  A !! j = Some row -> ~ vsum row == 0 ->
  vsum (column j (normalize_columns A)) == 1.
Proof.
  intros Hlen Hrows Hrow Hnz.
  pose proof (Forall_lookup_1 _ _ _ _ Hrows Hrow) as Hlr. simpl in Hlr.
  assert (column j (normalize_columns A)
          = map (fun x => x * (1 / vsum row)) row) as ->.
  { unfold column at 1, normalize_columns. rewrite map_map, Hlen.
    rewrite <- Hlr. clear Hlen Hlr Hrows.
    apply list_eq. intros i.
    change (map ?f ?l) with (f <$> l).
    rewrite !list_lookup_fmap.
    destruct (row !! i) as [x|] eqn:Ex; simpl.
    - rewrite lookup_seq_lt by (eapply lookup_lt_Some, Ex). simpl.
      f_equal. rewrite nth_lookup, lookup_zip_with.
      unfold column, out_degrees.
      change (map ?f ?l) with (f <$> l).
      rewrite !list_lookup_fmap, Hrow. simpl.
      rewrite nth_lookup, Ex. simpl.
      destruct (Qeq_bool (vsum row) 0) eqn:E; [|reflexivity].
      apply Qeq_bool_iff in E. contradiction.
    - rewrite lookup_seq_ge; [reflexivity|]. apply lookup_ge_None_1, Ex. }
  rewrite vsum_map_mult_r. field. exact Hnz.
Qed.

(** X3: every page with a link to another known page has a column of sum 1
    in the transition matrix. *)
Theorem linked_column_sums_to_one pd (links : list link) (apply_caps : bool)
    (l : link) (j : nat) :
  let M_idx := build_transition_matrix pd links None apply_caps in
  (forall pid c, outflow_caps pd !! pid = Some c -> 0 <= c <= 1) ->
  l ∈ links -> M_idx.2 !! l.1 = Some j -> is_Some (M_idx.2 !! l.2) ->
  vsum (column j M_idx.1) == 1.
Proof.
  intros M_idx Hcaps Hl Hj [t Ht]. subst M_idx.
  unfold build_transition_matrix in *. simpl in *.
  set (n := length (pd_pages pd)).
  set (idx := index_of_ids (map page_id (pd_pages pd))) in *.
  assert (forall pid i, idx !! pid = Some i -> (i < n)%nat) as Hidx.
  { intros pid i H. apply index_of_ids_bound in H.
    now rewrite length_map in H. }
  destruct (adjacency_linked_row n idx links l j t Hl Hj Ht
              (Hidx _ _ Hj) (Hidx _ _ Ht)) as [Hrows Hrow].
  assert (Forall (fun e : Z * Q => 0 <= e.2 <= 1)
            (map_to_list (outflow_caps pd))) as Hc.
  { apply Forall_forall. intros [pid c] Hin.
    apply elem_of_map_to_list in Hin. simpl. eauto. }
  destruct apply_caps.
  - destruct (caps_keep_linked_row n idx _ _ j Hidx Hc Hrows Hrow)
      as [Hrows' (row & Hr & Hpos)].
    apply (column_sum_normalized _ n j row); auto; [|lra].
    rewrite foldl_length; [apply adjacency_length|].
    intros A e. unfold apply_cap. destruct (_ !! e.1); [|reflexivity].
    destruct (Qltb 0 _); [apply length_insert | reflexivity].
  - destruct Hrow as (row & Hr & Hpos).
    apply (column_sum_normalized _ n j row); auto; [|lra].
    apply adjacency_length.
Qed.


Lemma linked_column_sums_to_one_witness :
  let pages := [Page 1 "/a" "" "" 0; Page 2 "/b" "" "" 0] in
  let pd := prepare_page_data pages [] [] [("/a", 1 # 2)] in
  vsum (column 0 (build_transition_matrix pd [(1, 2)%Z] None true).1) == 1.
Proof.
  intros pages pd.
  apply (linked_column_sums_to_one pd [(1, 2)%Z] true (1, 2)%Z 0).
  - intros pid c H. vm_compute in H.
    destruct pid as [|[| |]|]; try discriminate.
    injection H as <-. split; discriminate.
  - now left.
  - reflexivity.
  - now exists 1%nat.
Defined.

End TransitionFacts.

(** ** The projection and the teleportation pockets *)

Module PocketFacts.
Import QVec QVecFacts Solver Spec SolverFacts SolverShapeFacts.
Local Open Scope Q_scope.

(** X4: a vector that is within its bounds and has mass 1 (within 1e-10)
    is a fixed point of the projection. *)
Theorem water_filling_keeps_feasible (p floors : list Q) (ceilings : list bound) :
  within floors p ceilings -> Qabs (1 - vsum p) < eps10 ->
  exists out,
    water_filling_projection p floors (Some ceilings) = Some out
    /\ veq out p.
Proof.
  intros Hw Hsum.
  pose proof (clip_of_within _ _ _ Hw) as Hclip.
  unfold water_filling_projection. simpl default.
  change (np_minimum (np_maximum p floors) ceilings)
    with (np_clip p floors ceilings).
  assert (Qltb (Qabs (1 - vsum (np_clip p floors ceilings))) eps10 = true)
    as ->.
  { apply Qltb_lt. apply Qabs_Qlt_condition in Hsum.
    apply Qabs_Qlt_condition. pose proof (vsum_eq _ _ Hclip) as E.
    revert E Hsum. generalize (vsum (np_clip p floors ceilings)).
    generalize (vsum p). unfold eps10. intros; lra. }
  eexists. split; [reflexivity | exact Hclip].
Qed.

Lemma water_filling_keeps_feasible_witness :
  exists out,
    water_filling_projection [2 # 10; 3 # 10; 5 # 10] [1 # 10; 0; 2 # 10]
      (Some [PInf; Finite (1 # 2); Finite 1]) = Some out
    /\ veq out [2 # 10; 3 # 10; 5 # 10].
Proof.
  apply water_filling_keeps_feasible.
  - repeat constructor; simpl; try discriminate.
  - reflexivity.
Defined.

Lemma distribute_foldl_spent (bpu eta total : Q) (l : list (nat * Q))
    (acc : list Q * Q) (s : Q) :
  0 <= bpu -> eta == bpu * total ->
  Forall (fun e : nat * Q => 0 < e.2) l ->
  acc.2 == bpu * s -> s + vsum (map snd l) <= total ->
  (foldl (fun acc e =>
            let allocation := qmin (e.2 * bpu) (eta - acc.2) in
            (<[ e.1 := allocation ]> acc.1, acc.2 + allocation)) acc l).2
  == bpu * (s + vsum (map snd l)).
Proof.
  intros Hb Het Hl. revert acc s.
  induction Hl as [|y l Hy Hl' IH]; intros acc s Hacc Hs; simpl.
  - rewrite vsum_nil, Hacc. ring.
  - simpl in Hs. rewrite vsum_cons in Hs. rewrite vsum_cons.
    assert (0 <= vsum (map snd l)) as Hrest.
    { apply vsum_nonneg, Forall_map.
      eapply Forall_impl; [exact Hl'|]. intros e He. simpl in *. lra. }
    rewrite (IH _ (s + y.2)); [ring| |lra].
    simpl.
    assert (0 <= bpu * (total - s - y.2)) as Hroom
        by (apply Qmult_le_0_compat; lra).
    destruct (qmin_spec (y.2 * bpu) (eta - acc.2)) as [[_ ->]|[Hlt _]].
    + rewrite Hacc. ring.
    + exfalso. revert Hlt Hroom Hacc Het.
      generalize (acc.2). intros a Hlt Hroom Hacc Het.
      assert (bpu * (total - s - y.2) == eta - a - y.2 * bpu) as E.
      { rewrite Het, Hacc. ring. }
      rewrite E in Hroom. lra.
Qed.

Lemma distribute_spends (n : nat) (needs : list (nat * Q)) (eta : Q) :
  Forall (fun e : nat * Q => 0 < e.2) needs -> needs <> [] -> 0 < eta ->
  (distribute n needs eta).2 == eta.
Proof.
  intros Hneeds Hne Heta. unfold distribute.
  destruct needs as [|e needs]; [congruence|].
  assert (Qltb 0 eta = true) as -> by now apply Qltb_lt.
  set (total := vsum (map snd (e :: needs))).
  assert (0 < total) as Htot.
  { unfold total. apply vsum_pos_lower; [|discriminate].
    apply Forall_map. exact Hneeds. }
  assert (Qltb 0 total = true) as -> by now apply Qltb_lt.
  rewrite (distribute_foldl_spent (eta / total) eta total (e :: needs) _ 0).
  - fold total. field. lra.
  - apply Qdiv_nonneg; lra.
  - field. lra.
  - exact Hneeds.
  - simpl. ring.
  - fold total. lra.
Qed.


Lemma distribute_idle (n : nat) (needs : list (nat * Q)) (eta : Q) :
  needs = [] \/ eta <= 0 -> (distribute n needs eta).2 = 0.
Proof.
  intros H. unfold distribute. destruct needs as [|e needs]; [reflexivity|].
  destruct H as [H|H]; [discriminate|].
  assert (Qltb 0 eta = false) as -> by now apply Qltb_ge.
  reflexivity.
Qed.

(** X5: the teleportation vector is a probability distribution with
    positive entries, and each pocket uses at most its budget. *)
Theorem teleportation_vector_is_distribution pd (p baseline_vec : list Q)
    (eta_protect eta_boost : Q) (id_to_idx : gmap Z nat) :
  p <> [] -> 0 <= eta_protect -> 0 <= eta_boost ->
  eta_protect + eta_boost < 1 ->
  exists v used_p used_b,
    compute_teleportation_vector pd p baseline_vec eta_protect eta_boost
      id_to_idx = (Some v, used_p, used_b)
    /\ length v = length p
    /\ Forall (fun x => 0 < x) v
    /\ vsum v == 1
    /\ 0 <= used_p <= eta_protect
    /\ 0 <= used_b <= eta_boost.
Proof.
  intros Hp Hep Heb Hsum.
  destruct (teleportation_positive pd p baseline_vec eta_protect eta_boost
              id_to_idx Hp Hep Heb Hsum) as (v & up & ub & E & Hpos).
  exists v, up, ub. split; [exact E|].
  pose proof (teleportation_length _ _ _ _ _ _ _ _ _ E) as Hlen.
  split; [exact Hlen|]. split; [exact Hpos|].
  unfold compute_teleportation_vector in E.
  pose proof (distribute_nonneg (length p) _ eta_protect Hep
                (pocket_needs_positive (elements (protected_ids pd))
                   (floor_values pd) id_to_idx baseline_vec p)) as [_ Hup].
  pose proof (distribute_nonneg (length p) _ eta_boost Heb
                (pocket_needs_positive (elements (boosted_ids pd))
                   (target_values pd) id_to_idx baseline_vec p)) as [_ Hub].
  destruct (distribute _ _ eta_protect) as [v_protect up'].
  destruct (distribute _ _ eta_boost) as [v_boost ub'].
  simpl in Hup, Hub. injection E as E <- <-.
  split; [|split; assumption].
  apply (normalize_sum _ _ E). intros ->. destruct p; [congruence|discriminate].
Qed.

Lemma teleportation_vector_is_distribution_witness :
  let pages := [Page 1 "/a" "" "" 0; Page 2 "/b" "" "" 0] in
  let pd := prepare_page_data pages [("/b", 1 # 2)] [("/a", 2)] [] in
  exists v used_p used_b,
    compute_teleportation_vector pd [1 # 2; 1 # 2] [1 # 2; 1 # 2]
      (5 # 100) (3 # 100) (index_of_ids [1; 2]%Z) = (Some v, used_p, used_b)
    /\ length v = 2%nat
    /\ Forall (fun x => 0 < x) v
    /\ vsum v == 1
    /\ 0 <= used_p <= 5 # 100
    /\ 0 <= used_b <= 3 # 100.
Proof.
  intros pages pd.
  apply (teleportation_vector_is_distribution pd [1 # 2; 1 # 2]);
    [discriminate | discriminate | discriminate | reflexivity].
Defined.

(** X6: a pocket spends its whole budget as soon as one of its pages is
    below its wanted value, and nothing otherwise. *)
Theorem pocket_budget_all_or_nothing pd (p baseline_vec : list Q)
    (eta_protect eta_boost : Q) (id_to_idx : gmap Z nat) v used_p used_b :
  compute_teleportation_vector pd p baseline_vec eta_protect eta_boost
    id_to_idx = (v, used_p, used_b) ->
  let protect_needs :=
    pocket_needs (elements (protected_ids pd)) (floor_values pd)
      id_to_idx baseline_vec p in
  let boost_needs :=
    pocket_needs (elements (boosted_ids pd)) (target_values pd)
      id_to_idx baseline_vec p in
  (protect_needs <> [] -> 0 < eta_protect -> used_p == eta_protect)
  /\ (protect_needs = [] \/ eta_protect <= 0 -> used_p = 0)
  /\ (boost_needs <> [] -> 0 < eta_boost -> used_b == eta_boost)
  /\ (boost_needs = [] \/ eta_boost <= 0 -> used_b = 0).
Proof.
  intros E pn bn. unfold compute_teleportation_vector in E.
  fold pn bn in E.
  pose proof (distribute_spends (length p) pn eta_protect
                (pocket_needs_positive _ _ _ _ _)) as Sp.
  pose proof (distribute_spends (length p) bn eta_boost
                (pocket_needs_positive _ _ _ _ _)) as Sb.
  pose proof (distribute_idle (length p) pn eta_protect) as Ip.
  pose proof (distribute_idle (length p) bn eta_boost) as Ib.
  destruct (distribute _ pn eta_protect) as [v_protect up'].
  destruct (distribute _ bn eta_boost) as [v_boost ub'].
  simpl in *. injection E as _ <- <-. auto.
Qed.

Lemma pocket_budget_all_or_nothing_witness :
  let pages := [Page 1 "/a" "" "" 0; Page 2 "/b" "" "" 0] in
  let pd := prepare_page_data pages [("/b", 2)] [] [] in
  exists v used_p used_b,
    compute_teleportation_vector pd [1 # 2; 1 # 2] [1 # 2; 1 # 2]
      (5 # 100) (3 # 100) (index_of_ids [1; 2]%Z) = (v, used_p, used_b)
    /\ used_p == 5 # 100 /\ used_b = 0.
Proof.
  intros pages pd.
  destruct (compute_teleportation_vector pd [1 # 2; 1 # 2] [1 # 2; 1 # 2]
              (5 # 100) (3 # 100) (index_of_ids [1; 2]%Z))
    as [[v used_p] used_b] eqn:E.
  exists v, used_p, used_b. split; [reflexivity|].
  destruct (pocket_budget_all_or_nothing pd _ _ _ _ _ _ _ _ E)
    as (Hp & _ & _ & Hb).
  split.
  - apply Hp; [vm_compute; discriminate | reflexivity].
  - apply Hb. left. vm_compute. reflexivity.
Defined.

End PocketFacts.

(** ** The score dict *)

Module ScoreFacts.
Import QVec QVecFacts Solver Spec SolverFacts SolverShapeFacts.
Local Open Scope Q_scope.

Lemma fast_loop_length pd M id_to_idx baseline_vec floors ceilings
    damping eta_protect eta_boost tolerance (n todo iteration : nat) p out :
  length M = n -> length floors = n -> length ceilings = n -> length p = n ->
  fast_loop pd M id_to_idx baseline_vec floors ceilings
    damping eta_protect eta_boost tolerance todo iteration p = Some out ->
  length out = n.
Proof.
  intros HM Hf Hc. revert iteration p.
  induction todo as [|todo IH]; intros iteration p Hp; simpl.
  - intros [= <-]. exact Hp.
  - destruct (fast_step _ _ _ _ _ _ _ _ _ p) as [p'|] eqn:Es; [|discriminate].
    assert (length p' = n) as Hp'.
    { unfold fast_step in Es.
      destruct (compute_teleportation_vector _ _ _ _ _ _)
        as [[[v|] up] ub] eqn:Ev; [|discriminate].
      apply teleportation_length in Ev.
      eapply water_filling_length; [| | |exact Es]; try assumption.
      unfold vadd, vscale, dot. rewrite length_zip_with, !length_map. lia. }
    destruct (_ && _); [intros [= <-]; exact Hp'|].
    apply IH. exact Hp'.
Qed.

(** X7: the constrained solver returns one score for every page id, and
    for nothing else. *)
Theorem solver_scores_cover_pages pd links baseline_pr damping eta_protect
    eta_boost tolerance max_iter scores :
  calculate_fast pd links baseline_pr damping eta_protect eta_boost
    tolerance max_iter = Some scores ->
  forall pid, is_Some (scores !! pid) <-> pid ∈ map page_id (pd_pages pd).
Proof.
  unfold calculate_fast.
  pose proof (transition_matrix_length pd links None true) as HM.
  destruct (build_transition_matrix pd links None true) as [M id_to_idx].
  simpl in HM.
  destruct (fast_loop _ _ _ _ _ _ _ _ _ _ _ _ _) as [out|] eqn:E;
    [|discriminate].
  intros [= <-] pid. apply to_dict_keys.
  rewrite length_map.
  eapply fast_loop_length; [exact HM | | | |exact E].
  - rewrite set_floors_length. unfold baseline_vector. now rewrite !length_map.
  - rewrite set_ceilings_length. unfold baseline_vector. now rewrite !length_map.
  - unfold baseline_vector. now rewrite !length_map.
Qed.

Lemma solver_scores_cover_pages_witness :
  let pages := [Page 1 "/a" "" "" 0; Page 2 "/b" "" "" 0] in
  let pd := prepare_page_data pages [("/b", 1 # 2)] [("/a", 2)] [] in
  exists scores,
    calculate_fast pd [(1, 2)%Z] ∅ (85 # 100) (5 # 100) (3 # 100)
      (1 # 100000000) 1 = Some scores
    /\ forall pid, is_Some (scores !! pid) <-> pid ∈ [1; 2]%Z.
Proof.
  intros pages pd.
  destruct (calculate_fast pd [(1, 2)%Z] ∅ (85 # 100) (5 # 100) (3 # 100)
              (1 # 100000000) 1) as [scores|] eqn:E.
  - exists scores. split; [reflexivity|].
    exact (solver_scores_cover_pages pd _ _ _ _ _ _ _ _ E).
  - exfalso. vm_compute in E. discriminate.
Defined.


Lemma fast_loop_nonneg pd M id_to_idx baseline_vec floors ceilings
    damping eta_protect eta_boost tolerance (n : nat) :
  (0 < n)%nat -> length M = n -> length floors = n ->
  Forall (Forall (fun x => 0 <= x)) M -> Forall (fun x => 0 <= x) floors ->
  Forall2 le_bound floors ceilings -> Forall positive_bound ceilings ->
  0 <= damping < 1 ->
  0 <= eta_protect /\ 0 <= eta_boost /\ eta_protect + eta_boost < 1 ->
  forall todo iteration p out,
    length p = n -> Forall (fun x => 0 <= x) p ->
    fast_loop pd M id_to_idx baseline_vec floors ceilings
      damping eta_protect eta_boost tolerance todo iteration p = Some out ->
    Forall (fun x => 0 <= x) out.
Proof.
  intros Hn HM Hf HM0 Hf0 Hfc Hc Hd Heta.
  induction todo as [|todo IH]; intros iteration p out Hp Hp0; simpl.
  - intros [= <-]. exact Hp0.
  - destruct (fast_step_returns pd M id_to_idx baseline_vec floors ceilings
                damping eta_protect eta_boost tolerance n Hn HM Hf HM0 Hf0 Hfc
                Hc Hd Heta p Hp Hp0) as (p' & -> & Hl & Hp').
    destruct (_ && _); [intros [= <-]; exact Hp'|].
    now apply IH.
Qed.

(** X8: on well-formed inputs no page gets a negative score. *)
Theorem solver_scores_nonneg pd links baseline_pr damping eta_protect
    eta_boost tolerance max_iter scores :
  let id_to_idx := index_of_ids (map page_id (pd_pages pd)) in
  let baseline_vec := baseline_vector pd baseline_pr in
  let floors := set_floors pd id_to_idx baseline_vec in
  let ceilings := set_ceilings pd id_to_idx baseline_vec in
  pd_pages pd <> [] ->
  (forall pid q, baseline_pr !! pid = Some q -> 0 <= q) ->
  (forall pid c, outflow_caps pd !! pid = Some c -> 0 <= c <= 1) ->
  Forall (fun x => 0 <= x) floors -> Forall2 le_bound floors ceilings ->
  Forall positive_bound ceilings ->
  0 <= damping < 1 ->
  0 <= eta_protect /\ 0 <= eta_boost /\ eta_protect + eta_boost < 1 ->
  calculate_fast pd links baseline_pr damping eta_protect eta_boost
    tolerance max_iter = Some scores ->
  forall pid q, scores !! pid = Some q -> 0 <= q.
Proof.
  intros i2i b floors ceilings Hne Hb Hcaps Hf0 Hfc Hc Hd Heta.
  pose proof (transition_matrix_length pd links None true) as HM.
  pose proof (transition_matrix_nonneg pd links Hcaps) as HM0.
  unfold calculate_fast.
  change (build_transition_matrix pd links None true)
    with ((build_transition_matrix pd links None true).1, i2i).
  cbv iota beta. fold b. fold floors. fold ceilings.
  set (n := length (pd_pages pd)) in *.
  assert (0 < n)%nat as Hn.
  { unfold n. destruct (pd_pages pd); [congruence | simpl; lia]. }
  assert (length b = n) as Lb
      by (unfold b, baseline_vector; now rewrite !length_map).
  assert (Forall (fun x => 0 <= x) b) as Hb0.
  { unfold b, baseline_vector. apply Forall_map, Forall_forall. intros pid _.
    simpl. destruct (baseline_pr !! pid) as [q|] eqn:E; simpl; [eauto|].
    apply Qdiv_nonneg; [lra | now apply of_nat_pos]. }
  destruct (fast_loop _ _ _ _ _ _ _ _ _ _ _ _ _) as [out|] eqn:E;
    [|discriminate].
  intros [= <-] pid q Hq. apply to_dict_values in Hq.
  assert (Forall (fun x => 0 <= x) out) as Hout.
  { eapply (fast_loop_nonneg pd _ i2i b floors ceilings damping eta_protect
              eta_boost tolerance n Hn HM
              ltac:(unfold floors; now rewrite set_floors_length)
              HM0 Hf0 Hfc Hc Hd Heta); [exact Lb | exact Hb0 | exact E]. }
  exact (proj1 (Forall_forall _ _) Hout q Hq).
Qed.


Lemma solver_scores_nonneg_witness :
  let pages := [Page 1 "/a" "" "" 0; Page 2 "/b" "" "" 0] in
  let pd := prepare_page_data pages [("/b", 1 # 2)] [("/a", 2)] [] in
  exists scores,
    calculate_fast pd [(1, 2)%Z] ∅ (85 # 100) (5 # 100) (3 # 100)
      (1 # 100000000) 1 = Some scores
    /\ forall pid q, scores !! pid = Some q -> 0 <= q.
Proof.
  intros pages pd.
  destruct (calculate_fast pd [(1, 2)%Z] ∅ (85 # 100) (5 # 100) (3 # 100)
              (1 # 100000000) 1) as [scores|] eqn:E;
    [|exfalso; vm_compute in E; discriminate].
  exists scores. split; [reflexivity|].
  refine (solver_scores_nonneg pd [(1, 2)%Z] ∅ (85 # 100) (5 # 100) (3 # 100)
            (1 # 100000000) 1%Z scores _ _ _ _ _ _ _ _ E).
  - discriminate.
  - intros pid q H. rewrite lookup_empty in H. discriminate H.
  - intros pid c H. simpl in H. rewrite lookup_empty in H. discriminate H.
  - match goal with |- Forall _ ?l =>
      let l' := eval vm_compute in l in change l with l' end.
    repeat (apply Forall_cons_2; [discriminate|]). apply Forall_nil_2.
  - match goal with |- Forall2 _ ?l ?k =>
      let l' := eval vm_compute in l in
      let k' := eval vm_compute in k in change l with l'; change k with k' end.
    repeat (apply Forall2_cons_2; [simpl; try exact I; try discriminate|]).
    apply Forall2_nil_2.
  - match goal with |- Forall _ ?l =>
      let l' := eval vm_compute in l in change l with l' end.
    repeat (apply Forall_cons_2; [simpl; try exact I; try reflexivity|]).
    apply Forall_nil_2.
  - split; [discriminate | reflexivity].
  - repeat split; try discriminate.
Defined.

End ScoreFacts.

(** ** Budgets, strategy and the baseline calculator *)

Module CalculatorFacts.
Import QVec QVecFacts Solver Spec SolverFacts SolverShapeFacts ScoreFacts.
Local Open Scope Q_scope.

Lemma of_nat_le (a b : nat) : (a <= b)%nat -> of_nat a <= of_nat b.
Proof.
  intros H. unfold of_nat. rewrite <- Zle_Qle. lia.
Qed.

Lemma of_nat_nonneg (a : nat) : 0 <= of_nat a.
Proof. unfold of_nat. change 0 with (inject_Z 0). rewrite <- Zle_Qle. lia. Qed.

(** X9: after the budget validation the two budgets sum to at most 1
    and neither has grown; budgets that summed to more than 1 are cut
    to at most 0.4 for protection and 0.6 together, budgets within 1
    are kept, and non-negative budgets stay non-negative. *)
Theorem validated_budgets_fit (eta_protect eta_boost : Q) :
  (validate_budgets eta_protect eta_boost).1
  + (validate_budgets eta_protect eta_boost).2 <= 1
  /\ (validate_budgets eta_protect eta_boost).1 <= eta_protect
  /\ (validate_budgets eta_protect eta_boost).2 <= eta_boost
  /\ (0 <= eta_protect -> 0 <= eta_boost ->
      0 <= (validate_budgets eta_protect eta_boost).1
      /\ 0 <= (validate_budgets eta_protect eta_boost).2)
  /\ (1 < eta_protect + eta_boost ->
      (validate_budgets eta_protect eta_boost).1 <= 4 # 10
      /\ (validate_budgets eta_protect eta_boost).1
         + (validate_budgets eta_protect eta_boost).2 <= 6 # 10)
  /\ (eta_protect + eta_boost <= 1 ->
      validate_budgets eta_protect eta_boost = (eta_protect, eta_boost)).
Proof.
  unfold validate_budgets.
  destruct (Qltb 1 (eta_protect + eta_boost)) eqn:E; simpl.
  - apply Qltb_lt in E.
    destruct (qmin_spec eta_protect (4 # 10)) as [[H1 ->]|[H1 ->]];
      match goal with |- context [qmin ?a ?b] =>
        destruct (qmin_spec a b) as [[H2 ->]|[H2 ->]] end;
      repeat split; try lra.
  - apply Qltb_ge in E. repeat split; try lra.
Qed.

(** The time estimate never exceeds 0.1 s plus 1 ms per page and
    0.1 ms per link, so the fast mode is only chosen when the
    threshold lies below that. *)
Lemma fast_mode_needs_large_graph (self : calculator) (pages : list page)
    (links : list link) :
  use_fast_mode self pages links = true ->
  performance_threshold self
  < (1 # 10) + of_nat (length pages) * (1 # 1000)
    + of_nat (length links) * (1 # 10000).
Proof.
  unfold use_fast_mode, estimate_computation_time. intros H.
  apply Qltb_lt in H.
  pose proof (of_nat_nonneg (length pages)) as Hp.
  pose proof (of_nat_nonneg (length links)) as Hl.
  revert H Hp Hl.
  generalize (of_nat (length pages)), (of_nat (length links)).
  intros n l H Hn Hl.
  set (it := inject_Z (Z.min 100 (self_max_iter self))) in *.
  assert (it <= 100) as Hit.
  { unfold it. change 100 with (inject_Z 100). rewrite <- Zle_Qle. lia. }
  set (w := n * (1 # 100000) + l * (1 # 1000000)) in *.
  assert (0 <= w) as Hw by (unfold w; lra).
  assert (w * it <= w * 100) as Hprod.
  { rewrite !(Qmult_comm w). apply Qmult_le_compat_r; assumption. }
  unfold w in *. lra.
Qed.

Lemma sparse_matrix_raises (pages : list page) (links : list link)
    (damping : Q) (max_iter : Z) (tolerance : Q)
    (link_weights : option (gmap link Q)) :
  (1 <= max_iter)%Z ->
  calculate_with_sparse_matrix pages links damping max_iter tolerance
    link_weights = None.
Proof.
  intros H. unfold calculate_with_sparse_matrix.
  destruct (_ =? 0)%nat; [reflexivity|].
  destruct (Z.to_nat max_iter) as [|k] eqn:E; [lia|]. reflexivity.
Qed.

Section WithNetworkX.

Variable nx_pagerank :
  list Z -> list link -> option (gmap link Q) -> Q -> Z -> Q -> nx_outcome.

Lemma large_baseline_raises (pages : list page) (links : list link)
    (damping : Q) (max_iter : Z) (tolerance : Q)
    (link_weights : option (gmap link Q)) :
  (50000 < Z.of_nat (length pages))%Z
  \/ (500000 < Z.of_nat (length links))%Z ->
  (1 <= max_iter)%Z ->
  networkx_calculate nx_pagerank pages links damping max_iter tolerance
    link_weights = None.
Proof.
  intros Hsize Hit. unfold networkx_calculate.
  assert ((50000 <? Z.of_nat (length pages))%Z
          || (500000 <? Z.of_nat (length links))%Z = true) as ->.
  { apply orb_true_iff. destruct Hsize; [left|right]; now apply Z.ltb_lt. }
  now apply sparse_matrix_raises.
Qed.

(** X10: a project of more than 50000 pages or more than 500000 links
    gets no scores: the baseline run takes the sparse path, whose
    convergence test raises on its first pass. *)
Theorem large_project_raises (self : calculator) (pages : list page)
    (links : list link) (damping : option Q) (max_iter : option Z)
    (tolerance : option Q) (link_weights : option (gmap link Q))
    (protected_pages boosted_pages : list (string * Q))
    (eta_protect eta_boost : Q) (alpha_cap : list (string * Q)) :
  (50000 < Z.of_nat (length pages))%Z
  \/ (500000 < Z.of_nat (length links))%Z ->
  calculate nx_pagerank self pages links damping max_iter tolerance
    link_weights protected_pages boosted_pages eta_protect eta_boost alpha_cap
  = None.
Proof.
  intros Hsize. unfold calculate.
  destruct (validate_budgets eta_protect eta_boost) as [ep eb].
  unfold calculate_baseline_pagerank. simpl pd_pages.
  rewrite large_baseline_raises; [reflexivity | exact Hsize | lia].
Qed.

(** X11: when NetworkX fails on a graph without links, every page gets
    the score 1/n. *)
Theorem no_link_fallback_is_uniform (pages : list page) (damping : Q)
    (max_iter : Z) (tolerance : Q) (link_weights : option (gmap link Q)) :
  nx_pagerank (map page_id pages) [] (truthy_weights link_weights) damping
    max_iter tolerance = NxError ->
  exists scores,
    calculate_standard nx_pagerank pages [] damping max_iter tolerance
      link_weights = Some scores
    /\ (forall pid, pid ∈ map page_id pages ->
          scores !! pid = Some (1 / of_nat (length pages)))
    /\ (forall pid, pid ∉ map page_id pages -> scores !! pid = None).
Proof.
  intros E. unfold calculate_standard. rewrite E.
  eexists. split; [reflexivity|].
  rewrite length_map.
  assert (length (replicate (length pages) (1 / of_nat (length pages)))
          = length (map page_id pages)) as Hlen
      by now rewrite length_replicate, length_map.
  split; intros pid Hpid.
  - destruct (proj2 (to_dict_keys _ _ pid Hlen) Hpid) as [v Hv].
    rewrite Hv. f_equal.
    apply to_dict_values, elem_of_replicate in Hv as [-> _]. reflexivity.
  - apply eq_None_not_Some. intros H. apply Hpid.
    exact (proj1 (to_dict_keys _ _ pid Hlen) H).
Qed.

End WithNetworkX.

Lemma no_link_fallback_is_uniform_witness :
  let nx := fun _ _ _ _ _ _ => NxError in
  let pages := [Page 1 "/a" "" "" 0; Page 2 "/b" "" "" 0] in
  exists scores,
    calculate_standard nx pages [] (85 # 100) 100 (1 # 10000) None
    = Some scores
    /\ (forall pid, pid ∈ map page_id pages ->
          scores !! pid = Some (1 / of_nat (length pages)))
    /\ (forall pid, pid ∉ map page_id pages -> scores !! pid = None).
Proof.
  intros nx pages.
  apply (no_link_fallback_is_uniform nx pages). reflexivity.
Defined.

Lemma large_project_raises_witness :
  let nx := fun _ _ _ _ _ _ => NxError in
  let self := init (85 # 100) (1 # 100000000) 1000 15 in
  let pages := replicate (Z.to_nat 50001) (Page 1 "/a" "" "" 0) in
  calculate nx self pages [] None None None None [] [] (5 # 100) (3 # 100) []
  = None.
Proof.
  intros nx self pages.
  apply (large_project_raises nx self pages).
  left. unfold pages. rewrite length_replicate, Z2Nat.id; lia.
Defined.

End CalculatorFacts.

(** ** The working data of the solver *)

Module PageDataFacts.
Import QVec QVecFacts Solver Spec SolverFacts SolverShapeFacts.
Local Open Scope Q_scope.

Lemma url_to_id_origin (pages : list page) (m : gmap string Z) (url : string)
    (pid : Z) :
  foldl (fun m pg => <[ page_url pg := page_id pg ]> m) m pages !! url
  = Some pid ->
  m !! url = Some pid
  \/ exists pg, pg ∈ pages /\ page_url pg = url /\ page_id pg = pid.
Proof.
  revert m. induction pages as [|pg pages IH]; intros m H; simpl in H;
    [now left|].
  apply IH in H as [H|(pg' & Hin & Hu & Hi)].
  - apply lookup_insert_Some in H as [[<- <-]|[_ H]]; [|now left].
    right. exists pg. split; [now left | auto].
  - right. exists pg'. split; [now right | auto].
Qed.

Lemma url_to_id_known (pages : list page) (m : gmap string Z) (url : string) :
  url ∈ map page_url pages ->
  is_Some (foldl (fun m pg => <[ page_url pg := page_id pg ]> m) m pages
             !! url).
Proof.
  revert m. induction pages as [|pg pages IH]; intros m H; simpl in *.
  - now apply elem_of_nil in H.
  - destruct (decide (url ∈ map page_url pages)) as [Hin|Hnot];
      [now apply IH|].
    apply elem_of_cons in H as [->|H]; [|contradiction].
    clear IH. revert Hnot.
    generalize (<[page_url pg:=page_id pg]> m) (lookup_insert_eq m (page_url pg) (page_id pg)).
    induction pages as [|pg' pages IH]; intros m' Hm' Hnot; simpl; [eauto|].
    apply IH.
    + rewrite lookup_insert_ne; [exact Hm'|].
      intros E. apply Hnot. simpl. rewrite E. now left.
    + intros H. apply Hnot. simpl. now right.
Qed.

Lemma mark_fold (u2i : gmap string Z) (entries : list (string * Q))
    (acc : gset Z * gmap Z Q) (pid : Z) :
  (pid ∈ (foldl (mark u2i) acc entries).1
   <-> pid ∈ acc.1
       \/ exists url f, (url, f) ∈ entries /\ u2i !! url = Some pid)
  /\ forall f, (foldl (mark u2i) acc entries).2 !! pid = Some f ->
       acc.2 !! pid = Some f
       \/ exists url, (url, f) ∈ entries /\ u2i !! url = Some pid.
Proof.
  revert acc. induction entries as [|[url f] entries IH]; intros acc; simpl.
  - split; [|now left]. split; [now left|].
    intros [H|(? & ? & H & _)]; [exact H | now apply elem_of_nil in H].
  - destruct (IH (mark u2i acc (url, f))) as [IH1 IH2]. split.
    + rewrite IH1. unfold mark. simpl.
      destruct (u2i !! url) as [pid'|] eqn:Eu; simpl.
      * rewrite elem_of_union, elem_of_singleton. split.
        -- intros [[->|H]|(u & f' & H & Hu)]; [right|now left|right].
           ++ exists url, f. split; [now left | exact Eu].
           ++ exists u, f'. split; [now right | exact Hu].
        -- intros [H|(u & f' & H & Hu)]; [left; now right|].
           apply elem_of_cons in H as [[= -> ->]|H].
           ++ left. left. congruence.
           ++ right. eauto.
      * split.
        -- intros [H|(u & f' & H & Hu)]; [now left|].
           right. exists u, f'. split; [now right | exact Hu].
        -- intros [H|(u & f' & H & Hu)]; [now left|].
           apply elem_of_cons in H as [[= -> ->]|H]; [congruence|].
           right. eauto.
    + intros f' Hf'. apply IH2 in Hf' as [H|(u & H & Hu)].
      * unfold mark in H. simpl in H.
        destruct (u2i !! url) as [pid'|] eqn:Eu; simpl in H; [|now left].
        apply lookup_insert_Some in H as [[<- <-]|[_ H]]; [|now left].
        right. exists url. split; [now left | exact Eu].
      * right. exists u. split; [now right | exact Hu].
Qed.

(** X12: the working maps of the solver: a url is mapped to the id of a
    page with that url, exactly the urls of pages are mapped, an id is
    protected (boosted) exactly when an entry's url is mapped to it,
    and each stored factor is the factor of such an entry. *)
Theorem page_data_lookup (pages : list page)
    (protected_pages boosted_pages alpha_cap : list (string * Q)) :
  (forall url, is_Some (url_to_id (prepare_page_data pages protected_pages
                                     boosted_pages alpha_cap) !! url)
               <-> url ∈ map page_url pages)
  /\ (forall url pid,
        url_to_id (prepare_page_data pages protected_pages boosted_pages
                     alpha_cap) !! url = Some pid ->
        exists pg, pg ∈ pages /\ page_url pg = url /\ page_id pg = pid)
  /\ (forall pid,
        pid ∈ protected_ids (prepare_page_data pages protected_pages
                               boosted_pages alpha_cap)
        <-> exists url f,
              (url, f) ∈ protected_pages
              /\ url_to_id (prepare_page_data pages protected_pages
                              boosted_pages alpha_cap) !! url = Some pid)
  /\ (forall pid f,
        floor_values (prepare_page_data pages protected_pages boosted_pages
                        alpha_cap) !! pid = Some f ->
        exists url,
          (url, f) ∈ protected_pages
          /\ url_to_id (prepare_page_data pages protected_pages
                          boosted_pages alpha_cap) !! url = Some pid)
  /\ (forall pid,
        pid ∈ boosted_ids (prepare_page_data pages protected_pages
                             boosted_pages alpha_cap)
        <-> exists url f,
              (url, f) ∈ boosted_pages
              /\ url_to_id (prepare_page_data pages protected_pages
                              boosted_pages alpha_cap) !! url = Some pid)
  /\ (forall pid f,
        target_values (prepare_page_data pages protected_pages boosted_pages
                         alpha_cap) !! pid = Some f ->
        exists url,
          (url, f) ∈ boosted_pages
          /\ url_to_id (prepare_page_data pages protected_pages
                          boosted_pages alpha_cap) !! url = Some pid).
Proof.
  unfold prepare_page_data. simpl.
  set (u2i := foldl (fun m pg => <[ page_url pg := page_id pg ]> m) ∅ pages).
  split; [|split; [|split; [|split; [|split]]]].
  - intros url. split; [|apply url_to_id_known].
    intros [pid H]. apply url_to_id_origin in H as [H|(pg & Hin & <- & _)];
      [now rewrite lookup_empty in H|].
    change (map page_url pages) with (page_url <$> pages).
    now apply list_elem_of_fmap_2.
  - intros url pid H. apply url_to_id_origin in H as [H|H]; [|exact H].
    now rewrite lookup_empty in H.
  - intros pid. rewrite (proj1 (mark_fold u2i protected_pages (∅, ∅) pid)).
    simpl. split; [intros [H|H]; [now apply elem_of_empty in H | exact H]|].
    now right.
  - intros pid f H.
    apply (proj2 (mark_fold u2i protected_pages (∅, ∅) pid)) in H as [H|H];
      [simpl in H; now rewrite lookup_empty in H | exact H].
  - intros pid. rewrite (proj1 (mark_fold u2i boosted_pages (∅, ∅) pid)).
    simpl. split; [intros [H|H]; [now apply elem_of_empty in H | exact H]|].
    now right.
  - intros pid f H.
    apply (proj2 (mark_fold u2i boosted_pages (∅, ∅) pid)) in H as [H|H];
      [simpl in H; now rewrite lookup_empty in H | exact H].
Qed.

Lemma foldl_insert_at {X : Type} (idx : Z -> option nat) (val : Z -> nat -> X)
    (init : list X) (ids : list Z) (i : nat) (x : X) :
  foldl (fun acc pid =>
           match idx pid with
           | Some k => <[ k := val pid k ]> acc
           | None => acc
           end) init ids !! i = Some x ->
  (exists pid, pid ∈ ids /\ idx pid = Some i /\ x = val pid i)
  \/ (init !! i = Some x /\ forall pid, pid ∈ ids -> idx pid <> Some i).
Proof.
  induction ids as [|pid ids IH] using rev_ind; simpl.
  - intros H. right. split; [exact H|]. intros pid Hpid.
    now apply elem_of_nil in Hpid.
  - rewrite foldl_app. simpl. intros H.
    assert ((exists pid', pid' ∈ ids /\ idx pid' = Some i /\ x = val pid' i)
            \/ init !! i = Some x
               /\ (forall pid', pid' ∈ ids -> idx pid' <> Some i) ->
            idx pid <> Some i ->
            (exists pid', pid' ∈ ids ++ [pid] /\ idx pid' = Some i
                          /\ x = val pid' i)
            \/ init !! i = Some x
               /\ (forall pid', pid' ∈ ids ++ [pid] -> idx pid' <> Some i))
      as Hkeep.
    { intros [(p & Hp & Hi & Hx)|[Hi Hall]] Hne.
      - left. exists p. split; [apply elem_of_app; now left | auto].
      - right. split; [exact Hi|]. intros p Hp.
        apply elem_of_app in Hp as [Hp|Hp]; [now apply Hall|].
        apply list_elem_of_singleton in Hp. now subst p. }
    destruct (idx pid) as [k|] eqn:Ek; [|apply Hkeep; [now apply IH | discriminate]].
    destruct (decide (k = i)) as [->|Hne].
    + left. exists pid. split; [apply elem_of_app; right; now left|].
      split; [exact Ek|].
      apply list_lookup_insert_Some in H as [(_ & <- & _)|[Hn _]];
        [reflexivity | congruence].
    + rewrite list_lookup_insert_ne in H by exact Hne.
      apply Hkeep; [now apply IH | congruence].
Qed.

(** X13: a page no protection maps to has floor 0, and one that no boost
    maps to has no ceiling; otherwise its floor is the floor factor
    times its baseline score and its ceiling twice the target factor
    times its baseline score. *)
Theorem floors_and_ceilings (pd : page_data) (id_to_idx : gmap Z nat)
    (baseline_vec : list Q) (i : nat) :
  (forall f, set_floors pd id_to_idx baseline_vec !! i = Some f ->
     (exists pid, pid ∈ protected_ids pd /\ id_to_idx !! pid = Some i
                  /\ f = default 0 (floor_values pd !! pid)
                         * nth i baseline_vec 0)
     \/ (f = 0 /\ forall pid, pid ∈ protected_ids pd ->
                              id_to_idx !! pid <> Some i))
  /\ (forall c, set_ceilings pd id_to_idx baseline_vec !! i = Some c ->
        (exists pid, pid ∈ boosted_ids pd /\ id_to_idx !! pid = Some i
                     /\ c = Finite (2 * default 0 (target_values pd !! pid)
                                    * nth i baseline_vec 0))
        \/ (c = PInf /\ forall pid, pid ∈ boosted_ids pd ->
                                    id_to_idx !! pid <> Some i)).
Proof.
  split.
  - intros f H. unfold set_floors in H.
    apply (foldl_insert_at (fun pid => id_to_idx !! pid)
             (fun pid idx => default 0 (floor_values pd !! pid)
                             * nth idx baseline_vec 0)) in H
      as [(pid & Hp & Hi & ->)|[Hi Hall]].
    + left. exists pid. split; [now apply elem_of_elements|]. auto.
    + right. apply lookup_replicate in Hi as [-> _]. split; [reflexivity|].
      intros pid Hp. apply Hall. now apply elem_of_elements.
  - intros c H. unfold set_ceilings in H.
    apply (foldl_insert_at (fun pid => id_to_idx !! pid)
             (fun pid idx => Finite (2 * default 0 (target_values pd !! pid)
                                     * nth idx baseline_vec 0))) in H
      as [(pid & Hp & Hi & ->)|[Hi Hall]].
    + left. exists pid. split; [now apply elem_of_elements|]. auto.
    + right. apply lookup_replicate in Hi as [-> _]. split; [reflexivity|].
      intros pid Hp. apply Hall. now apply elem_of_elements.
Qed.

End PageDataFacts.

(** ** Selectors *)

Module SelectorFacts.
Import Rules Spec Float64Facts RulesFacts.
Local Open Scope Z_scope.

Lemma submseteq_NoDup {A : Type} (l k : list A) : l ⊆+ k -> NoDup k -> NoDup l.
Proof.
  intros H Hk. apply submseteq_sublist_r in H as (l2 & Hp & Hs).
  rewrite Hp. eapply sublist_NoDup; eassumption.
Qed.

Lemma draw_submseteq {A : Type} (k : nat) (pool : list A) (g : rng) :
  (draw k pool g).1 ⊆+ pool.
Proof.
  revert pool g. induction k as [|k IH]; intros pool g; simpl.
  - apply submseteq_nil_l.
  - destruct (next g) as [r g'].
    destruct (pool !! (r mod length pool)%nat) as [y|] eqn:Ey; simpl;
      [|apply submseteq_nil_l].
    pose proof (IH (delete (r mod length pool)%nat pool) g') as IH'.
    destruct (draw k (delete (r mod length pool)%nat pool) g')
      as [rest g''].
    simpl in *. rewrite (delete_Permutation pool _ y Ey).
    now apply submseteq_skip.
Qed.

Lemma random_sample_submseteq {A : Type} (population : list A) (k : Z)
    (g g' : rng) (l : list A) :
  random_sample population k g = Some (l, g') -> l ⊆+ population.
Proof.
  unfold random_sample. destruct (_ || _); [discriminate|].
  intros [= E]. pose proof (draw_submseteq (Z.to_nat k) population g) as H.
  now rewrite E in H.
Qed.

Lemma slice_to_sublist {A : Type} (l : list A) (k : Z) :
  slice_to l k `sublist_of` l.
Proof. unfold slice_to. destruct (0 <=? k); apply sublist_take. Qed.

Lemma category_split (source_page : page) (candidates : list page) :
  filter (fun pg => same_category source_page pg) candidates
  ++ filter (fun pg => negb (same_category source_page pg)) candidates
  ≡ₚ candidates.
Proof.
  rewrite <- (filter_app_complement
                (fun pg => same_category source_page pg) candidates) at 3.
  f_equiv. apply reflexive_eq, list_filter_iff. intros pg.
  destruct (same_category source_page pg); simpl; tauto.
Qed.

(** X14: a selector returns candidates, each candidate position at most
    once: the targets are a sub-multiset of the candidates, so distinct
    candidates give distinct targets. *)
Theorem selected_targets_are_distinct (sel : selector) (source_page : page)
    (candidates : list page) (m : Z) (g : rng) (targets : list page)
    (g' : rng) :
  select_targets sel source_page candidates m g = Some (targets, g') ->
  targets ⊆+ candidates /\ (NoDup candidates -> NoDup targets).
Proof.
  intros E. assert (targets ⊆+ candidates) as H;
    [|split; [exact H | now apply submseteq_NoDup]].
  revert E. destruct sel as [| | |high]; simpl.
  - destruct (_ <=? m).
    + intros [= <- _]. apply sublist_submseteq, sublist_filter.
    + intros E. apply random_sample_submseteq in E. rewrite E.
      apply sublist_submseteq, sublist_filter.
  - set (same := filter _ candidates). set (other := filter _ candidates).
    destruct (if 0 <? same_cat_count _ m then _ else _) as [[fs g1]|] eqn:E1;
      [|discriminate].
    destruct (if 0 <? other_count _ _ m then _ else _) as [[fo g2]|] eqn:E2;
      [|discriminate].
    intros [= <- _].
    rewrite <- (category_split source_page candidates). fold same other.
    apply submseteq_app.
    + destruct (0 <? same_cat_count _ m).
      * now apply random_sample_submseteq in E1.
      * injection E1 as <- _. apply submseteq_nil_l.
    + destruct (0 <? other_count _ _ m).
      * now apply random_sample_submseteq in E2.
      * injection E2 as <- _. apply submseteq_nil_l.
  - destruct (_ <=? m).
    + now intros [= <- _].
    + apply random_sample_submseteq.
  - intros [= <- _].
    rewrite <- (sorted_perm page_current_pagerank high candidates) at 2.
    apply sublist_submseteq, slice_to_sublist.
Qed.


Lemma selected_targets_are_distinct_witness :
  let pg i c := Page i "" "product" c 0%Q in
  let candidates := [pg 2 "a"; pg 3 "a"; pg 4 "b"; pg 5 "a"] in
  exists targets g',
    select_targets CategorySelector (pg 1 "a") candidates 2 [1; 1]%nat
    = Some (targets, g')
    /\ targets ⊆+ candidates.
Proof.
  intros pg candidates.
  destruct (select_targets CategorySelector (pg 1 "a") candidates 2 [1; 1]%nat)
    as [[targets g']|] eqn:E; [|exfalso; vm_compute in E; discriminate].
  exists targets, g'. split; [reflexivity|].
  exact (proj1 (selected_targets_are_distinct _ _ _ _ _ _ _ E)).
Defined.

Lemma slice_to_length {A : Type} (l : list A) (k : Z) :
  0 <= k -> Z.of_nat (length (slice_to l k)) = Z.min k (Z.of_nat (length l)).
Proof.
  intros Hk. unfold slice_to.
  destruct (0 <=? k) eqn:E; [|lia]. rewrite length_take. lia.
Qed.

Lemma select_targets_length_le (sel : selector) (source_page : page)
    (candidates : list page) (m : Z) (g : rng) (targets : list page)
    (g' : rng) :
  0 <= m ->
  select_targets sel source_page candidates m g = Some (targets, g') ->
  Z.of_nat (length targets) <= m.
Proof.
  intros Hm. destruct sel as [| | |high]; simpl.
  - destruct (_ <=? m) eqn:E.
    + intros [= <- _]. lia.
    + intros H. apply random_sample_length in H. lia.
  - set (same := filter _ candidates). set (other := filter _ candidates).
    pose proof (int_mul_07_bounds m Hm) as Hb.
    destruct (if 0 <? same_cat_count _ m then _ else _) as [[fs g1]|] eqn:E1;
      [|discriminate].
    destruct (if 0 <? other_count _ _ m then _ else _) as [[fo g2]|] eqn:E2;
      [|discriminate].
    intros [= <- _]. rewrite length_app.
    assert (Z.of_nat (length fs)
            <= Z.max 0 (same_cat_count (length same) m)) as H1.
    { destruct (0 <? same_cat_count _ m).
      - apply random_sample_length in E1. lia.
      - injection E1 as <- _. simpl. lia. }
    assert (Z.of_nat (length fo)
            <= Z.max 0 (other_count (length same) (length other) m)) as H2.
    { destruct (0 <? other_count _ _ m).
      - apply random_sample_length in E2. lia.
      - injection E2 as <- _. simpl. lia. }
    unfold other_count, same_cat_count in *. lia.
  - destruct (_ <=? m) eqn:E.
    + intros [= <- _]. lia.
    + intros H. apply random_sample_length in H. lia.
  - intros [= <- _]. rewrite slice_to_length by exact Hm. lia.
Qed.

(** X15: with a non-negative [max_targets] a selector returns at most
    [max_targets] pages; the category, random and rank selectors return
    exactly [min(max_targets, pool size)]. *)
Theorem selected_targets_at_most (sel : selector) (source_page : page)
    (candidates : list page) (m : Z) (g : rng) (targets : list page)
    (g' : rng) :
  0 <= m ->
  select_targets sel source_page candidates m g = Some (targets, g') ->
  Z.of_nat (length targets) <= m
  /\ match sel with
     | CategorySelector =>
         Z.of_nat (length targets) = Z.min m (count_same source_page candidates)
     | SemanticSelector => True
     | RandomSelector | PageRankSelector _ =>
         Z.of_nat (length targets) = Z.min m (Z.of_nat (length candidates))
     end.
Proof.
  intros Hm E. split; [exact (select_targets_length_le _ _ _ _ _ _ _ Hm E)|].
  revert E. destruct sel as [| | |high]; simpl; [| exact (fun _ => I) | |].
  - unfold count_same. destruct (_ <=? m) eqn:E.
    + intros [= <- _]. lia.
    + intros H. apply random_sample_length in H. lia.
  - destruct (_ <=? m) eqn:E.
    + intros [= <- _]. lia.
    + intros H. apply random_sample_length in H. lia.
  - intros [= <- _]. rewrite slice_to_length by exact Hm.
    pose proof (Permutation_length
                  (sorted_perm page_current_pagerank high candidates)) as Hl.
    rewrite Hl. lia.
Qed.

Lemma selected_targets_at_most_witness :
  let pg i c := Page i "" "product" c 0%Q in
  let candidates := [pg 2 "a"; pg 3 "a"; pg 4 "b"; pg 5 "a"] in
  exists targets g',
    select_targets RandomSelector (pg 1 "a") candidates 3 [1; 1; 5]%nat
    = Some (targets, g')
    /\ Z.of_nat (length targets) = 3.
Proof.
  intros pg candidates.
  destruct (select_targets RandomSelector (pg 1 "a") candidates 3 [1; 1; 5]%nat)
    as [[targets g']|] eqn:E; [|exfalso; vm_compute in E; discriminate].
  exists targets, g'. split; [reflexivity|].
  exact (proj2 (selected_targets_at_most RandomSelector _ _ 3 _ _ _
                  ltac:(lia) E)).
Defined.


Lemma insert_sorted_StronglySorted {A : Type} (before : A -> A -> bool)
    (x : A) (l : list A) :
  (forall a b, before a b = false -> before b a = true) ->
  (forall a b c, before a b = true -> before b c = true -> before a c = true) ->
  StronglySorted (fun a b => before a b = true) l ->
  StronglySorted (fun a b => before a b = true) (insert_sorted before x l).
Proof.
  intros Htot Htrans. induction 1 as [|y l Hl IH Hy]; simpl.
  - constructor; constructor.
  - destruct (before x y) eqn:E.
    + constructor; [now constructor|]. constructor; [exact E|].
      eapply Forall_impl; [exact Hy|]. intros z Hz. simpl in *. eauto.
    + constructor; [exact IH|].
      rewrite (insert_sorted_perm before x l). constructor; [auto | exact Hy].
Qed.

Lemma sorted_StronglySorted {A : Type} (key : A -> Q) (reverse : bool)
    (l : list A) :
  StronglySorted
    (fun a b => if reverse then (key b <= key a)%Q else (key a <= key b)%Q)
    (sorted key reverse l).
Proof.
  set (before (x y : A) :=
         if reverse then Qle_bool (key y) (key x) else Qle_bool (key x) (key y)).
  assert (forall a b, before a b = true
                      <-> if reverse then (key b <= key a)%Q
                          else (key a <= key b)%Q) as Hb.
  { intros a b. unfold before. destruct reverse; apply Qle_bool_iff. }
  assert (StronglySorted (fun a b => before a b = true) (sorted key reverse l))
    as H.
  { unfold sorted. fold before. induction l as [|x l IH]; simpl; [constructor|].
    apply insert_sorted_StronglySorted; [| |exact IH].
    - intros a b E. apply Hb.
      assert (~ before a b = true) as N by congruence.
      rewrite Hb in N. destruct reverse; lra.
    - intros a b c H1 H2. apply Hb. apply Hb in H1, H2.
      destruct reverse; lra. }
  clear -H Hb. induction H as [|x l' _ IH Hx]; constructor; [exact IH|].
  eapply Forall_impl; [exact Hx|]. intros y Hy. now apply Hb.
Qed.

(** X16: the rank selector keeps the best-ranked candidates for
    [pagerank_high] and the worst-ranked for [pagerank_low], in rank
    order, and consumes no randomness. *)
Theorem pagerank_selector_takes_top (high : bool) (source_page : page)
    (candidates : list page) (m : Z) (g : rng) (targets : list page)
    (g' : rng) :
  let ahead (x y : page) :=
    if high then (page_current_pagerank y <= page_current_pagerank x)%Q
    else (page_current_pagerank x <= page_current_pagerank y)%Q in
  select_targets (PageRankSelector high) source_page candidates m g
  = Some (targets, g') ->
  g' = g
  /\ StronglySorted ahead targets
  /\ exists rest,
       targets ++ rest ≡ₚ candidates
       /\ forall x y, x ∈ targets -> y ∈ rest -> ahead x y.
Proof.
  intros ahead. simpl. intros [= <- <-]. split; [reflexivity|].
  pose proof (sorted_StronglySorted page_current_pagerank high candidates)
    as Hs. fold ahead in Hs.
  set (l := sorted page_current_pagerank high candidates) in *.
  assert (exists k, slice_to l m = take k l) as [k ->].
  { unfold slice_to. destruct (0 <=? m); eauto. }
  rewrite <- (take_drop k l) in Hs.
  split; [eapply StronglySorted_app_1_l, Hs|].
  exists (drop k l). split.
  - rewrite take_drop. apply sorted_perm.
  - intros x y Hx Hy. eapply StronglySorted_app_1_elem_of; eassumption.
Qed.

Lemma pagerank_selector_takes_top_witness :
  let pg i r := Page i "" "product" "a" r in
  let candidates := [pg 2 (1 # 10); pg 3 (4 # 10); pg 4 (2 # 10)] in
  exists targets,
    select_targets (PageRankSelector true) (pg 1 0%Q) candidates 2 []
    = Some (targets, [])
    /\ StronglySorted
         (fun x y => (page_current_pagerank y <= page_current_pagerank x)%Q)
         targets.
Proof.
  intros pg candidates.
  destruct (select_targets (PageRankSelector true) (pg 1 0%Q) candidates 2 [])
    as [[targets g']|] eqn:E; [|exfalso; vm_compute in E; discriminate].
  destruct (pagerank_selector_takes_top true _ _ _ _ _ _ E) as (-> & Hs & _).
  exists targets. split; [reflexivity | exact Hs].
Defined.


Lemma int_mul_07_negative (m : Z) : m < 0 -> m <= Float64.int_mul_07 m <= 0.
Proof.
  intros Hm. pose proof (int_mul_07_bounds (Z.abs m) ltac:(lia)) as H.
  unfold Float64.int_mul_07 in *.
  replace (Z.abs (Z.abs m)) with (Z.abs m) in H by lia.
  rewrite (Z.sgn_pos (Z.abs m)) in H by lia.
  rewrite Z.sgn_neg by lia. lia.
Qed.

(** X17: a negative [max_targets] makes the category and random
    selectors raise, the relevance mix return nothing, and the rank
    selector drop the last [-max_targets] pages of its order. *)
Theorem negative_max_targets (source_page : page) (candidates : list page)
    (m : Z) (g : rng) :
  m < 0 ->
  select_targets CategorySelector source_page candidates m g = None
  /\ select_targets RandomSelector source_page candidates m g = None
  /\ select_targets SemanticSelector source_page candidates m g = Some ([], g)
  /\ forall high,
       select_targets (PageRankSelector high) source_page candidates m g
       = Some (take (Z.to_nat (Z.of_nat (length candidates) + m))
                 (sorted page_current_pagerank high candidates), g).
Proof.
  intros Hm. repeat split.
  - simpl. destruct (_ <=? m) eqn:E; [apply Z.leb_le in E; lia|].
    unfold random_sample.
    destruct (m <? 0) eqn:E'; [reflexivity | apply Z.ltb_ge in E'; lia].
  - simpl. destruct (_ <=? m) eqn:E; [apply Z.leb_le in E; lia|].
    unfold random_sample.
    destruct (m <? 0) eqn:E'; [reflexivity | apply Z.ltb_ge in E'; lia].
  - simpl. set (same := filter _ candidates). set (other := filter _ candidates).
    pose proof (int_mul_07_negative m Hm) as Hb.
    assert ((0 <? same_cat_count (length same) m) = false) as ->.
    { apply Z.ltb_ge. unfold same_cat_count. lia. }
    assert ((0 <? other_count (length same) (length other) m) = false) as ->.
    { apply Z.ltb_ge. unfold other_count, same_cat_count. lia. }
    reflexivity.
  - intros high. simpl. unfold slice_to.
    destruct (0 <=? m) eqn:E; [apply Z.leb_le in E; lia|].
    rewrite (Permutation_length
               (sorted_perm page_current_pagerank high candidates)).
    reflexivity.
Qed.

Lemma negative_max_targets_witness :
  let pg i c := Page i "" "product" c 0%Q in
  select_targets RandomSelector (pg 1 "a") [pg 2 "a"; pg 3 "b"] (-1) [] = None.
Proof.
  intros pg.
  apply (negative_max_targets (pg 1 "a") [pg 2 "a"; pg 3 "b"] (-1) []). lia.
Defined.

End SelectorFacts.

(** ** The 70% count in double precision *)

Module RoundingFacts.
Import Float64 Float64Facts.
Local Open Scope Z_scope.

Lemma round53_lower (x : Z) :
  0 <= x -> 9007199254740991 * x <= 9007199254740992 * round53 x.
Proof.
  intros Hx. unfold round53.
  destruct (Z.log2 x + 1 <=? 53) eqn:Eb; [lia|].
  apply Z.leb_gt in Eb.
  assert (0 < x) as Hpos.
  { destruct (Z.eq_dec x 0) as [->|]; [simpl in Eb; lia | lia]. }
  set (sh := Z.log2 x + 1 - 53) in *.
  assert (1 <= sh) as Hsh by lia.
  rewrite Z.shiftr_div_pow2 by lia.
  set (P := 2 ^ sh). set (h := 2 ^ (sh - 1)).
  assert (P = 2 * h) as HP.
  { unfold P, h. replace sh with (Z.succ (sh - 1)) at 1 by lia.
    apply Z.pow_succ_r. lia. }
  assert (0 < h) as Hh by (apply Z.pow_pos_nonneg; lia).
  pose proof (Z.div_mod x P ltac:(lia)) as Hdm.
  pose proof (Z.mod_pos_bound x P ltac:(lia)) as Hr.
  set (q := x / P) in *. set (r := x mod P) in *.
  assert (4503599627370496 <= q) as Hq.
  { unfold q. apply Z.div_le_lower_bound; [lia|].
    destruct (Z.log2_spec x Hpos) as [Hlo _].
    replace (Z.log2 x) with (sh + 52) in Hlo by lia.
    rewrite Z.pow_add_r in Hlo by lia. fold P in Hlo.
    change (2 ^ 52) with 4503599627370496 in Hlo. lia. }
  assert (forall q', 0 <= q' -> Z.shiftl q' sh = q' * P) as Hshl.
  { intros q' _. apply Z.shiftl_mul_pow2. lia. }
  assert (4503599627370496 * P <= P * q) as HPq by nia.
  destruct (r <? h) eqn:E1; [apply Z.ltb_lt in E1; rewrite Hshl by lia; nia|].
  apply Z.ltb_ge in E1.
  destruct (h <? r) eqn:E2; [rewrite Hshl by lia; nia|].
  apply Z.ltb_ge in E2.
  destruct (Z.even q); rewrite Hshl by lia; nia.
Qed.

Lemma round53_exact (x : Z) : 0 <= x < 9007199254740992 -> round53 x = x.
Proof.
  intros Hx. unfold round53.
  destruct (Z.log2 x + 1 <=? 53) eqn:Eb; [reflexivity|].
  apply Z.leb_gt in Eb. exfalso.
  destruct (Z.eq_dec x 0) as [->|Hne]; [simpl in Eb; lia|].
  assert (Z.log2 x < 53); [|lia].
  apply Z.log2_lt_pow2; [lia|].
  change (2 ^ 53) with 9007199254740992. lia.
Qed.

(** X18: [int(m * 0.7)] in double precision is the exact floor of 0.7 m
    unless [m] is a multiple of 10, where it can be one less. *)
Theorem int_mul_07_off_by_one (m : Z) :
  0 <= m < 2 ^ 49 ->
  7 * m / 10 - 1 <= int_mul_07 m <= 7 * m / 10
  /\ (m mod 10 <> 0 -> int_mul_07 m = 7 * m / 10).
Proof.
  change (2 ^ 49) with 562949953421312. intros Hm. unfold int_mul_07.
  destruct (Z.eq_dec m 0) as [->|Hne];
    [split; [vm_compute; split; discriminate
            | intros H; exfalso; apply H; reflexivity]|].
  rewrite Z.sgn_pos, Z.abs_eq, Z.mul_1_l by lia.
  rewrite (round53_exact m) by lia.
  assert (0 <= m * significand_07) as Hprod by (unfold significand_07; lia).
  destruct (round53_bounds _ Hprod) as [Hb0 Hup].
  pose proof (round53_lower _ Hprod) as Hlo.
  set (b := round53 (m * significand_07)) in *.
  unfold significand_07 in Hup, Hlo.
  rewrite Z.shiftr_div_pow2 by lia.
  change (2 ^ 53) with 9007199254740992.
  pose proof (Z.div_mod b 9007199254740992 ltac:(lia)) as Hb.
  pose proof (Z.mod_pos_bound b 9007199254740992 ltac:(lia)) as Hbr.
  pose proof (Z.div_mod (7 * m) 10 ltac:(lia)) as Hf.
  pose proof (Z.mod_pos_bound (7 * m) 10 ltac:(lia)) as Hfr.
  pose proof (Z.div_mod m 10 ltac:(lia)) as Hm10.
  pose proof (Z.mod_pos_bound m 10 ltac:(lia)) as Hm10r.
  set (k := b / 9007199254740992) in *.
  set (f := 7 * m / 10) in *.
  set (r := (7 * m) mod 10) in *.
  split; [lia|].
  intros Hnz.
  assert (r <> 0) as Hr.
  { unfold r. intros E. apply Hnz.
    apply Z.mod_divide in E; [|lia].
    apply Z.mod_divide; [lia|].
    apply (Z.gauss 10 7 m); [exact E | reflexivity]. }
  lia.
Qed.

Lemma int_mul_07_off_by_one_witness :
  7 * 90 / 10 - 1 <= int_mul_07 90 <= 7 * 90 / 10
  /\ (90 mod 10 <> 0 -> int_mul_07 90 = 7 * 90 / 10).
Proof. apply (int_mul_07_off_by_one 90). split; [lia | reflexivity]. Defined.

End RoundingFacts.

(** ** The rule engine *)

Module EngineFacts.
Import Rules Spec Float64Facts RulesFacts SelectorFacts.
Local Open Scope Z_scope.

(** *** Page filters *)

Lemma lower_filter_elem {fold : CaseFolding} (x : string) (l : list string) :
  lower x ∈ map lower l <-> exists t, t ∈ l /\ lower t = lower x.
Proof.
  change (map lower l) with (lower <$> l). rewrite list_elem_of_fmap.
  split; intros (t & H1 & H2); exists t; auto.
Qed.

Lemma filter_pages_sublist {fold : CaseFolding} (pages : list page)
    (types_filter categories_filter : list string) :
  filter_pages_by_criteria pages types_filter categories_filter
    `sublist_of` pages.
Proof.
  unfold filter_pages_by_criteria.
  destruct types_filter, categories_filter; try reflexivity;
    repeat (etrans; [apply sublist_filter|]); reflexivity.
Qed.

(** X19: a page passes the filter exactly when [str.lower] of its type
    equals [str.lower] of an entry of the type list and [str.lower] of
    its category equals [str.lower] of an entry of the category list,
    an empty list matching every page; the pages kept stay in their
    order.  This holds whatever [str.lower] does to a string. *)
Theorem filter_pages_by_criteria_spec {fold : CaseFolding} (pages : list page)
    (types_filter categories_filter : list string) :
  filter_pages_by_criteria pages types_filter categories_filter
    `sublist_of` pages
  /\ forall pg,
       pg ∈ filter_pages_by_criteria pages types_filter categories_filter
       <-> pg ∈ pages
           /\ (types_filter = []
               \/ exists t, t ∈ types_filter /\ lower t = lower (page_type pg))
           /\ (categories_filter = []
               \/ exists c, c ∈ categories_filter
                            /\ lower c = lower (page_category pg)).
Proof.
  split; [apply filter_pages_sublist|].
  unfold filter_pages_by_criteria.
  - intros pg.
    destruct types_filter as [|t ts], categories_filter as [|c cs].
    + split; [intros H; repeat split; auto | tauto].
    + rewrite list_elem_of_filter, lower_filter_elem. split.
      * intros [H1 H2]. repeat split; auto.
      * intros (H1 & _ & [H|H]); [discriminate | auto].
    + rewrite list_elem_of_filter, lower_filter_elem. split.
      * intros [H1 H2]. repeat split; auto.
      * intros (H1 & [H|H] & _); [discriminate | auto].
    + rewrite !list_elem_of_filter, !lower_filter_elem. split.
      * intros (H1 & H2 & H3). repeat split; auto.
      * intros (H1 & [H|H] & [H'|H']); try discriminate. auto.
Qed.

(** *** One rule *)

Lemma create_links_spec (existing : gset link) (bidir : bool) (source_id : Z)
    (targets : list page) (l : link) :
  l ∈ create_links existing bidir source_id targets
  <-> exists t, t ∈ targets /\ ((source_id, page_id t) ∉ existing)
                /\ (l = (source_id, page_id t)
                    \/ (bidir = true /\ ((page_id t, source_id) ∉ existing)
                        /\ l = (page_id t, source_id))).
Proof.
  unfold create_links. rewrite list_elem_of_In, in_flat_map. split.
  - intros (t & Ht & Hl). exists t. split; [now apply list_elem_of_In|].
    destruct (decide _) as [|Hn]; [destruct Hl|]. split; [exact Hn|].
    destruct Hl as [<-|Hl]; [now left|].
    destruct bidir; [|destruct Hl].
    destruct (decide _) as [|Hn']; [destruct Hl|].
    destruct Hl as [<-|[]]. right. auto.
  - intros (t & Ht & Hn & Hl). exists t. split; [now apply list_elem_of_In|].
    destruct (decide _) as [|_]; [contradiction|].
    destruct Hl as [->|(-> & Hn' & ->)]; [now left|].
    right. destruct (decide _) as [|_]; [contradiction|]. now left.
Qed.

Lemma create_links_length (existing : gset link) (bidir : bool)
    (source_id : Z) (targets : list page) :
  (length (create_links existing bidir source_id targets)
   <= (if bidir then 2 else 1) * length targets)%nat.
Proof.
  unfold create_links. induction targets as [|t ts IH]; simpl; [lia|].
  rewrite length_app.
  destruct (decide _); simpl; [destruct bidir; lia|].
  destruct bidir; [destruct (decide _)|]; simpl; lia.
Qed.

Section SingleRuleMore.

Variables (existing : gset link) (target_pages : list page).
Variables (sel : selector) (per_page : Z) (bidir avoid : bool).

Lemma for_sources_spec source_pages g links g' (l : link) :
  for_sources existing target_pages sel per_page bidir avoid source_pages g
  = Some (links, g') ->
  l ∈ links ->
  exists src selected g1 g2,
    src ∈ source_pages
    /\ select_targets sel src
         (if avoid then filter (fun pg => page_id pg ≠ page_id src) target_pages
          else target_pages) per_page g1 = Some (selected, g2)
    /\ l ∈ create_links existing bidir (page_id src) selected
    /\ forall l', l' ∈ create_links existing bidir (page_id src) selected ->
                  l' ∈ links.
Proof.
  revert g links g'. induction source_pages as [|src rest IH];
    intros g links g'; simpl.
  - intros [= <- _] H. now apply elem_of_nil in H.
  - destruct (select_targets _ _ _ _ _) as [[selected g1]|] eqn:Es;
      [|discriminate].
    destruct (for_sources _ _ _ _ _ _ rest g1) as [[more g2]|] eqn:Er;
      [|discriminate].
    intros [= <- _] H. apply elem_of_app in H as [H|H].
    + exists src, selected, g, g1. split; [now left|]. split; [exact Es|].
      split; [exact H|]. intros l' Hl'. apply elem_of_app. now left.
    + destruct (IH _ _ _ Er H) as (s & sl & ga & gb & Hs & Hsel & Hl & Hall).
      exists s, sl, ga, gb. split; [now right|]. split; [exact Hsel|].
      split; [exact Hl|]. intros l' Hl'. apply elem_of_app. right. auto.
Qed.

Lemma for_sources_length source_pages g links g' :
  0 <= per_page ->
  for_sources existing target_pages sel per_page bidir avoid source_pages g
  = Some (links, g') ->
  Z.of_nat (length links)
  <= (if bidir then 2 else 1) * per_page * Z.of_nat (length source_pages).
Proof.
  intros Hm. revert g links g'. induction source_pages as [|src rest IH];
    intros g links g'; simpl length.
  - simpl. intros [= <- _]. simpl. lia.
  - simpl. destruct (select_targets _ _ _ _ _) as [[selected g1]|] eqn:Es;
      [|discriminate].
    destruct (for_sources _ _ _ _ _ _ rest g1) as [[more g2]|] eqn:Er;
      [|discriminate].
    intros [= <- _]. rewrite length_app.
    pose proof (IH _ _ _ Er) as Hrest.
    pose proof (select_targets_length_le _ _ _ _ _ _ _ Hm Es) as Hsel.
    pose proof (create_links_length existing bidir (page_id src) selected)
      as Hc.
    destruct bidir; nia.
Qed.

End SingleRuleMore.


(** X20: a rule adds at most [links_per_page] links per source page,
    twice as many when it is bidirectional; with [links_per_page = 0]
    it adds none. *)
Theorem rule_link_budget {fold : CaseFolding}
    (pages : list page) (existing : gset link)
    (cfg : rule_config) (g : rng) (links : list link) (g' : rng) :
  0 <= links_per_page cfg ->
  apply_single_rule pages existing cfg g = Some (links, g') ->
  Z.of_nat (length links)
  <= (if bidirectional cfg then 2 else 1) * links_per_page cfg
     * Z.of_nat (length (filter_pages_by_criteria pages (source_types cfg)
                           (source_categories cfg)))
  /\ (links_per_page cfg = 0 -> links = []).
Proof.
  intros Hm E. unfold apply_single_rule in E.
  pose proof (for_sources_length _ _ _ _ _ _ _ _ _ _ Hm E) as H.
  split; [exact H|]. intros Hz. rewrite Hz in H.
  destruct links; [reflexivity | simpl in H; lia].
Qed.

Lemma rule_link_budget_witness :
  let pg i c := Page i "" "product" c 0%Q in
  let pages := [pg 1 "a"; pg 2 "a"; pg 3 "a"] in
  let cfg := RuleConfig [] [] [] [] "random" 0 true true in
  exists links g',
    apply_single_rule (fold := ascii_lower)
        pages ∅ cfg [4; 2]%nat = Some (links, g')
    /\ links = [].
Proof.
  intros pg pages cfg.
  destruct (apply_single_rule (fold := ascii_lower)
      pages ∅ cfg [4; 2]%nat) as [[links g']|] eqn:E;
    [|exfalso; vm_compute in E; discriminate].
  exists links, g'. split; [reflexivity|].
  exact (proj2 (rule_link_budget (fold := ascii_lower) pages ∅
                  (RuleConfig [] [] [] [] "random" 0 true true) _ _ _
                  ltac:(simpl; lia) E) eq_refl).
Defined.

(** X21: every link of a rule leads from a page that passes the source
    filter to a page that passes the target filter, or back when the
    rule is bidirectional; the engine only links ids of given pages. *)
Theorem links_join_filtered_pages {fold : CaseFolding} :
  (forall pages existing cfg g links g' (l : link),
      apply_single_rule pages existing cfg g = Some (links, g') ->
      l ∈ links ->
      exists src tgt,
        src ∈ filter_pages_by_criteria pages (source_types cfg)
                (source_categories cfg)
        /\ tgt ∈ filter_pages_by_criteria pages (target_types cfg)
                   (target_categories cfg)
        /\ (l = (page_id src, page_id tgt)
            \/ (bidirectional cfg = true /\ l = (page_id tgt, page_id src))))
  /\ (forall rules_config pages existing_links g links g' (l : link),
        generate_links rules_config pages existing_links g = Some (links, g') ->
        l ∈ links ->
        l.1 ∈ map page_id pages /\ l.2 ∈ map page_id pages).
Proof.
  assert (forall pages existing cfg g links g' (l : link),
      apply_single_rule pages existing cfg g = Some (links, g') ->
      l ∈ links ->
      exists src tgt,
        src ∈ filter_pages_by_criteria pages (source_types cfg)
                (source_categories cfg)
        /\ tgt ∈ filter_pages_by_criteria pages (target_types cfg)
                   (target_categories cfg)
        /\ (l = (page_id src, page_id tgt)
            \/ (bidirectional cfg = true /\ l = (page_id tgt, page_id src))))
    as Hrule.
  { intros pages existing cfg g links g' l E Hl. unfold apply_single_rule in E.
    destruct (for_sources_spec _ _ _ _ _ _ _ _ _ _ l E Hl)
      as (src & selected & g1 & g2 & Hsrc & Hsel & Hc & _).
    apply create_links_spec in Hc as (t & Ht & _ & Hor).
    exists src, t. split; [exact Hsrc|]. split.
    - eapply select_targets_elem in Hsel; [|exact Ht].
      destruct (avoid_self_links cfg); [|exact Hsel].
      now apply list_elem_of_filter in Hsel as [_ Hsel].
    - destruct Hor as [->|(Hb & _ & ->)]; auto. }
  split; [exact Hrule|].
  intros rules pages existing g links g' l E Hl. unfold generate_links in E.
  apply (for_rules_origin
           (fun l => l.1 ∈ map page_id pages /\ l.2 ∈ map page_id pages)
           pages rules _ _ _ _) with (l := l) in E; auto.
  - apply Forall_forall. intros cfg _ set g0 rl g1 Ea l0 Hl0.
    destruct (Hrule _ _ _ _ _ _ l0 Ea Hl0) as (src & tgt & Hs & Ht & Hor).
    assert (forall pg ts cs, pg ∈ filter_pages_by_criteria pages ts cs ->
                             page_id pg ∈ map page_id pages) as Hin.
    { intros pg ts cs H. change (map page_id pages) with (page_id <$> pages).
      apply list_elem_of_fmap_2.
      eapply sublist_subseteq; [|exact H].
      apply filter_pages_sublist. }
    destruct Hor as [->|[_ ->]]; simpl; split; eauto.
  - simpl. intros l0 H0. now apply elem_of_nil in H0.
Qed.


Lemma links_join_filtered_pages_witness :
  let pg i t := Page i "" t "a" 0%Q in
  let pages := [pg 1 "product"; pg 2 "blog"; pg 3 "blog"] in
  let cfg := RuleConfig ["Product"] [] ["BLOG"] [] "random" 1 false true in
  exists links g',
    generate_links (fold := ascii_lower)
        [cfg] pages [] [1]%nat = Some (links, g')
    /\ forall l : link, l ∈ links ->
         l.1 ∈ map page_id pages /\ l.2 ∈ map page_id pages.
Proof.
  intros pg pages cfg.
  destruct (generate_links (fold := ascii_lower)
      [cfg] pages [] [1]%nat) as [[links g']|] eqn:E;
    [|exfalso; vm_compute in E; discriminate].
  exists links, g'. split; [reflexivity|].
  intros l. exact (proj2 (links_join_filtered_pages (fold := ascii_lower))
      _ _ _ _ _ _ l E).
Defined.

(** *** Bidirectional rules *)

Lemma add_new_links_set (acc : list link * gset link) (rule_links : list link)
    (l : link) :
  l ∈ (add_new_links acc rule_links).2 <-> l ∈ acc.2 \/ l ∈ rule_links.
Proof.
  unfold add_new_links. revert acc.
  induction rule_links as [|x rl IH]; intros acc; simpl.
  - split; [now left | intros [H|H]; [exact H | now apply elem_of_nil in H]].
  - rewrite elem_of_cons. destruct (decide (x ∈ acc.2)) as [Hx|Hx].
    + rewrite IH. split; [tauto|]. intros [H|[->|H]]; auto.
    + rewrite IH. simpl. rewrite elem_of_union, elem_of_singleton. tauto.
Qed.

Lemma add_new_links_list (acc : list link * gset link) (rule_links : list link)
    (l : link) :
  l ∈ (add_new_links acc rule_links).1 ->
  l ∈ acc.1 \/ l ∈ rule_links.
Proof.
  unfold add_new_links. revert acc.
  induction rule_links as [|x rl IH]; intros acc; simpl; [now left|].
  rewrite elem_of_cons. destruct (decide (x ∈ acc.2)) as [Hx|Hx].
  - intros H. apply IH in H. tauto.
  - intros H. apply IH in H. simpl in H. rewrite elem_of_app in H.
    destruct H as [[H|H]|H]; auto.
    apply list_elem_of_singleton in H. auto.
Qed.

Lemma add_new_links_keeps (acc : list link * gset link)
    (rule_links : list link) (l : link) :
  l ∈ acc.1 -> l ∈ (add_new_links acc rule_links).1.
Proof.
  unfold add_new_links. revert acc.
  induction rule_links as [|x rl IH]; intros acc H; simpl; [exact H|].
  destruct (decide (x ∈ acc.2)); apply IH; [exact H|].
  simpl. apply elem_of_app. now left.
Qed.


Lemma add_new_links_set_origin (acc : list link * gset link)
    (rule_links : list link) (l : link) :
  l ∈ (add_new_links acc rule_links).2 ->
  l ∈ acc.2 \/ l ∈ (add_new_links acc rule_links).1.
Proof.
  revert acc. induction rule_links as [|x rl IH]; intros acc; [now left|].
  unfold add_new_links. simpl. destruct (decide (x ∈ acc.2)) as [Hx|Hx].
  - apply IH.
  - intros H. apply IH in H as [H|H]; [|now right]. simpl in H.
    apply elem_of_union in H as [H|H]; [|now left].
    apply elem_of_singleton in H as ->. right.
    apply (add_new_links_keeps (acc.1 ++ [x], {[x]} ∪ acc.2) rl).
    simpl. apply elem_of_app. right. now left.
Qed.

Lemma rule_reverse {fold : CaseFolding}
    (pages : list page) (existing : gset link)
    (cfg : rule_config) (g : rng) (links : list link) (g' : rng) (a b : Z) :
  bidirectional cfg = true ->
  apply_single_rule pages existing cfg g = Some (links, g') ->
  (a, b) ∈ links -> (b, a) ∈ links \/ (b, a) ∈ existing.
Proof.
  intros Hb E Hl. unfold apply_single_rule in E. rewrite Hb in E.
  destruct (for_sources_spec _ _ _ _ _ _ _ _ _ _ _ E Hl)
    as (src & selected & g1 & g2 & _ & _ & Hc & Hall).
  apply create_links_spec in Hc as (t & Ht & Hn & Hor).
  destruct Hor as [[= -> ->]|(_ & Hn' & [= -> ->])].
  - destruct (decide ((page_id t, page_id src) ∈ existing)) as [|Hr];
      [now right|].
    left. apply Hall, create_links_spec. exists t. repeat split; auto.
  - left. apply Hall, create_links_spec. exists t. repeat split; auto.
Qed.

Lemma for_rules_reverse {fold : CaseFolding}
    (pages : list page) (rules : list rule_config)
    (E0 : gset link) (acc : list link * gset link) (g : rng)
    (links : list link) (g' : rng) :
  Forall (fun cfg => bidirectional cfg = true) rules ->
  (forall a b, (a, b) ∈ acc.1 -> (b, a) ∈ acc.2) ->
  (forall l, l ∈ acc.2 -> l ∈ acc.1 \/ l ∈ E0) ->
  for_rules pages rules acc g = Some (links, g') ->
  forall a b, (a, b) ∈ links -> (b, a) ∈ links \/ (b, a) ∈ E0.
Proof.
  intros Hrules. revert acc g.
  induction Hrules as [|cfg rest Hcfg _ IH]; intros acc g H1 H2; simpl.
  - intros [= <- _] a b Hab. auto.
  - destruct (apply_single_rule pages acc.2 cfg g) as [[rl g1]|] eqn:Ea;
      [|discriminate].
    apply IH.
    + intros a b Hab. apply add_new_links_set.
      apply add_new_links_list in Hab as [Hab|Hab]; [left; auto|].
      destruct (rule_reverse _ _ _ _ _ _ _ _ Hcfg Ea Hab); auto.
    + intros l Hl. apply add_new_links_set_origin in Hl as [Hl|Hl]; [|now left].
      destruct (H2 l Hl) as [?|?]; [left|now right].
      now apply add_new_links_keeps.
Qed.

(** X22: after bidirectional rules every new link has its reverse among
    the new or the existing links. *)
Theorem bidirectional_links_are_mirrored {fold : CaseFolding} :
  (forall pages existing cfg g links g' a b,
      bidirectional cfg = true ->
      apply_single_rule pages existing cfg g = Some (links, g') ->
      (a, b) ∈ links -> (b, a) ∈ links \/ (b, a) ∈ existing)
  /\ (forall rules_config pages existing_links g links g' a b,
        Forall (fun cfg => bidirectional cfg = true) rules_config ->
        generate_links rules_config pages existing_links g = Some (links, g') ->
        (a, b) ∈ links -> (b, a) ∈ links \/ (b, a) ∈ existing_links).
Proof.
  split; [exact rule_reverse|].
  intros rules pages existing g links g' a b Hrules E Hab.
  unfold generate_links in E.
  pose proof (for_rules_reverse pages rules (list_to_set existing)
                ([], list_to_set existing) g links g' Hrules) as Hrev.
  simpl in Hrev.
  destruct (Hrev ltac:(intros ? ? H; now apply elem_of_nil in H)
              ltac:(auto) E a b Hab) as [H|H]; [now left|].
  right. now apply elem_of_list_to_set in H.
Qed.

Lemma bidirectional_links_are_mirrored_witness :
  let pg i c := Page i "" "product" c 0%Q in
  let pages := [pg 1 "a"; pg 2 "a"; pg 3 "a"] in
  let cfg := RuleConfig [] [] [] [] "category" 1 true true in
  exists links g',
    generate_links (fold := ascii_lower)
        [cfg] pages [(2, 1)] [0; 1]%nat = Some (links, g')
    /\ forall a b, (a, b) ∈ links -> (b, a) ∈ links \/ (b, a) ∈ [(2, 1)].
Proof.
  intros pg pages cfg.
  destruct (generate_links (fold := ascii_lower)
      [cfg] pages [(2, 1)] [0; 1]%nat)
    as [[links g']|] eqn:E; [|exfalso; vm_compute in E; discriminate].
  exists links, g'. split; [reflexivity|]. intros a b.
  apply (proj2 (bidirectional_links_are_mirrored (fold := ascii_lower))
      [cfg] pages [(2, 1)]
           [0; 1]%nat links g' a b); [|exact E].
  apply Forall_cons_2; [reflexivity | apply Forall_nil_2].
Defined.


(** *** Rules compose *)

Lemma add_new_links_shift (a b : list link) (set : gset link)
    (rule_links : list link) :
  add_new_links (a ++ b, set) rule_links
  = (a ++ (add_new_links (b, set) rule_links).1,
     (add_new_links (b, set) rule_links).2).
Proof.
  unfold add_new_links. revert b set.
  induction rule_links as [|x rl IH]; intros b set; simpl; [reflexivity|].
  destruct (decide (x ∈ set)); [apply IH|].
  rewrite <- app_assoc. apply IH.
Qed.

Lemma for_rules_shift {fold : CaseFolding}
    (pages : list page) (rules : list rule_config)
    (a b : list link) (set : gset link) (g : rng) :
  for_rules pages rules (a ++ b, set) g
  = match for_rules pages rules (b, set) g with
    | Some (l, g') => Some (a ++ l, g')
    | None => None
    end.
Proof.
  revert b set g. induction rules as [|cfg rest IH]; intros b set g; simpl;
    [reflexivity|].
  destruct (apply_single_rule pages set cfg g) as [[rl g1]|]; [|reflexivity].
  rewrite add_new_links_shift.
  destruct (add_new_links (b, set) rl) as [b' set'] eqn:E. simpl. apply IH.
Qed.

Lemma add_new_links_fresh (set : gset link) (rule_links : list link) :
  (add_new_links ([], set) rule_links).2
  = set ∪ list_to_set (add_new_links ([], set) rule_links).1.
Proof.
  apply set_eq. intros l. rewrite elem_of_union, elem_of_list_to_set. split.
  - apply (add_new_links_set_origin ([], set)).
  - intros [H|H]; apply add_new_links_set; [now left|].
    apply add_new_links_list in H as [H|H]; [|now right].
    now apply elem_of_nil in H.
Qed.

Lemma for_rules_app {fold : CaseFolding}
    (pages : list page) (r1 r2 : list rule_config)
    (acc : list link * gset link) (g : rng) :
  for_rules pages (r1 ++ r2) acc g
  = match for_rules pages r1 ([], acc.2) g with
    | Some (l1, g1) =>
        for_rules pages r2 (acc.1 ++ l1, acc.2 ∪ list_to_set l1) g1
    | None => None
    end.
Proof.
  revert acc g. induction r1 as [|cfg r1 IH]; intros [a set] g; simpl.
  - rewrite app_nil_r, (right_id_L ∅ (∪)). reflexivity.
  - destruct (apply_single_rule pages set cfg g) as [[rl g1]|]; [|reflexivity].
    rewrite IH.
    pose proof (add_new_links_shift a [] set rl) as Hs.
    rewrite app_nil_r in Hs. rewrite Hs. simpl.
    pose proof (add_new_links_fresh set rl) as Hf.
    destruct (add_new_links ([], set) rl) as [n set'] eqn:En. simpl in *.
    pose proof (for_rules_shift pages r1 n [] set' g1) as Hn.
    rewrite app_nil_r in Hn. rewrite Hn.
    destruct (for_rules pages r1 ([], set') g1) as [[l1 g2]|]; [|reflexivity].
    rewrite app_assoc, Hf, list_to_set_app_L, (assoc_L (∪)). reflexivity.
Qed.

(** X23: applying the rules [r1 ++ r2] is applying [r1], then [r2] with
    the links of [r1] counted as existing, and concatenating the two
    results. *)
Theorem generate_links_app {fold : CaseFolding}
    (r1 r2 : list rule_config) (pages : list page)
    (existing_links : list link) (g : rng) :
  generate_links (r1 ++ r2) pages existing_links g
  = match generate_links r1 pages existing_links g with
    | Some (l1, g1) =>
        match generate_links r2 pages (existing_links ++ l1) g1 with
        | Some (l2, g2) => Some (l1 ++ l2, g2)
        | None => None
        end
    | None => None
    end.
Proof.
  unfold generate_links. rewrite for_rules_app. simpl.
  destruct (for_rules pages r1 ([], list_to_set existing_links) g)
    as [[l1 g1]|]; [|reflexivity].
  pose proof (for_rules_shift pages r2 l1 []
                (list_to_set existing_links ∪ list_to_set l1) g1) as H.
  rewrite app_nil_r in H. rewrite H, list_to_set_app_L. reflexivity.
Qed.

(** *** The category strategy *)

Lemma category_targets_same (source_page : page) (candidates : list page)
    (m : Z) (g : rng) (targets : list page) (g' : rng) (t : page) :
  select_targets CategorySelector source_page candidates m g
  = Some (targets, g') ->
  t ∈ targets -> page_category t = page_category source_page.
Proof.
  simpl. intros E Ht.
  assert (t ∈ filter (fun pg => same_category source_page pg) candidates) as H.
  { destruct (_ <=? m); [now injection E as <- _|].
    eapply random_sample_elem; eassumption. }
  apply list_elem_of_filter in H as [H _]. unfold same_category in H.
  now apply bool_decide_unpack in H.
Qed.

(** X24: a rule whose strategy is [category], or an unknown name, only
    links pages of one category. *)
Theorem category_rule_links_within_category {fold : CaseFolding}
    (pages : list page)
    (existing : gset link) (cfg : rule_config) (g : rng) (links : list link)
    (g' : rng) (l : link) :
  get_selector (selection_method cfg) = CategorySelector ->
  apply_single_rule pages existing cfg g = Some (links, g') ->
  l ∈ links ->
  exists src tgt,
    src ∈ pages /\ tgt ∈ pages
    /\ page_category tgt = page_category src
    /\ (l = (page_id src, page_id tgt) \/ l = (page_id tgt, page_id src)).
Proof.
  intros Hsel E Hl. unfold apply_single_rule in E. rewrite Hsel in E.
  destruct (for_sources_spec _ _ _ _ _ _ _ _ _ _ l E Hl)
    as (src & selected & g1 & g2 & Hsrc & Hs & Hc & _).
  apply create_links_spec in Hc as (t & Ht & _ & Hor).
  exists src, t. split.
  { eapply sublist_subseteq; [apply filter_pages_sublist | exact Hsrc]. }
  split.
  { pose proof (select_targets_elem _ _ _ _ _ _ _ _ Hs Ht) as Hin.
    assert (t ∈ filter_pages_by_criteria pages (target_types cfg)
                  (target_categories cfg)) as Hin'.
    { destruct (avoid_self_links cfg); [|exact Hin].
      now apply list_elem_of_filter in Hin as [_ Hin]. }
    eapply sublist_subseteq; [apply filter_pages_sublist | exact Hin']. }
  split; [exact (category_targets_same _ _ _ _ _ _ _ Hs Ht)|].
  destruct Hor as [->|(_ & _ & ->)]; auto.
Qed.

Lemma category_rule_links_within_category_witness :
  let pg i c := Page i "" "product" c 0%Q in
  let pages := [pg 1 "a"; pg 2 "b"; pg 3 "a"] in
  let cfg := RuleConfig [] [] [] [] "category" 2 false true in
  exists links g',
    apply_single_rule (fold := ascii_lower) pages ∅ cfg [] = Some (links, g')
    /\ forall l : link, l ∈ links ->
         exists src tgt,
           src ∈ pages /\ tgt ∈ pages
           /\ page_category tgt = page_category src
           /\ (l = (page_id src, page_id tgt) \/ l = (page_id tgt, page_id src)).
Proof.
  intros pg pages cfg.
  destruct (apply_single_rule (fold := ascii_lower)
      pages ∅ cfg []) as [[links g']|] eqn:E;
    [|exfalso; vm_compute in E; discriminate].
  exists links, g'. split; [reflexivity|]. intros l.
  exact (category_rule_links_within_category (fold := ascii_lower) pages ∅
           (RuleConfig [] [] [] [] "category" 2 false true) [] links g' l
           eq_refl E).
Defined.

End EngineFacts.

(** ** Menu and footer templates *)

Module TemplateFacts.
Import QVec QVecFacts Templates.
Local Open Scope Q_scope.

(** The weight multiplier of a rule lies between 0.2 and 1; it is 1
    for a menu rule and 0.2 for a footer rule, whatever the link
    position. *)
Lemma link_weight_multiplier_range (config : rule_config) :
  2 # 10 <= get_link_weight_multiplier config <= 1
  /\ (target_selector config = "menu_modification" ->
      get_link_weight_multiplier config = 1)
  /\ (target_selector config = "footer_modification" ->
      get_link_weight_multiplier config = 2 # 10).
Proof.
  unfold get_link_weight_multiplier. split; [|split].
  - destruct (String.eqb _ "menu_modification"); [split; discriminate|].
    destruct (String.eqb _ "footer_modification"); [split; discriminate|].
    destruct (position_weights !! link_position config) as [w|] eqn:E;
      simpl; [|split; discriminate].
    apply elem_of_list_to_map_2 in E.
    repeat (apply elem_of_cons in E as [[= _ ->]|E]; [split; discriminate|]).
    now apply elem_of_nil in E.
  - intros ->. reflexivity.
  - intros ->. reflexivity.
Qed.

Lemma append_nil_l (s : string) : "" +:+ s = s.
Proof. reflexivity. Qed.

Lemma append_cons (c : Ascii.ascii) (s1 s2 : string) :
  String c s1 +:+ s2 = String c (s1 +:+ s2).
Proof. reflexivity. Qed.

Lemma append_nil_r (s : string) : s +:+ "" = s.
Proof.
  induction s as [|c s IH]; [reflexivity|]. now rewrite append_cons, IH.
Qed.

Lemma prefix_spec (s1 s2 : string) :
  String.prefix s1 s2 = true <-> exists post, s2 = s1 +:+ post.
Proof.
  revert s2. induction s1 as [|a s1 IH]; intros s2.
  - split; [intros _; now exists s2 | intros _; now destruct s2].
  - destruct s2 as [|b s2]; simpl.
    + split; [discriminate | intros [post H]; discriminate].
    + destruct (Ascii.ascii_dec a b) as [->|Hne].
      * rewrite IH. split; intros [post H]; exists post.
        -- rewrite append_cons. congruence.
        -- rewrite append_cons in H. congruence.
      * split; [discriminate|]. intros [post H].
        rewrite append_cons in H. injection H as ? _. congruence.
Qed.

Lemma contains_spec (needle hay : string) :
  contains needle hay = true
  <-> exists pre post, hay = pre +:+ needle +:+ post.
Proof.
  induction hay as [|c hay IH].
  - change (contains needle "") with (String.prefix needle "" || false).
    rewrite orb_true_iff, prefix_spec. split.
    + intros [[post H]|H]; [now exists "", post | discriminate].
    + intros (pre & post & H). left. destruct pre; [now exists post|].
      discriminate.
  - change (contains needle (String c hay))
      with (String.prefix needle (String c hay) || contains needle hay).
    rewrite orb_true_iff, prefix_spec, IH. split.
    + intros [[post H]|(pre & post & H)]; [now exists "", post|].
      exists (String c pre), post. rewrite append_cons. now rewrite H.
    + intros (pre & post & H). destruct pre as [|c' pre].
      * left. now exists post.
      * right. rewrite append_cons in H. exists pre, post. congruence.
Qed.

Lemma matches_spec (target_urls : list string) (url : string) :
  matches target_urls url = true
  <-> exists u pre post, u ∈ target_urls /\ url = pre +:+ u +:+ post.
Proof.
  unfold matches. rewrite existsb_exists. split.
  - intros (u & Hu & H). apply list_elem_of_In in Hu.
    apply orb_true_iff in H as [H|H].
    + apply String.eqb_eq in H as ->. exists url, "", "".
      split; [exact Hu|]. now rewrite append_nil_l, append_nil_r.
    + apply contains_spec in H as (pre & post & H). eauto.
  - intros (u & pre & post & Hu & H). exists u.
    split; [now apply list_elem_of_In|].
    apply orb_true_iff. right. apply contains_spec. eauto.
Qed.

Lemma link_to_targets_spec (source_pages : list page)
    (target_page_ids : list Z) (l : link) :
  l ∈ link_to_targets source_pages target_page_ids
  <-> exists src, src ∈ source_pages /\ l.1 = page_id src
                  /\ l.2 ∈ target_page_ids /\ l.1 <> l.2.
Proof.
  unfold link_to_targets. rewrite list_elem_of_In, in_flat_map. split.
  - intros (src & Hsrc & Hl). apply in_flat_map in Hl as (t & Ht & Hl).
    exists src. split; [now apply list_elem_of_In|].
    destruct (decide _) as [Hne|]; [|destruct Hl].
    destruct Hl as [<-|[]]. simpl. repeat split; auto.
    now apply list_elem_of_In.
  - intros (src & Hsrc & H1 & H2 & Hne). exists src.
    split; [now apply list_elem_of_In|].
    apply in_flat_map. exists l.2. split; [now apply list_elem_of_In|].
    destruct l as [a b]. simpl in *. subst a.
    destruct (decide _) as [|Hn]; [now left | contradiction].
Qed.

Lemma find_target_page_ids_spec (target_urls : list string)
    (pages : list page) (pid : Z) :
  pid ∈ find_target_page_ids target_urls pages
  <-> exists tgt, tgt ∈ pages /\ page_id tgt = pid
                  /\ matches target_urls (page_url tgt) = true.
Proof.
  unfold find_target_page_ids.
  change (map page_id ?l) with (page_id <$> l).
  rewrite list_elem_of_fmap. split.
  - intros (tgt & -> & H). apply list_elem_of_filter in H as [Hm Hin].
    exists tgt. repeat split; auto. now apply Is_true_true.
  - intros (tgt & Hin & <- & Hm). exists tgt. split; [reflexivity|].
    apply list_elem_of_filter. split; [now apply Is_true_true | exact Hin].
Qed.

Lemma menu_links_matches (config : rule_config) (pages : list page)
    (existing_links : list link) (l : link) :
  let action := default "add"%string (sf_action (source_filter config)) in
  let target_urls := default [] (sf_target_urls (source_filter config)) in
  l ∈ menu_generate_links config pages existing_links
  <-> (action = "add"%string \/ action = "remove"%string)
      /\ exists src tgt,
           src ∈ pages /\ tgt ∈ pages
           /\ matches target_urls (page_url tgt) = true
           /\ l = (page_id src, page_id tgt)
           /\ page_id src <> page_id tgt.
Proof.
  intros action target_urls. unfold menu_generate_links.
  fold action target_urls.
  assert (l ∈ link_to_targets pages (find_target_page_ids target_urls pages)
          <-> exists src tgt,
                src ∈ pages /\ tgt ∈ pages
                /\ matches target_urls (page_url tgt) = true
                /\ l = (page_id src, page_id tgt)
                /\ page_id src <> page_id tgt) as Hlinks.
  { rewrite link_to_targets_spec. split.
    - intros (src & Hsrc & H1 & H2 & Hne).
      apply find_target_page_ids_spec in H2 as (tgt & Ht & Hid & Hm).
      exists src, tgt. repeat split; auto.
      + destruct l; simpl in *; congruence.
      + congruence.
    - intros (src & tgt & Hsrc & Ht & Hm & -> & Hne). exists src. simpl.
      repeat split; auto. apply find_target_page_ids_spec. eauto. }
  destruct target_urls as [|u us] eqn:Eu.
  { split; [intros H; now apply elem_of_nil in H|].
    intros (_ & src & tgt & _ & _ & Hm & _). discriminate. }
  rewrite <- Eu in *.
  destruct (find_target_page_ids target_urls pages) as [|i rest] eqn:Ei.
  { split; [intros H; now apply elem_of_nil in H|].
    intros (_ & H). apply Hlinks in H.
    apply link_to_targets_spec in H as (? & _ & _ & H & _).
    now apply elem_of_nil in H. }
  destruct (String.eqb action "add") eqn:Ea.
  { apply String.eqb_eq in Ea. rewrite Hlinks. intuition. }
  destruct (String.eqb action "remove") eqn:Er.
  { apply String.eqb_eq in Er. rewrite Hlinks. intuition. }
  apply String.eqb_neq in Ea, Er.
  split; [intros H; now apply elem_of_nil in H|].
  intros ([?|?] & _); contradiction.
Qed.


Lemma footer_links_matches {fold : Rules.CaseFolding}
    (config : rule_config) (pages : list page)
    (existing_links : list link) (l : link) :
  let action := default "add"%string (sf_action (source_filter config)) in
  let target_urls := default [] (sf_target_urls (source_filter config)) in
  let source_page_types :=
    default ["product"; "category"]%string
      (sf_source_types (source_filter config)) in
  l ∈ footer_generate_links config pages existing_links
  <-> (action = "add"%string \/ action = "remove"%string)
      /\ exists src tgt,
           src ∈ pages /\ tgt ∈ pages
           /\ Rules.lower (page_type src) ∈ map Rules.lower source_page_types
           /\ matches target_urls (page_url tgt) = true
           /\ l = (page_id src, page_id tgt)
           /\ page_id src <> page_id tgt.
Proof.
  intros action target_urls source_page_types. unfold footer_generate_links.
  fold action target_urls source_page_types.
  set (source_pages :=
         filter (fun pg => Rules.lower (page_type pg)
                           ∈ map Rules.lower source_page_types) pages).
  assert (l ∈ link_to_targets source_pages
                (find_target_page_ids target_urls pages)
          <-> exists src tgt,
                src ∈ pages /\ tgt ∈ pages
                /\ Rules.lower (page_type src)
                   ∈ map Rules.lower source_page_types
                /\ matches target_urls (page_url tgt) = true
                /\ l = (page_id src, page_id tgt)
                /\ page_id src <> page_id tgt) as Hlinks.
  { rewrite link_to_targets_spec. split.
    - intros (src & Hsrc & H1 & H2 & Hne).
      apply list_elem_of_filter in Hsrc as [Hty Hsrc].
      apply find_target_page_ids_spec in H2 as (tgt & Ht & Hid & Hm).
      exists src, tgt. repeat split; auto.
      + destruct l; simpl in *; congruence.
      + congruence.
    - intros (src & tgt & Hsrc & Ht & Hty & Hm & -> & Hne). exists src. simpl.
      repeat split; auto.
      + apply list_elem_of_filter. auto.
      + apply find_target_page_ids_spec. eauto. }
  destruct target_urls as [|u us] eqn:Eu.
  { split; [intros H; now apply elem_of_nil in H|].
    intros (_ & src & tgt & _ & _ & _ & Hm & _). discriminate. }
  rewrite <- Eu in *.
  destruct (find_target_page_ids target_urls pages) as [|i rest] eqn:Ei.
  { split; [intros H; now apply elem_of_nil in H|].
    intros (_ & H). apply Hlinks in H.
    apply link_to_targets_spec in H as (? & _ & _ & H & _).
    now apply elem_of_nil in H. }
  destruct (String.eqb action "add") eqn:Ea.
  { apply String.eqb_eq in Ea. rewrite Hlinks. intuition. }
  destruct (String.eqb action "remove") eqn:Er.
  { apply String.eqb_eq in Er. rewrite Hlinks. intuition. }
  apply String.eqb_neq in Ea, Er.
  split; [intros H; now apply elem_of_nil in H|].
  intros ([?|?] & _); contradiction.
Qed.

(** X25: a menu rule with action [add] or [remove] lists exactly the
    links from any page to a different page whose url contains one of
    the target urls, existing links included; a footer rule does the
    same from the pages whose type has the [str.lower] of one of its
    source types, whatever [str.lower] does to a string; other actions
    list nothing. *)
Theorem menu_and_footer_links_spec {fold : Rules.CaseFolding}
    (config : rule_config) (pages : list page)
    (existing_links : list link) (l : link) :
  (l ∈ menu_generate_links config pages existing_links
   <-> (default "add"%string (sf_action (source_filter config)) = "add"%string
        \/ default "add"%string (sf_action (source_filter config))
           = "remove"%string)
       /\ exists src tgt u pre post,
            src ∈ pages /\ tgt ∈ pages
            /\ u ∈ default [] (sf_target_urls (source_filter config))
            /\ page_url tgt = pre +:+ u +:+ post
            /\ l = (page_id src, page_id tgt)
            /\ page_id src <> page_id tgt)
  /\ (l ∈ footer_generate_links config pages existing_links
      <-> (default "add"%string (sf_action (source_filter config))
           = "add"%string
           \/ default "add"%string (sf_action (source_filter config))
              = "remove"%string)
          /\ exists src tgt t u pre post,
               src ∈ pages /\ tgt ∈ pages
               /\ t ∈ default ["product"; "category"]%string
                        (sf_source_types (source_filter config))
               /\ Rules.lower t = Rules.lower (page_type src)
               /\ u ∈ default [] (sf_target_urls (source_filter config))
               /\ page_url tgt = pre +:+ u +:+ post
               /\ l = (page_id src, page_id tgt)
               /\ page_id src <> page_id tgt).
Proof.
  split.
  - rewrite menu_links_matches. split.
    + intros (Ha & src & tgt & Hs & Ht & Hm & Hl & Hne).
      apply matches_spec in Hm as (u & pre & post & Hu & Hurl).
      split; [exact Ha|]. exists src, tgt, u, pre, post.
      repeat split; assumption.
    + intros (Ha & src & tgt & u & pre & post & Hs & Ht & Hu & Hurl & Hl & Hne).
      split; [exact Ha|]. exists src, tgt.
      repeat split; try assumption. apply matches_spec. eauto.
  - rewrite footer_links_matches. split.
    + intros (Ha & src & tgt & Hs & Ht & Hty & Hm & Hl & Hne).
      apply matches_spec in Hm as (u & pre & post & Hu & Hurl).
      change (map Rules.lower ?x) with (Rules.lower <$> x) in Hty.
      apply list_elem_of_fmap in Hty as (t & Hlow & Hin).
      split; [exact Ha|]. exists src, tgt, t, u, pre, post.
      repeat split; auto.
    + intros (Ha & src & tgt & t & u & pre & post & Hs & Ht & Hin & Hlow & Hu
              & Hurl & Hl & Hne).
      split; [exact Ha|]. exists src, tgt.
      repeat split; try assumption.
      * change (map Rules.lower ?x) with (Rules.lower <$> x).
        rewrite <- Hlow. now apply list_elem_of_fmap_2.
      * apply matches_spec. eauto.
Qed.

End TemplateFacts.

(** ** The orchestrator *)

Module SimulatorFacts.
Import QVec QVecFacts Solver SolverFacts ScoreFacts Templates TemplateFacts
  Weights Simulator.
Local Open Scope Q_scope.

(** X26: after a menu rule with action [remove] no link is left from a
    page to another page whose url contains a target url; the links
    kept are existing links in their order, and no link is added. *)
Theorem menu_removal_clears_links (config : rule_config) (pages : list page)
    (existing_links : list link) :
  is_removal_rule config = true ->
  let new_links := menu_generate_links config pages existing_links in
  let result := apply_rule_links true existing_links new_links in
  result.2 = []
  /\ result.1 `sublist_of` existing_links
  /\ forall src tgt u pre post,
       src ∈ pages -> tgt ∈ pages ->
       u ∈ default [] (sf_target_urls (source_filter config)) ->
       page_url tgt = pre +:+ u +:+ post ->
       page_id src <> page_id tgt ->
       (page_id src, page_id tgt) ∉ result.1.
Proof.
  intros Hrem new_links result. unfold result, apply_rule_links. simpl.
  split; [reflexivity|]. split; [apply sublist_filter|].
  intros src tgt u pre post Hs Ht Hu Hurl Hne Hin.
  apply list_elem_of_filter in Hin as [Hnot _]. apply Hnot.
  apply elem_of_list_to_set. unfold new_links.
  apply menu_links_matches. split.
  - right. unfold is_removal_rule in Hrem. now apply String.eqb_eq in Hrem.
  - exists src, tgt. repeat split; try assumption.
    apply matches_spec. eauto.
Qed.

Lemma menu_removal_clears_links_witness :
  let pg i u := Page i u "product" "a" 0 in
  let pages := [pg 1%Z "/home"; pg 2%Z "/shop/sale"; pg 3%Z "/about"] in
  let config :=
    RuleConfig (SourceFilter (Some "remove") (Some ["/sale"]) None)
      "menu_modification" 1%Z false true "header" in
  (1, 2)%Z ∉ (apply_rule_links true [(1, 2); (1, 3); (3, 2)]%Z
                (menu_generate_links config pages
                   [(1, 2); (1, 3); (3, 2)]%Z)).1.
Proof.
  intros pg pages config.
  refine (proj2 (proj2 (menu_removal_clears_links config pages
                          [(1, 2); (1, 3); (3, 2)]%Z eq_refl))
            (pg 1%Z "/home") (pg 2%Z "/shop/sale") "/sale" "/shop" "" _ _ _
            eq_refl _).
  - now left.
  - right. now left.
  - now left.
  - discriminate.
Defined.

(** The combined weight of a link is the mean of its position weight
    and its semantic score, the defaults being 1 and 0; with position
    weights in [0.2, 1] and scores in [0, 1] it lies in [0.1, 1]. *)
Lemma combined_weights_range (position_weights semantic_weights : gmap link Q) :
  (forall l p, position_weights !! l = Some p -> 2 # 10 <= p <= 1) ->
  (forall l s, semantic_weights !! l = Some s -> 0 <= s <= 1) ->
  forall l,
    (is_Some (combine_weights position_weights semantic_weights !! l)
     <-> is_Some (position_weights !! l) \/ is_Some (semantic_weights !! l))
    /\ forall w, combine_weights position_weights semantic_weights !! l = Some w ->
                 w == (default 1 (position_weights !! l)
                       + default 0 (semantic_weights !! l)) / 2
                 /\ 1 # 10 <= w <= 1.
Proof.
  intros Hpos Hsem l. unfold combine_weights. rewrite lookup_merge.
  specialize (Hpos l). specialize (Hsem l).
  destruct (position_weights !! l) as [p|], (semantic_weights !! l) as [s|];
    simpl.
  - split; [split; eauto|]. intros w [= <-]. split; [reflexivity|].
    specialize (Hpos p eq_refl). specialize (Hsem s eq_refl).
    split; [apply Qle_shift_div_l | apply Qle_shift_div_r]; lra.
  - split; [split; eauto|]. intros w [= <-]. split; [reflexivity|].
    specialize (Hpos p eq_refl).
    split; [apply Qle_shift_div_l | apply Qle_shift_div_r]; lra.
  - split; [split; eauto|]. intros w [= <-]. split; [reflexivity|].
    specialize (Hsem s eq_refl).
    split; [apply Qle_shift_div_l | apply Qle_shift_div_r]; lra.
  - split; [|discriminate]. split; [intros [? H]; discriminate|].
    intros [[? H]|[? H]]; discriminate.
Qed.

Lemma foldl_insert_const (c : Q) (links : list link) (m : gmap link Q)
    (l : link) :
  foldl (fun m lnk => <[ lnk := c ]> m) m links !! l
  = if decide (l ∈ links) then Some c else m !! l.
Proof.
  revert m. induction links as [|x links IH]; intros m; simpl.
  - destruct (decide (l ∈ [])) as [H|_]; [now apply elem_of_nil in H|].
    reflexivity.
  - rewrite IH. destruct (decide (l ∈ links)) as [Hin|Hnot].
    + destruct (decide (l ∈ x :: links)) as [_|N]; [reflexivity|].
      exfalso. apply N. now right.
    + destruct (decide (x = l)) as [->|Hne].
      * rewrite lookup_insert_eq.
        destruct (decide (l ∈ l :: links)) as [_|N]; [reflexivity|].
        exfalso. apply N. now left.
      * rewrite lookup_insert_ne by exact Hne.
        destruct (decide (l ∈ x :: links)) as [H|_]; [|reflexivity].
        apply elem_of_cons in H as [->|H]; [congruence | contradiction].
Qed.

(** X27: in a single-rule simulation every existing link has position
    weight 1 and every other new link the multiplier of the rule; the
    weight combined with semantic scores between 0 and 1 is defined
    for every link and lies between 0.1 and 1. *)
Theorem final_link_weights_range (config : rule_config)
    (existing_links new_links : list link) (semantic_weights : gmap link Q) :
  (forall l s, semantic_weights !! l = Some s -> 0 <= s <= 1) ->
  let position_weights :=
    create_position_weights (get_link_weight_multiplier config)
      existing_links new_links in
  let final_weights := combine_weights position_weights semantic_weights in
  (forall l, l ∈ existing_links -> position_weights !! l = Some 1)
  /\ (forall l, l ∈ new_links -> l ∉ existing_links ->
        position_weights !! l = Some (get_link_weight_multiplier config))
  /\ (forall l, l ∈ existing_links ++ new_links ->
        is_Some (final_weights !! l))
  /\ (forall l w, final_weights !! l = Some w -> 1 # 10 <= w <= 1).
Proof.
  intros Hsem position_weights final_weights.
  assert (forall l, position_weights !! l
                    = if decide (l ∈ existing_links) then Some 1
                      else if decide (l ∈ new_links)
                           then Some (get_link_weight_multiplier config)
                           else None) as Hpw.
  { intros l. unfold position_weights, create_position_weights.
    rewrite !foldl_insert_const, lookup_empty. reflexivity. }
  assert (forall l p, position_weights !! l = Some p -> 2 # 10 <= p <= 1)
    as Hrange.
  { intros l p. rewrite Hpw.
    destruct (decide _); [intros [= <-]; split; discriminate|].
    destruct (decide _); [|discriminate]. intros [= <-].
    apply link_weight_multiplier_range. }
  split; [|split; [|split]].
  - intros l Hl. rewrite Hpw. now destruct (decide _).
  - intros l Hl Hnot. rewrite Hpw. destruct (decide _); [contradiction|].
    now destruct (decide _).
  - intros l Hl.
    apply (proj1 (combined_weights_range position_weights semantic_weights
                    Hrange Hsem l)).
    left. rewrite Hpw. apply elem_of_app in Hl.
    destruct (decide _); [eauto|]. destruct (decide _); [eauto|]. tauto.
  - intros l w Hw.
    apply (proj2 (combined_weights_range position_weights semantic_weights
                    Hrange Hsem l) w Hw).
Qed.

Lemma final_link_weights_range_witness :
  let config :=
    RuleConfig (SourceFilter None None None) "same_category" 2%Z false true
      "sidebar" in
  let semantic_weights : gmap link Q := {[ (1, 2)%Z := 1 # 2 ]} in
  is_Some (combine_weights
             (create_position_weights (get_link_weight_multiplier config)
                [(1, 2)%Z] [(2, 1)%Z]) semantic_weights !! (2, 1)%Z).
Proof.
  intros config semantic_weights.
  refine (proj1 (proj2 (proj2 (final_link_weights_range config [(1, 2)%Z]
                                 [(2, 1)%Z] semantic_weights _)))
            (2, 1)%Z _).
  - intros l s H. apply lookup_singleton_Some in H as [_ <-].
    split; discriminate.
  - right. now left.
Defined.


(** *** Results and summary *)

Lemma py_max_spec (x : Q) (l : list Q) :
  (py_max x l = x \/ py_max x l ∈ l)
  /\ x <= py_max x l /\ Forall (fun y => y <= py_max x l) l.
Proof.
  unfold py_max. revert x. induction l as [|y l IH]; intros x; simpl.
  - split; [now left|]. split; [lra | constructor].
  - destruct (Qltb x y) eqn:E.
    + apply Qltb_lt in E. destruct (IH y) as (H1 & H2 & H3).
      split; [right; destruct H1 as [->|H1]; [now left | now right]|].
      split; [lra|]. constructor; assumption.
    + apply Qltb_ge in E. destruct (IH x) as (H1 & H2 & H3).
      split; [destruct H1 as [H1|H1]; [now left | right; now right]|].
      split; [exact H2|]. constructor; [lra | exact H3].
Qed.

Lemma py_min_spec (x : Q) (l : list Q) :
  (py_min x l = x \/ py_min x l ∈ l)
  /\ py_min x l <= x /\ Forall (fun y => py_min x l <= y) l.
Proof.
  unfold py_min. revert x. induction l as [|y l IH]; intros x; simpl.
  - split; [now left|]. split; [lra | constructor].
  - destruct (Qltb y x) eqn:E.
    + apply Qltb_lt in E. destruct (IH y) as (H1 & H2 & H3).
      split; [right; destruct H1 as [->|H1]; [now left | now right]|].
      split; [lra|]. constructor; assumption.
    + apply Qltb_ge in E. destruct (IH x) as (H1 & H2 & H3).
      split; [destruct H1 as [H1|H1]; [now left | right; now right]|].
      split; [exact H2|]. constructor; [lra | exact H3].
Qed.

Lemma vsum_abs (l : list Q) : Qabs (vsum l) <= vsum (map Qabs l).
Proof.
  induction l as [|x l IH]; simpl.
  - rewrite !vsum_nil. discriminate.
  - rewrite !vsum_cons. eapply Qle_trans; [apply Qabs_triangle|]. lra.
Qed.

Lemma delta_partition (deltas : list Q) :
  (length (filter (fun d => Qltb 0 d) deltas)
   + length (filter (fun d => Qltb d 0) deltas)
   + length (filter (fun d => Qeq_bool d 0) deltas) = length deltas)%nat.
Proof.
  induction deltas as [|d l IH]; [reflexivity|].
  rewrite !filter_cons. simpl length.
  destruct (Qeq_bool d 0) eqn:E3;
    [apply Qeq_bool_iff in E3 | apply Qeq_bool_false in E3];
    destruct (Qltb 0 d) eqn:E1, (Qltb d 0) eqn:E2;
    repeat match goal with
           | |- context [decide (Is_true true)] =>
               destruct (decide (Is_true true)) as [_|N];
               [|exfalso; apply N; exact I]
           | |- context [decide (Is_true false)] =>
               destruct (decide (Is_true false)) as [N|_];
               [destruct N|]
           end;
    simpl length;
    try (apply Qltb_lt in E1); try (apply Qltb_lt in E2);
    try (apply Qltb_ge in E1); try (apply Qltb_ge in E2);
    try lra; try lia; exfalso; apply E3; lra.
Qed.

(** X28: in the summary every delta lies between [max_negative_delta]
    and [max_positive_delta], which enclose 0; [pages_unchanged]
    counts the deltas equal to 0, and the total redistribution is at
    least the absolute net change. *)
Theorem summary_bounds (pages : list page) (results : list (Z * Q * Q))
    (new_links : list link) :
  (forall d, d ∈ map snd results ->
     max_negative_delta (create_simulation_summary pages results new_links)
     <= d
     <= max_positive_delta (create_simulation_summary pages results new_links))
  /\ max_negative_delta (create_simulation_summary pages results new_links)
     <= 0
     <= max_positive_delta (create_simulation_summary pages results new_links)
  /\ pages_unchanged (create_simulation_summary pages results new_links)
     = length (filter (fun d => Qeq_bool d 0) (map snd results))
  /\ Qabs (vsum (map snd results))
     <= total_pagerank_redistribution
          (create_simulation_summary pages results new_links).
Proof.
  unfold create_simulation_summary. simpl.
  set (deltas := map snd results).
  set (pos := filter (fun d => Qltb 0 d) deltas).
  set (neg := filter (fun d => Qltb d 0) deltas).
  assert (forall d, d ∈ pos -> d ∈ deltas /\ 0 < d) as Hpos.
  { intros d H. apply list_elem_of_filter in H as [H1 H2].
    split; [exact H2|]. apply Qltb_lt. now apply Is_true_true. }
  assert (forall d, d ∈ neg -> d ∈ deltas /\ d < 0) as Hneg.
  { intros d H. apply list_elem_of_filter in H as [H1 H2].
    split; [exact H2|]. apply Qltb_lt. now apply Is_true_true. }
  assert (0 <= match pos with [] => 0 | d :: rest => py_max d rest end
          /\ forall d, d ∈ pos ->
               d <= match pos with [] => 0 | d :: rest => py_max d rest end)
    as [Hmax0 Hmax].
  { destruct pos as [|p ps] eqn:Ep.
    - split; [lra|]. intros d H. now apply elem_of_nil in H.
    - destruct (py_max_spec p ps) as (_ & H2 & H3).
      destruct (Hpos p ltac:(now left)) as [_ Hp].
      split; [lra|]. intros d Hd. apply elem_of_cons in Hd as [->|Hd];
        [exact H2|]. exact (proj1 (Forall_forall _ _) H3 d Hd). }
  assert (match neg with [] => 0 | d :: rest => py_min d rest end <= 0
          /\ forall d, d ∈ neg ->
               match neg with [] => 0 | d :: rest => py_min d rest end <= d)
    as [Hmin0 Hmin].
  { destruct neg as [|p ps] eqn:Ep.
    - split; [lra|]. intros d H. now apply elem_of_nil in H.
    - destruct (py_min_spec p ps) as (_ & H2 & H3).
      destruct (Hneg p ltac:(now left)) as [_ Hp].
      split; [lra|]. intros d Hd. apply elem_of_cons in Hd as [->|Hd];
        [exact H2|]. exact (proj1 (Forall_forall _ _) H3 d Hd). }
  split; [|split; [|split]].
  - intros d Hd. split.
    + destruct (Qlt_le_dec d 0) as [Hlt|Hge]; [|lra].
      apply Hmin. apply list_elem_of_filter. split; [|exact Hd].
      apply Is_true_true. now apply Qltb_lt.
    + destruct (Qlt_le_dec 0 d) as [Hlt|Hge]; [|lra].
      apply Hmax. apply list_elem_of_filter. split; [|exact Hd].
      apply Is_true_true. now apply Qltb_lt.
  - split; assumption.
  - pose proof (delta_partition deltas) as H. fold pos neg in H. lia.
  - apply vsum_abs.
Qed.


Lemma vsum_sub (f g : page -> Q) (l : list page) :
  vsum (map (fun x => f x - g x) l) == vsum (map f l) - vsum (map g l).
Proof.
  induction l as [|x l IH]; simpl.
  - rewrite !vsum_nil. ring.
  - rewrite !vsum_cons, IH. ring.
Qed.

Lemma scores_of_pages (pages : list page) (scores : gmap Z Q) :
  NoDup (map page_id pages) ->
  (forall pid, is_Some (scores !! pid) <-> pid ∈ map page_id pages) ->
  map_to_list scores
  ≡ₚ map (fun pg => (page_id pg,
                     default (page_current_pagerank pg)
                       (scores !! page_id pg))) pages.
Proof.
  intros Hnd Hdom. apply NoDup_Permutation.
  - apply NoDup_map_to_list.
  - apply (NoDup_fmap_1 fst).
    change (fmap fst (map ?f pages)) with (fst <$> (f <$> pages)).
    rewrite <- list_fmap_compose. exact Hnd.
  - intros [k v]. rewrite elem_of_map_to_list.
    change (map ?f pages) with (f <$> pages). rewrite list_elem_of_fmap.
    split.
    + intros Hk.
      assert (k ∈ map page_id pages) as Hin by (apply Hdom; eauto).
      change (map page_id pages) with (page_id <$> pages) in Hin.
      apply list_elem_of_fmap in Hin as (pg & -> & Hpg).
      exists pg. split; [|exact Hpg]. now rewrite Hk.
    + intros (pg & [= -> ->] & Hpg).
      destruct (proj2 (Hdom (page_id pg))) as [v Hv].
      { change (map page_id pages) with (page_id <$> pages).
        now apply list_elem_of_fmap_2. }
      now rewrite Hv.
Qed.

(** X29: when the score dict has exactly the ids of the pages as keys,
    the deltas of the results add up to the sum of the new scores minus
    the sum of the current ranks. *)
Theorem deltas_balance (pages : list page) (new_pagerank : gmap Z Q) :
  NoDup (map page_id pages) ->
  (forall pid, is_Some (new_pagerank !! pid) <-> pid ∈ map page_id pages) ->
  vsum (map snd (prepare_results pages new_pagerank))
  == Spec.scores_sum new_pagerank - vsum (map page_current_pagerank pages).
Proof.
  intros Hnd Hdom. unfold prepare_results. rewrite map_map. simpl.
  rewrite (vsum_sub (fun pg => default (page_current_pagerank pg)
                                 (new_pagerank !! page_id pg))
             page_current_pagerank).
  unfold Spec.scores_sum.
  rewrite (vsum_Permutation _ _
             (fmap_Permutation snd _ _
                (scores_of_pages pages new_pagerank Hnd Hdom))).
  change (fmap snd (map ?f pages)) with (snd <$> (f <$> pages)).
  rewrite <- list_fmap_compose. reflexivity.
Qed.

Lemma deltas_balance_witness :
  let pages := [Page 1 "/a" "" "" (1 # 2); Page 2 "/b" "" "" (1 # 2)] in
  let new_pagerank : gmap Z Q := {[ 1%Z := 1 # 4; 2%Z := 3 # 4 ]} in
  vsum (map snd (prepare_results pages new_pagerank))
  == Spec.scores_sum new_pagerank - vsum (map page_current_pagerank pages).
Proof.
  intros pages new_pagerank. apply deltas_balance.
  - simpl. apply NoDup_cons. split; [|apply NoDup_singleton].
    intros H. apply list_elem_of_singleton in H. discriminate H.
  - intros pid. simpl. rewrite !elem_of_cons, elem_of_nil.
    unfold new_pagerank.
    destruct (decide (pid = 1%Z)) as [->|H1];
      [split; [now left | intros _; now eexists]|].
    destruct (decide (pid = 2%Z)) as [->|H2];
      [split; [right; now left | intros _; now eexists]|].
    rewrite lookup_insert_ne, lookup_singleton_ne by congruence.
    split; [intros [? H]; discriminate | intros [?|[?|[]]]; congruence].
Defined.

End SimulatorFacts.

(** ** Protections, from the request to the floor *)

Module ProtectionFacts.
Import QVec QVecFacts Solver SolverFacts SolverShapeFacts PageDataFacts
  Simulator.
Local Open Scope Q_scope.

(** *** Dicts as item lists *)

Lemma dict_set_elem (d : list (string * Q)) (k u : string) (v x : Q) :
  (u, x) ∈ dict_set d k v -> (u = k /\ x = v) \/ (u, x) ∈ d.
Proof.
  induction d as [|[k' v'] d IH]; simpl.
  - intros H. apply list_elem_of_singleton in H as [= -> ->]. now left.
  - destruct (String.eqb k' k) eqn:E.
    + apply String.eqb_eq in E as ->. intros H.
      apply elem_of_cons in H as [[= -> ->]|H]; [now left|].
      right. now right.
    + intros H. apply elem_of_cons in H as [[= -> ->]|H];
        [right; now left|].
      apply IH in H as [H|H]; [now left | right; now right].
Qed.

Lemma dict_set_lookup (d : list (string * Q)) (k : string) (v : Q) :
  (k, v) ∈ dict_set d k v.
Proof.
  induction d as [|[k' v'] d IH]; simpl; [now left|].
  destruct (String.eqb k' k) eqn:E.
  - apply String.eqb_eq in E as ->. now left.
  - now right.
Qed.

Lemma dict_set_other (d : list (string * Q)) (k u : string) (v x : Q) :
  u <> k -> (u, x) ∈ d -> (u, x) ∈ dict_set d k v.
Proof.
  intros Hne. induction d as [|[k' v'] d IH]; simpl.
  - intros H. now apply elem_of_nil in H.
  - intros H. destruct (String.eqb k' k) eqn:E.
    + apply String.eqb_eq in E as ->.
      apply elem_of_cons in H as [[= -> ->]|H]; [congruence | now right].
    + apply elem_of_cons in H as [[= -> ->]|H]; [now left|].
      right. now apply IH.
Qed.

Lemma dict_set_keys (d : list (string * Q)) (k u : string) (v : Q) :
  u ∈ (dict_set d k v).*1 -> u = k \/ u ∈ d.*1.
Proof.
  intros H. apply list_elem_of_fmap in H as ([u' x] & -> & H).
  apply dict_set_elem in H as [[-> _]|H]; [now left|].
  right. apply list_elem_of_fmap. now exists (u', x).
Qed.

Lemma dict_set_NoDup (d : list (string * Q)) (k : string) (v : Q) :
  NoDup d.*1 -> NoDup (dict_set d k v).*1.
Proof.
  induction d as [|[k' v'] d IH]; simpl; intros H.
  - apply NoDup_singleton.
  - apply NoDup_cons in H as [Hk Hd].
    destruct (String.eqb k' k) eqn:E; simpl.
    + apply NoDup_cons. split; assumption.
    + apply String.eqb_neq in E. apply NoDup_cons. split; [|now apply IH].
      intros Hin. apply dict_set_keys in Hin as [->|Hin]; [congruence|].
      contradiction.
Qed.

Lemma dict_unique (d : list (string * Q)) (k : string) (v1 v2 : Q) :
  NoDup d.*1 -> (k, v1) ∈ d -> (k, v2) ∈ d -> v1 = v2.
Proof.
  induction d as [|[k' v'] d IH]; simpl; intros Hnd H1 H2.
  - now apply elem_of_nil in H1.
  - apply NoDup_cons in Hnd as [Hk Hd].
    apply elem_of_cons in H1 as [E1|H1];
      apply elem_of_cons in H2 as [E2|H2]; simplify_eq; auto.
    + exfalso. apply Hk. apply list_elem_of_fmap. now exists (k', v2).
    + exfalso. apply Hk. apply list_elem_of_fmap. now exists (k', v1).
Qed.

(** *** Pages by url *)

Lemma foldl_insert_untouched {V : Type} (val : page -> V) (pages : list page)
    (m : gmap string V) (url : string) :
  url ∉ map page_url pages ->
  foldl (fun m pg => <[ page_url pg := val pg ]> m) m pages !! url = m !! url.
Proof.
  revert m. induction pages as [|pg pages IH]; intros m Hnot; simpl;
    [reflexivity|].
  rewrite IH.
  - apply lookup_insert_ne. intros E. apply Hnot. simpl. rewrite E. now left.
  - intros H. apply Hnot. simpl. now right.
Qed.

Lemma foldl_insert_by_url {V : Type} (val : page -> V) (pages : list page)
    (m : gmap string V) (pg : page) :
  NoDup (map page_url pages) -> pg ∈ pages ->
  foldl (fun m pg => <[ page_url pg := val pg ]> m) m pages !! page_url pg
  = Some (val pg).
Proof.
  revert m. induction pages as [|p pages IH]; intros m Hnd Hin; simpl.
  - now apply elem_of_nil in Hin.
  - simpl in Hnd. apply NoDup_cons in Hnd as [Hp Hnd].
    apply elem_of_cons in Hin as [->|Hin]; [|now apply IH].
    rewrite foldl_insert_untouched by exact Hp. apply lookup_insert_eq.
Qed.

Lemma page_by_id (pages : list page) (pg pg' : page) :
  NoDup (map page_id pages) -> pg ∈ pages -> pg' ∈ pages ->
  page_id pg' = page_id pg -> pg' = pg.
Proof.
  induction pages as [|p pages IH]; simpl; intros Hnd H1 H2 E.
  - now apply elem_of_nil in H1.
  - apply NoDup_cons in Hnd as [Hp Hnd].
    assert (forall q, q ∈ pages -> page_id q ∈ map page_id pages) as Hin.
    { intros q Hq. change (map page_id pages) with (page_id <$> pages).
      now apply list_elem_of_fmap_2. }
    apply elem_of_cons in H1 as [->|H1]; apply elem_of_cons in H2 as [->|H2];
      auto.
    + exfalso. apply Hp. rewrite <- E. now apply Hin.
    + exfalso. apply Hp. rewrite E. now apply Hin.
Qed.


(** *** The converted protections *)

Lemma convert_protected_NoDup (pages : list page)
    (requests : list protected_page) :
  NoDup (convert_protected_pages pages requests).*1.
Proof.
  unfold convert_protected_pages.
  apply (foldl_invariant_elem (fun d : list (string * Q) => NoDup d.*1));
    [constructor|].
  intros d req _ Hd. simpl.
  destruct (Qltb _ 0); [|now apply dict_set_NoDup].
  destruct (_ !! protect_url req) as [pg|]; [|exact Hd].
  destruct (Qltb 0 _); [now apply dict_set_NoDup | exact Hd].
Qed.

Lemma convert_protected_entry (pages : list page)
    (requests : list protected_page) (pg : page) (f : Q) :
  NoDup (map page_url pages) -> NoDup (map protect_url requests) ->
  pg ∈ pages -> ProtectedPage (page_url pg) (Some f) ∈ requests ->
  (f < 0 -> 0 < page_current_pagerank pg) ->
  (page_url pg,
   if Qltb f 0 then page_current_pagerank pg * (1 - Qabs f) else f)
  ∈ convert_protected_pages pages requests.
Proof.
  intros Hurls Hreq Hpg Hin Hrank.
  apply list_elem_of_split in Hin as (before & after & ->).
  unfold convert_protected_pages.
  pose proof (foldl_insert_by_url (fun pg => pg) pages ∅ pg Hurls Hpg) as Hu.
  set (url_to_page := foldl (fun m pg => <[ page_url pg := pg ]> m) ∅ pages)
    in *.
  rewrite foldl_app. simpl. rewrite Hu.
  rewrite map_app in Hreq. simpl in Hreq.
  apply NoDup_app in Hreq as (_ & _ & Hafter).
  apply NoDup_cons in Hafter as [Hnot _].
  match goal with |- _ ∈ foldl ?step ?d0 after =>
    assert (forall x d, (page_url pg, x) ∈ d ->
                        (page_url pg, x) ∈ foldl step d after) as Hkeep
  end.
  { clear -Hnot. intros x.
    induction after as [|req after IH]; intros d Hd; simpl; [exact Hd|].
    simpl in Hnot. apply IH.
    { intros H. apply Hnot. now right. }
    assert (page_url pg <> protect_url req) as Hne.
    { intros E. apply Hnot. rewrite E. now left. }
    destruct (Qltb _ 0); [|now apply dict_set_other].
    destruct (_ !! protect_url req) as [pg'|]; [|exact Hd].
    destruct (Qltb 0 _); [now apply dict_set_other | exact Hd]. }
  apply Hkeep.
  destruct (Qltb f 0) eqn:E; [|apply dict_set_lookup].
  apply Qltb_lt in E.
  assert (Qltb 0 (page_current_pagerank pg) = true) as ->
      by (apply Qltb_lt; auto).
  apply dict_set_lookup.
Qed.

(** X30: in a multi-rule simulation the floor that the solver applies to
    a protected page is the converted protection value times the
    baseline score of the page: for an automatic protection (negative
    factor) the current rank times one minus the loss limit, times the
    baseline score, and for a manual one the factor times the baseline
    score. *)
Theorem protection_floor (pages : list page)
    (requests : list protected_page)
    (boosted_pages alpha_cap : list (string * Q)) (baseline_vec : list Q)
    (pg : page) (f : Q) :
  NoDup (map page_id pages) -> NoDup (map page_url pages) ->
  NoDup (map protect_url requests) ->
  length baseline_vec = length pages ->
  pg ∈ pages -> ProtectedPage (page_url pg) (Some f) ∈ requests ->
  (f < 0 -> 0 < page_current_pagerank pg) ->
  exists i,
    pages !! i = Some pg
    /\ set_floors
         (prepare_page_data pages (convert_protected_pages pages requests)
            boosted_pages alpha_cap)
         (index_of_ids (map page_id pages)) baseline_vec !! i
       = Some ((if Qltb f 0 then page_current_pagerank pg * (1 - Qabs f)
                else f) * nth i baseline_vec 0).
Proof.
  intros Hids Hurls Hreq Hlen Hpg Hin Hrank.
  set (thr := if Qltb f 0 then page_current_pagerank pg * (1 - Qabs f) else f).
  set (D := convert_protected_pages pages requests).
  set (pd := prepare_page_data pages D boosted_pages alpha_cap).
  set (idx := index_of_ids (map page_id pages)).
  pose proof (convert_protected_entry pages requests pg f Hurls Hreq Hpg Hin
                Hrank) as HD. fold thr D in HD.
  pose proof (convert_protected_NoDup pages requests) as HDnd. fold D in HDnd.
  (* the url of the page is mapped to its id *)
  assert (url_to_id pd !! page_url pg = Some (page_id pg)) as Hu2i.
  { unfold pd, prepare_page_data. simpl.
    exact (foldl_insert_by_url page_id pages ∅ pg Hurls Hpg). }
  (* the id is protected, with the converted value *)
  assert (page_id pg ∈ protected_ids pd) as Hprot.
  { unfold pd, prepare_page_data. simpl.
    apply (proj1 (mark_fold _ D (∅, ∅) (page_id pg))). right.
    exists (page_url pg), thr. split; [exact HD | exact Hu2i]. }
  assert (floor_values pd !! page_id pg = Some thr) as Hfloor.
  { destruct (proj1 (prepare_page_data_factors pages D boosted_pages alpha_cap)
                (page_id pg) Hprot) as [x Hx].
    fold pd in Hx. rewrite Hx. f_equal.
    unfold pd, prepare_page_data in Hx. simpl in Hx.
    apply (proj2 (mark_fold _ D (∅, ∅) (page_id pg))) in Hx
      as [Hx|(u & Hux & Hu)]; [simpl in Hx; now rewrite lookup_empty in Hx|].
    apply url_to_id_origin in Hu as [Hu|(pg' & Hpg' & <- & Hid)];
      [now rewrite lookup_empty in Hu|].
    rewrite (page_by_id pages pg pg' Hids Hpg Hpg' Hid) in Hux.
    exact (dict_unique D (page_url pg) x thr HDnd Hux HD). }
  (* the index of the page *)
  destruct (idx !! page_id pg) as [i|] eqn:Ei;
    [|exfalso; apply index_of_ids_None in Ei; apply Ei;
      change (map page_id pages) with (page_id <$> pages);
      now apply list_elem_of_fmap_2].
  pose proof (proj1 (index_of_ids_Some _ _ _) Ei) as [Hi _].
  assert (pages !! i = Some pg) as Hpi.
  { change (map page_id pages) with (page_id <$> pages) in Hi.
    rewrite list_lookup_fmap in Hi.
    destruct (pages !! i) as [pg'|] eqn:Ep; [|discriminate].
    injection Hi as Hid. f_equal.
    apply (page_by_id pages pg pg' Hids Hpg); [|exact Hid].
    eapply list_elem_of_lookup_2, Ep. }
  exists i. split; [exact Hpi|].
  assert (i < length (set_floors pd idx baseline_vec))%nat as Hlt.
  { rewrite set_floors_length, Hlen. eapply lookup_lt_Some, Hpi. }
  destruct (lookup_lt_is_Some_2 _ _ Hlt) as [x Hx]. rewrite Hx. f_equal.
  unfold set_floors in Hx.
  apply (foldl_insert_at (fun pid => idx !! pid)
           (fun pid k => default 0 (floor_values pd !! pid)
                         * nth k baseline_vec 0)) in Hx
    as [(pid & Hp & Hk & ->)|[_ Hall]].
  - assert (pid = page_id pg) as ->.
    { apply index_of_ids_Some in Hk as [Hk _]. congruence. }
    now rewrite Hfloor.
  - exfalso. apply (Hall (page_id pg)); [|exact Ei].
    now apply elem_of_elements.
Qed.

Lemma protection_floor_witness :
  let pages := [Page 1 "/a" "" "" (1 # 10); Page 2 "/b" "" "" (9 # 10)] in
  let requests := [ProtectedPage "/a" (Some (- (2 # 100)))] in
  exists i,
    pages !! i = Some (Page 1 "/a" "" "" (1 # 10))
    /\ set_floors
         (prepare_page_data pages (convert_protected_pages pages requests)
            [] [])
         (index_of_ids (map page_id pages)) [1 # 10; 9 # 10] !! i
       = Some ((1 # 10) * (1 - Qabs (- (2 # 100))) * nth i [1 # 10; 9 # 10] 0).
Proof.
  intros pages requests.
  refine (protection_floor pages requests [] [] [1 # 10; 9 # 10]
            (Page 1 "/a" "" "" (1 # 10)) (- (2 # 100)) _ _ _ eq_refl _ _ _).
  - simpl. apply NoDup_cons. split; [|apply NoDup_singleton].
    intros H. apply list_elem_of_singleton in H. discriminate H.
  - simpl. apply NoDup_cons. split; [|apply NoDup_singleton].
    intros H. apply list_elem_of_singleton in H. discriminate H.
  - simpl. apply NoDup_singleton.
  - now left.
  - now left.
  - reflexivity.
Defined.

End ProtectionFacts.
